(** * naff: rate-limited HTTP dispatch and gateway connection state

    A shallow embedding of [naff/api/http/http_client.py] (GlobalLock,
    BucketLock, HTTPClient) and of [naff/api/gateway/state.py]
    (ConnectionState._ws_connect, ConnectionState.change_presence).

    Python values are modelled as follows.
    - [str] is [string]; the conversions [int(s)] and [float(s)] are those
      of ASCII text, and [str.upper()] beyond ASCII is an interface.
    - [int] is [Z]; [float] is [PyFloat]: a rational, an infinity or NaN;
      a conversion to [float] rounds to the nearest binary64 value (the
      sign of zero and the arithmetic of the clock are not modelled).
    - an exception is a value of [PyExn]; a function that can raise returns
      the state it reached together with the exception.
    - the cooperative tasks of the event loop are a transition system: one
      [step] runs one task from a suspension point ([await]) to the next. *)

From Stdlib Require Import ZArith QArith Qround Qabs Lqa String Ascii List Bool Lia.
From stdpp Require Import gmap strings list pretty.

Open Scope string_scope.

(** ** Python primitives used by the code *)
Module Py.

Inductive PyFloat : Type :=
  | FFin (q : Q)
  | FInf (negative : bool)
  | FNan.

(** Truth value of a float: only zero is false. *)
Definition float_truthy (f : PyFloat) : bool :=
  match f with
  | FFin q => negb (Qeq_bool q 0)
  | _ => true
  end.

(** A small [int] where a [float] is expected (a delay in seconds). *)
Definition float_of_int (z : Z) : PyFloat := FFin (inject_Z z).

(** The nearest integer, a tie going to the even one. *)
Definition round_half_even (q : Q) : Z :=
  let f := Qfloor q in
  match Qcompare (q - inject_Z f) (1 # 2) with
  | Lt => f
  | Gt => (f + 1)%Z
  | Eq => if Z.even f then f else (f + 1)%Z
  end.

(** The exponent [e] with [2^e <= q < 2^(e+1)], for a positive [q]. *)
Definition floor_log2 (q : Q) : Z :=
  let e := (Z.log2 (Qnum q) - Z.log2 (Zpos (Qden q)))%Z in
  if Qle_bool (Qpower 2 e) q then e else (e - 1)%Z.

(** The binary64 value nearest to [q] (53 bits, exponents from -1022 to
    1023, subnormal below), a tie going to the even one; what is out of
    range becomes an infinity, what is too small becomes zero. *)
Definition binary64 (q : Q) : PyFloat :=
  if Qeq_bool q 0 then FFin 0
  else
    let a := Qabs q in
    let e := Z.max (floor_log2 a) (-1022) in
    let quantum := Qpower 2 (e - 52) in
    let r := Qred (inject_Z (round_half_even (a / quantum)) * quantum) in
    let negative := negb (Qle_bool 0 q) in
    if Qle_bool (Qpower 2 1024) r then FInf negative
    else FFin (if negative then Qopp r else r).

(** The white space that [int] and [float] skip around ASCII text: tab,
    line feed, vertical tab, form feed, carriage return and space (the
    separators 28 to 31, which [str.strip] removes, are not skipped). *)
Definition isspace (c : ascii) : bool :=
  let n := N_of_ascii c in
  ((9 <=? n) && (n <=? 13) || (n =? 32))%N.

(** Is every character of the text an ASCII character? *)
Definition is_ascii_char (c : ascii) : bool := (N_of_ascii c <? 128)%N.

Definition is_ascii (s : string) : bool :=
  forallb is_ascii_char (list_ascii_of_string s).

Definition isdigit (c : ascii) : bool :=
  let n := N_of_ascii c in ((48 <=? n) && (n <=? 57))%N.

Definition digit_value (c : ascii) : Z := Z.of_N (N_of_ascii c) - 48.

Definition lower_ascii (c : ascii) : ascii :=
  let n := N_of_ascii c in
  if ((65 <=? n) && (n <=? 90))%N then ascii_of_N (n + 32) else c.

Definition upper_ascii (c : ascii) : ascii :=
  let n := N_of_ascii c in
  if ((97 <=? n) && (n <=? 122))%N then ascii_of_N (n - 32) else c.

Fixpoint lower (s : string) : string :=
  match s with
  | EmptyString => EmptyString
  | String c s' => String (lower_ascii c) (lower s')
  end.

(** [str.upper()] of ASCII text ([lower]: [str.lower()] of ASCII text). *)
Fixpoint upper (s : string) : string :=
  match s with
  | EmptyString => EmptyString
  | String c s' => String (upper_ascii c) (upper s')
  end.

(** Truth value of a [str]: only the empty string is false. *)
Definition str_truthy (s : string) : bool :=
  match s with EmptyString => false | _ => true end.

Fixpoint lstrip (l : list ascii) : list ascii :=
  match l with
  | c :: l' => if isspace c then lstrip l' else l
  | [] => []
  end.

Definition strip (l : list ascii) : list ascii :=
  rev (lstrip (rev (lstrip l))).

Definition split_sign (l : list ascii) : bool * list ascii :=
  match l with
  | "+"%char :: r => (false, r)
  | "-"%char :: r => (true, r)
  | _ => (false, l)
  end.

(** Digits of a decimal literal: a digit, then digits with single
    underscores between them. *)
Fixpoint digits (acc : Z) (after_digit : bool) (l : list ascii) : option Z :=
  match l with
  | [] => if after_digit then Some acc else None
  | c :: l' =>
      if isdigit c then digits (10 * acc + digit_value c) true l'
      else if Ascii.eqb c "_" then
        if after_digit then digits acc false l' else None
      else None
  end.

(** [sys.int_max_str_digits], at its default. *)
Definition int_max_str_digits : nat := 4300.

(** [int(s)] for a string [s]; [None] stands for [ValueError]: the text
    is no decimal literal, or it has more digits than
    [int_max_str_digits]. *)
Definition int_of_str (s : string) : option Z :=
  let '(neg, r) := split_sign (strip (list_ascii_of_string s)) in
  if (int_max_str_digits <? length (List.filter isdigit r))%nat then None
  else
    z ← digits 0 false r;
    Some (if neg then (- z)%Z else z).

(** Underscores of a float literal must stand between two digits. *)
Fixpoint drop_underscores (after_digit : bool) (l : list ascii)
  : option (list ascii) :=
  match l with
  | [] => Some []
  | c :: l' =>
      if Ascii.eqb c "_" then
        match l' with
        | d :: _ =>
            if after_digit && isdigit d then drop_underscores false l'
            else None
        | [] => None
        end
      else (c ::.) <$> drop_underscores (isdigit c) l'
  end.

Fixpoint span_digits (l : list ascii) : list ascii * list ascii :=
  match l with
  | c :: l' =>
      if isdigit c then let '(ds, r) := span_digits l' in (c :: ds, r)
      else ([], l)
  | [] => ([], [])
  end.

Definition digits_Z (ds : list ascii) : Z :=
  fold_left (λ acc c, 10 * acc + digit_value c)%Z ds 0%Z.

(** Optional exponent part: [e], optional sign, at least one digit, and
    nothing after it. *)
Definition exponent (l : list ascii) : option Z :=
  match l with
  | [] => Some 0%Z
  | c :: r =>
      if Ascii.eqb (lower_ascii c) "e" then
        let '(neg, r') := split_sign r in
        let '(ds, rest) := span_digits r' in
        match ds, rest with
        | _ :: _, [] => Some (if neg then - digits_Z ds else digits_Z ds)%Z
        | _, _ => None
        end
      else None
  end.

Definition decimal (l : list ascii) : option Q :=
  let '(ip, r1) := span_digits l in
  let '(fp, r2) :=
    match r1 with
    | "."%char :: r => span_digits r
    | _ => ([], r1)
    end in
  match (ip ++ fp)%list with
  | [] => None
  | ds =>
      e ← exponent r2;
      Some (Qred (inject_Z (digits_Z ds)
                  * Qpower (10 # 1) (e - Z.of_nat (length fp))))
  end.

(** [float(s)] for a string [s]; [None] stands for [ValueError].  A
    literal out of the range of binary64 gives an infinity, no error. *)
Definition float_of_str (s : string) : option PyFloat :=
  let '(neg, r) := split_sign (strip (list_ascii_of_string s)) in
  let w := lower (string_of_list_ascii r) in
  if String.eqb w "inf" || String.eqb w "infinity" then Some (FInf neg)
  else if String.eqb w "nan" then Some FNan
  else
    r' ← drop_underscores false r;
    q ← decimal r';
    Some (binary64 (if neg then Qopp q else q)).

(** [float(z)] for an [int]: [None] stands for [OverflowError]. *)
Definition float_of_big_int (z : Z) : option PyFloat :=
  match binary64 (inject_Z z) with
  | FInf _ => None
  | f => Some f
  end.

Inductive PyExn : Type :=
  | ValueError
  | KeyError
  | TypeError
  | AttributeError
  | RuntimeError
  | OverflowError
  | OSError (errno : Z)
  | OtherError (name : string).

End Py.
Export Py.

(** ** http_client.py: data *)
Module Http.

(** A response header map ([CIMultiDictProxy]): keys are compared without
    regard to case and [get] returns the first value of a key. *)
Definition Header : Type := list (string * string).

Definition header_get (header : Header) (key : string) : option string :=
  snd <$> List.find (λ kv, String.eqb (lower (fst kv)) (lower key)) header.

(** The fields of [Route] that this module reads. *)
Record Route : Type := mkRoute {
  method : string;
  url : string;
  endpoint : string;
  rl_bucket : string
}.

(** A caller's Python object whose content this module does not inspect. *)
Inductive PyObj : Type := Obj (repr : string).

(** A JSON value of a decoded response body, as far as the code looks:
    a number is decoded to an [int] ([JInt]) or to a [float]
    ([JNumber]). *)
Inductive JValue : Type :=
  | JNull
  | JBool (b : bool)
  | JInt (z : Z)
  | JNumber (f : PyFloat)
  | JString (s : string)
  | JCompound (nonempty : bool).

(** The value of [response_decode(response)]: a JSON object or anything
    else (text, a JSON array, ...). *)
Inductive Decoded : Type :=
  | DDict (fields : gmap string JValue)
  | DOther (x : PyObj).

Definition jvalue_truthy (v : JValue) : bool :=
  match v with
  | JNull => false
  | JBool b => b
  | JInt z => negb (z =? 0)%Z
  | JNumber f => float_truthy f
  | JString s => str_truthy s
  | JCompound nonempty => nonempty
  end.

(** [float(v)] *)
Definition float_of_jvalue (v : JValue) : PyFloat + PyExn :=
  match v with
  | JNull => inr TypeError
  | JBool b => inl (float_of_int (if b then 1 else 0))
  | JInt z =>
      match float_of_big_int z with
      | Some f => inl f
      | None => inr OverflowError
      end
  | JNumber f => inl f
  | JString s =>
      match float_of_str s with
      | Some f => inl f
      | None => inr ValueError
      end
  | JCompound _ => inr TypeError
  end.

(** [float(result["retry_after"])] *)
Definition retry_after_of (fields : gmap string JValue) : PyFloat + PyExn :=
  match fields !! "retry_after" with
  | Some v => float_of_jvalue v
  | None => inr KeyError
  end.

(** *** BucketLock *)
Record BucketLock : Type := mkBucketLock {
  _lock : bool;               (* asyncio.Lock: is it acquired *)
  unlock_on_exit : bool;
  bucket_hash : option string;
  limit : Z;
  remaining : Z;
  delta : PyFloat
}.

(** [BucketLock.__init__] *)
Definition new_BucketLock : BucketLock :=
  {| _lock := false; unlock_on_exit := true; bucket_hash := None;
     limit := -1; remaining := -1; delta := FFin 0 |}.

Definition set_locked (b : bool) (L : BucketLock) : BucketLock :=
  {| _lock := b; unlock_on_exit := unlock_on_exit L;
     bucket_hash := bucket_hash L; limit := limit L;
     remaining := remaining L; delta := delta L |}.

Definition set_unlock_on_exit (b : bool) (L : BucketLock) : BucketLock :=
  {| _lock := _lock L; unlock_on_exit := b;
     bucket_hash := bucket_hash L; limit := limit L;
     remaining := remaining L; delta := delta L |}.

Definition set_bucket_hash (h : option string) (L : BucketLock) : BucketLock :=
  {| _lock := _lock L; unlock_on_exit := unlock_on_exit L;
     bucket_hash := h; limit := limit L;
     remaining := remaining L; delta := delta L |}.

Definition set_limit (z : Z) (L : BucketLock) : BucketLock :=
  {| _lock := _lock L; unlock_on_exit := unlock_on_exit L;
     bucket_hash := bucket_hash L; limit := z;
     remaining := remaining L; delta := delta L |}.

Definition set_remaining (z : Z) (L : BucketLock) : BucketLock :=
  {| _lock := _lock L; unlock_on_exit := unlock_on_exit L;
     bucket_hash := bucket_hash L; limit := limit L;
     remaining := z; delta := delta L |}.

Definition set_delta (f : PyFloat) (L : BucketLock) : BucketLock :=
  {| _lock := _lock L; unlock_on_exit := unlock_on_exit L;
     bucket_hash := bucket_hash L; limit := limit L;
     remaining := remaining L; delta := f |}.

(** [locked] *)
Definition locked (L : BucketLock) : bool := _lock L.

(** [unlock]: [asyncio.Lock.release] raises [RuntimeError] on a lock that
    is not acquired. *)
Definition unlock (L : BucketLock) : BucketLock + PyExn :=
  if _lock L then inl (set_locked false L) else inr RuntimeError.

(** [int(v or -1)] for [v = header.get(key)] *)
Definition int_or_minus_one (v : option string) : option Z :=
  match v with
  | Some s => if str_truthy s then int_of_str s else Some (-1)%Z
  | None => Some (-1)%Z
  end.

(** [float(header.get(key, 0.0))] *)
Definition float_or_zero (v : option string) : option PyFloat :=
  match v with
  | Some s => float_of_str s
  | None => Some (FFin 0)
  end.

(** [ingest_ratelimit_header]: the four assignments run in order, so an
    exception leaves the earlier ones done. *)
Definition ingest_ratelimit_header (header : Header) (self : BucketLock)
  : BucketLock * option PyExn :=
  let self := set_bucket_hash (header_get header "x-ratelimit-bucket") self in
  match int_or_minus_one (header_get header "x-ratelimit-limit") with
  | None => (self, Some ValueError)
  | Some lim =>
      let self := set_limit lim self in
      match int_or_minus_one (header_get header "x-ratelimit-remaining") with
      | None => (self, Some ValueError)
      | Some rem =>
          let self := set_remaining rem self in
          match float_or_zero (header_get header "x-ratelimit-reset-after") with
          | None => (self, Some ValueError)
          | Some d => (set_delta d self, None)
          end
      end
  end.

(** [__aexit__] *)
Definition aexit (self : BucketLock) : BucketLock :=
  let self :=
    if unlock_on_exit self && locked self then set_locked false self
    else self in
  set_unlock_on_exit true self.

(** *** Payloads and files *)
Inductive PayloadItem : Type :=
  | ItemDict (d : PyObj)
  | ItemOther (x : PyObj).

Inductive Payload : Type :=
  | PayloadDict (d : PyObj)
  | PayloadList (items : list PayloadItem).

(** A payload after filtering; [FilteredDict d] and [Filtered d] stand for
    [dict_filter(d)]. *)
Inductive FilteredItem : Type :=
  | Filtered (d : PyObj)
  | Unfiltered (x : PyObj).

Inductive FilteredPayload : Type :=
  | FilteredDict (d : PyObj)
  | FilteredList (items : list FilteredItem).

(** [UPLOADABLE_TYPE]: a [models.File], a path given as [str], or another
    path or stream object. *)
Inductive Upload : Type :=
  | UFile (file_name : string) (content : PyObj)
  | UStr (path : string)
  | UObject (x : PyObj).

Inductive Files : Type :=
  | FilesNone
  | FilesOne (file : Upload)
  | FilesList (files : list Upload).

Definition upload_truthy (u : Upload) : bool :=
  match u with
  | UStr path => str_truthy path
  | _ => true
  end.

Definition files_truthy (files : Files) : bool :=
  match files with
  | FilesNone => false
  | FilesOne file => upload_truthy file
  | FilesList l => match l with [] => false | _ => true end
  end.

(** A field of an aiohttp [FormData]; [JsonDumps p] stands for
    [OverriddenJson.dumps(p)] and [FileBuffer file] for
    [models.open_file(file)]. *)
Inductive FieldValue : Type :=
  | JsonDumps (p : FilteredPayload)
  | FileBuffer (file : Upload).

Record Field : Type := mkField {
  field_name : string;
  field_value : FieldValue;
  field_filename : option string
}.

Definition FormData : Type := list Field.

Inductive ProcessedData : Type :=
  | DataNone
  | DataPayload (p : FilteredPayload)
  | DataForm (form_data : FormData).

Definition filter_item (x : PayloadItem) : FilteredItem :=
  match x with
  | ItemDict d => Filtered d
  | ItemOther x => Unfiltered x
  end.

Definition filter_payload (payload : Payload) : FilteredPayload :=
  match payload with
  | PayloadDict d => FilteredDict d
  | PayloadList items => FilteredList (filter_item <$> items)
  end.

Definition file_field (index : nat) (file : Upload) : Field :=
  match file with
  | UFile file_name _ =>
      mkField ("files[" +:+ pretty index +:+ "]") (FileBuffer file)
              (Some file_name)
  | _ => mkField ("files[" +:+ pretty index +:+ "]") (FileBuffer file) None
  end.

(** [for index, file in enumerate(files)] *)
Fixpoint add_files (index : nat) (files : list Upload) (form_data : FormData)
  : FormData :=
  match files with
  | [] => form_data
  | file :: rest =>
      add_files (S index) rest (form_data ++ [file_field index file])%list
  end.

(** [_process_payload] *)
Definition _process_payload (payload : option Payload) (files : Files)
  : ProcessedData :=
  match payload with
  | None => DataNone
  | Some payload =>
      let payload := filter_payload payload in
      if negb (files_truthy files) then DataPayload payload
      else
        let files :=
          match files with
          | FilesList l => l
          | FilesOne file => [file]
          | FilesNone => []
          end in
        let form_data := [mkField "payload_json" (JsonDumps payload) None] in
        DataForm (add_files 0 files form_data)
  end.

(** *** Keyword arguments of [session.request] *)
Inductive HeaderValue : Type :=
  | Text (s : string)
  | UriQuoted (reason : string).   (* _uriquote(reason, safe="/ ") *)

Inductive DataArg : Type :=
  | FormArg (form_data : FormData)
  | CallerData (x : PyObj).

Inductive JsonArg : Type :=
  | JsonPayload (p : option FilteredPayload)
  | CallerJson (x : PyObj).

(** [kwargs]: the keys the code writes; of the caller's other keys only
    [data] and [json] are kept. [kw_params = Some d] is [dict_filter(d)]. *)
Record Kwargs : Type := mkKwargs {
  kw_headers : list (string * HeaderValue);
  kw_params : option PyObj;
  kw_data : option DataArg;
  kw_json : option JsonArg
}.

Definition opt_truthy (o : option string) : bool :=
  match o with Some s => str_truthy s | None => false end.

(** The head of [request]: assemble the headers. *)
Definition assemble (user_agent : string) (token reason : option string)
    (payload : option Payload) (files : Files) (params : option PyObj)
    (extra : Kwargs) : Kwargs :=
  let headers := [("User-Agent", Text user_agent)] in
  let headers :=
    match token with
    | Some tk =>
        if str_truthy tk
        then (headers ++ [("Authorization", Text ("Bot " +:+ tk))])%list
        else headers
    | None => headers
    end in
  let headers :=
    match reason with
    | Some r =>
        if str_truthy r
        then (headers ++ [("X-Audit-Log-Reason", UriQuoted r)])%list
        else headers
    | None => headers
    end in
  let headers :=
    match payload with
    | Some _ =>
        if negb (files_truthy files)
        then (headers ++ [("Content-Type", Text "application/json")])%list
        else headers
    | None => headers
    end in
  {| kw_headers := headers;
     kw_params :=
       match params with Some d => Some d | None => kw_params extra end;
     kw_data := kw_data extra;
     kw_json := kw_json extra |}.

(** [kwargs["data"] = processed_data] or [kwargs["json"] = processed_data] *)
Definition set_body (processed_data : ProcessedData) (kw : Kwargs) : Kwargs :=
  match processed_data with
  | DataForm form_data =>
      {| kw_headers := kw_headers kw; kw_params := kw_params kw;
         kw_data := Some (FormArg form_data); kw_json := kw_json kw |}
  | DataPayload p =>
      {| kw_headers := kw_headers kw; kw_params := kw_params kw;
         kw_data := kw_data kw; kw_json := Some (JsonPayload (Some p)) |}
  | DataNone =>
      {| kw_headers := kw_headers kw; kw_params := kw_params kw;
         kw_data := kw_data kw; kw_json := Some (JsonPayload None) |}
  end.

(** *** Errors and results of [request] *)
Inductive HTTPErrorKind : Type :=
  | Forbidden
  | NotFound
  | DiscordError
  | HTTPException.

Inductive Exn : Type :=
  | HTTPError (kind : HTTPErrorKind) (status : Z) (response_data : Decoded)
              (route : Route)
  | Python (e : PyExn).

Inductive Outcome : Type :=
  | Returned (result : option Decoded)
  | Raised (e : Exn).

(** [_raise_exception] *)
Definition _raise_exception (status : Z) (route : Route) (result : Decoded)
  : Exn :=
  if (status =? 403)%Z then HTTPError Forbidden status result route
  else if (status =? 404)%Z then HTTPError NotFound status result route
  else if (500 <=? status)%Z then HTTPError DiscordError status result route
  else HTTPError HTTPException status result route.

(** The end of an attempt: [if not 300 > response.status >= 200: raise]
    and [return result]. *)
Definition status_check (status : Z) (route : Route) (result : Decoded)
  : Outcome :=
  if (status <? 300)%Z && (200 <=? status)%Z then Returned (Some result)
  else Raised (_raise_exception status route result).

(** The [if]/[elif] chain of [request] after [ingest_ratelimit]. *)
Inductive Verdict : Type :=
  | GlobalLimit (d : PyFloat)      (* await self.global_lock.lock(d); continue *)
  | DeferUnlock (reset_after : option PyFloat)
                                   (* await lock.defer_unlock(..); continue *)
  | BlindDeferUnlock               (* await lock.blind_defer_unlock() *)
  | ServerRetry                    (* await asyncio.sleep(..); continue *)
  | NoRow                          (* no branch taken *)
  | Fails (e : PyExn).

Definition rate_limited_message : string :=
  "The resource is being rate limited.".

Definition is_server_issue (status : Z) : bool :=
  (status =? 500)%Z || (status =? 502)%Z || (status =? 504)%Z.

Definition interpret (status : Z) (result : Decoded) (lock : BucketLock)
  : Verdict :=
  if (status =? 429)%Z then
    match result with
    | DOther _ => Fails AttributeError
    | DDict fields =>
        if jvalue_truthy (default (JBool false) (fields !! "global")) then
          match retry_after_of fields with
          | inl d => GlobalLimit d
          | inr e => Fails e
          end
        else if
          match fields !! "message" with
          | Some (JString m) => String.eqb m rate_limited_message
          | _ => false
          end
        then
          match retry_after_of fields with
          | inl d => DeferUnlock (Some d)
          | inr e => Fails e
          end
        else DeferUnlock None
    end
  else if (remaining lock =? 0)%Z then BlindDeferUnlock
  else if is_server_issue status then ServerRetry
  else NoRow.

(** ** The event loop: tasks running [request]

    A task is a call of [request]; an event runs one task from one [await]
    to the next, or is a timer callback, the clock, or the collection of a
    weak dictionary entry.
    - Getting a lock is an event of its own, enabled while the lock is free;
      a call that finds its lock free gets it by the event right after the
      call.  Waiting tasks may get a lock in any order ([asyncio.Lock] wakes
      them first come, first served), so the runs of the loop are among the
      runs here.
    - What the world decides comes with the event: the response, whether
      [cooldown_system.acquire_token()] hands out a token and what
      [get_cooldown_time()] says, whether the session is closed, how
      [login] ends (its own request is another call), and which task is
      cancelled ([Cancel]: the [CancelledError] is raised at the await
      where the task is suspended).
    - Leaving [async with session.request(..)] is taken not to suspend, and
      [models.open_file] to return. *)
Definition task_id : Type := nat.
Definition lock_id : Type := nat.

(** Where a task running [request] is suspended. *)
Inductive PC : Type :=
  | AcquireBucket                 (* async with lock: await self._lock.acquire() *)
  | AcquireGlobal                 (* rate_limit: async with self._lock *)
  | ThrottleSleep (since : Q) (d : PyFloat)
                                  (* rate_limit: sleep(get_cooldown_time()) *)
  | LoggingIn                     (* await self.login(token) *)
  | Sending                       (* session.request(..), response_decode *)
  | AcquireHard (d : PyFloat)     (* GlobalLock.lock: await self._lock.acquire() *)
  | HardSleep (since : Q) (d : PyFloat)
                                  (* GlobalLock.lock: await asyncio.sleep(delta) *)
  | DeferSleep (since : Q) (d : PyFloat)
                                  (* defer_unlock: await asyncio.sleep(..) *)
  | RetrySleep (since : Q) (d : PyFloat)
                                  (* await asyncio.sleep(1 + attempt * 2) *)
  | Finished (r : Outcome)
  | Cancelled (at_ : PC).         (* ended by the CancelledError raised at
                                     that await *)

Record Task : Type := mkTask {
  route : Route;
  payload : option Payload;
  files : Files;
  kwargs : Kwargs;
  lock : lock_id;                 (* lock = self.get_ratelimit(route) *)
  attempt : nat;
  pc : PC
}.

(** [loop.call_later(self.delta, self.unlock)] *)
Record Timer : Type := mkTimer {
  tm_lock : lock_id;
  tm_since : Q;
  tm_delay : PyFloat
}.

(** The client, the BucketLock objects by identity, and the loop. *)
Record State : Type := mkState {
  token : option string;
  session : bool;                 (* is __session a ClientSession (not None) *)
  user_agent : string;
  global_lock : bool;             (* GlobalLock._lock: is it acquired *)
  _endpoints : gmap string string;
  ratelimit_locks : gmap string lock_id;   (* WeakValueDictionary *)
  heap : gmap lock_id BucketLock;
  next_lock : lock_id;
  tasks : gmap task_id Task;
  timers : list Timer;
  now : Q
}.

(** [HTTPClient.__init__]: no session and no token yet. *)
Definition init (user_agent : string) : State :=
  {| token := None; session := false; user_agent := user_agent;
     global_lock := false;
     _endpoints := ∅; ratelimit_locks := ∅; heap := ∅; next_lock := 0;
     tasks := ∅; timers := []; now := 0 |}.

(** The head of [login]: [self.__session = ClientSession(..)] and
    [self.token = token]. *)
Definition login_start (tk : string) (s : State) : State :=
  {| token := Some tk; session := true; user_agent := user_agent s;
     global_lock := global_lock s;
     _endpoints := _endpoints s; ratelimit_locks := ratelimit_locks s;
     heap := heap s; next_lock := next_lock s; tasks := tasks s;
     timers := timers s; now := now s |}.

Definition _max_attempts : nat := 3.

Definition set_global (b : bool) (s : State) : State :=
  {| token := token s; session := session s;
     user_agent := user_agent s; global_lock := b;
     _endpoints := _endpoints s; ratelimit_locks := ratelimit_locks s;
     heap := heap s; next_lock := next_lock s; tasks := tasks s;
     timers := timers s; now := now s |}.

Definition set_registry (e : gmap string string) (r : gmap string lock_id)
    (s : State) : State :=
  {| token := token s; session := session s;
     user_agent := user_agent s;
     global_lock := global_lock s;
     _endpoints := e; ratelimit_locks := r;
     heap := heap s; next_lock := next_lock s; tasks := tasks s;
     timers := timers s; now := now s |}.

Definition set_heap (h : gmap lock_id BucketLock) (n : lock_id) (s : State)
  : State :=
  {| token := token s; session := session s;
     user_agent := user_agent s;
     global_lock := global_lock s;
     _endpoints := _endpoints s; ratelimit_locks := ratelimit_locks s;
     heap := h; next_lock := n; tasks := tasks s;
     timers := timers s; now := now s |}.

Definition set_tasks (ts : gmap task_id Task) (s : State) : State :=
  {| token := token s; session := session s;
     user_agent := user_agent s;
     global_lock := global_lock s;
     _endpoints := _endpoints s; ratelimit_locks := ratelimit_locks s;
     heap := heap s; next_lock := next_lock s; tasks := ts;
     timers := timers s; now := now s |}.

Definition set_timers (tm : list Timer) (s : State) : State :=
  {| token := token s; session := session s;
     user_agent := user_agent s;
     global_lock := global_lock s;
     _endpoints := _endpoints s; ratelimit_locks := ratelimit_locks s;
     heap := heap s; next_lock := next_lock s; tasks := tasks s;
     timers := tm; now := now s |}.

Definition set_now (q : Q) (s : State) : State :=
  {| token := token s; session := session s;
     user_agent := user_agent s;
     global_lock := global_lock s;
     _endpoints := _endpoints s; ratelimit_locks := ratelimit_locks s;
     heap := heap s; next_lock := next_lock s; tasks := tasks s;
     timers := timers s; now := q |}.

Definition set_lock (l : lock_id) (L : BucketLock) (s : State) : State :=
  set_heap (<[l := L]> (heap s)) (next_lock s) s.

Definition set_pc (p : PC) (T : Task) : Task :=
  {| route := route T; payload := payload T; files := files T;
     kwargs := kwargs T; lock := lock T; attempt := attempt T; pc := p |}.

Definition set_task (t : task_id) (T : Task) (s : State) : State :=
  set_tasks (<[t := T]> (tasks s)) s.

(** Has a delay [d] that started at [since] run out at [now]?  A delay
    that is not finite and positive is not waited for, except the positive
    infinity, which never ends. *)
Definition elapsed (since : Q) (d : PyFloat) (now : Q) : bool :=
  match d with
  | FFin q => Qle_bool (since + q) now
  | FInf negative => negative
  | FNan => true
  end.

(** [1 + attempt * 2] *)
Definition backoff (attempt : nat) : PyFloat :=
  float_of_int (1 + Z.of_nat attempt * 2).

(** [get_ratelimit] *)
Definition get_ratelimit (route : Route) (s : State) : lock_id * State :=
  let cached :=
    match _endpoints s !! rl_bucket route with
    | Some bucket_hash =>
        if str_truthy bucket_hash then ratelimit_locks s !! bucket_hash
        else None
    | None => None
    end in
  match cached with
  | Some l => (l, s)
  | None =>
      (next_lock s,
       set_heap (<[next_lock s := new_BucketLock]> (heap s))
                (S (next_lock s)) s)
  end.

(** [ingest_ratelimit]; the lock object [l] is written back by the caller. *)
Definition ingest_ratelimit (route : Route) (header : Header) (l : lock_id)
    (bucket_lock : BucketLock) (s : State) : State * BucketLock * option PyExn :=
  let '(bucket_lock, e) := ingest_ratelimit_header header bucket_lock in
  match e with
  | Some _ => (s, bucket_lock, e)
  | None =>
      if opt_truthy (bucket_hash bucket_lock) then
        let h := default EmptyString (bucket_hash bucket_lock) in
        (set_registry (<[rl_bucket route := h]> (_endpoints s))
                      (<[h := l]> (ratelimit_locks s)) s,
         bucket_lock, None)
      else (s, bucket_lock, None)
  end.

(** Leaving [async with lock] with the outcome [r] of the call. *)
Definition finish_with (r : Outcome) (t : task_id) (T : Task)
    (L : BucketLock) (s : State) : State :=
  set_lock (lock T) (aexit L) (set_task t (set_pc (Finished r) T) s).

(** [continue]: leave [async with lock], then the next round of
    [for attempt in range(self._max_attempts)]; after the last round the
    function ends and returns [None]. *)
Definition continue (t : task_id) (T : Task) (L : BucketLock) (s : State)
  : State :=
  if (S (attempt T) <? _max_attempts)%nat then
    set_lock (lock T) (aexit L)
      (set_task t
         {| route := route T; payload := payload T; files := files T;
            kwargs := kwargs T; lock := lock T; attempt := S (attempt T);
            pc := AcquireBucket |} s)
  else finish_with (Returned None) t T L s.

(** An exception raised inside [try]: the [except OSError] handler. *)
Definition raise_in_try (e : Exn) (t : task_id) (T : Task) (L : BucketLock)
    (s : State) : State :=
  match e with
  | Python (OSError errno) =>
      if (attempt T <? _max_attempts - 1)%nat
         && ((errno =? 54)%Z || (errno =? 10054)%Z)
      then set_lock (lock T) L
             (set_task t (set_pc (RetrySleep (now s) (backoff (attempt T))) T) s)
      else finish_with (Raised e) t T L s
  | _ => finish_with (Raised e) t T L s
  end.

(** After [rate_limit]: [self.__session.closed] raises [AttributeError]
    when there is no session; log in when the session is closed, else
    process the payload and start the transfer. *)
Definition send (t : task_id) (T : Task) (s : State) : State :=
  set_task t
    {| route := route T; payload := payload T; files := files T;
       kwargs := set_body (_process_payload (payload T) (files T)) (kwargs T);
       lock := lock T; attempt := attempt T; pc := Sending |} s.

Definition after_throttle (closed : bool) (t : task_id) (T : Task)
    (L : BucketLock) (s : State) : State :=
  if negb (session s) then raise_in_try (Python AttributeError) t T L s
  else if closed then set_task t (set_pc LoggingIn T) s
  else send t T s.

(** A [CancelledError] at the await where the task is suspended, inside
    [async with lock]: no [except] clause of [request] catches it, and
    [__aexit__] runs. *)
Definition cancel_in (t : task_id) (T : Task) (L : BucketLock) (s : State)
  : State :=
  set_lock (lock T) (aexit L) (set_task t (set_pc (Cancelled (pc T)) T) s).

(** [blind_defer_unlock] *)
Definition blind_defer_unlock (l : lock_id) (self : BucketLock) (s : State)
  : BucketLock * State :=
  (set_unlock_on_exit false self,
   set_timers (timers s ++ [mkTimer l (now s) (delta self)])%list s).

(** [defer_unlock] up to its sleep: the flag and [reset_after or
    self.delta]; the [unlock] follows when the task wakes. *)
Definition defer_unlock (reset_after : option PyFloat) (self : BucketLock)
  : BucketLock * PyFloat :=
  (set_unlock_on_exit false self,
   match reset_after with
   | Some r => if float_truthy r then r else delta self
   | None => delta self
   end).

(** The response has arrived and is decoded. *)
Definition on_response (status : Z) (header : Header) (result : Decoded)
    (t : task_id) (T : Task) (L : BucketLock) (s : State) : State :=
  let '(s, L, e) := ingest_ratelimit (route T) header (lock T) L s in
  match e with
  | Some e => raise_in_try (Python e) t T L s
  | None =>
      match interpret status result L with
      | Fails e => raise_in_try (Python e) t T L s
      | GlobalLimit d =>
          set_lock (lock T) L (set_task t (set_pc (AcquireHard d) T) s)
      | DeferUnlock reset_after =>
          let '(L, d) := defer_unlock reset_after L in
          set_lock (lock T) L
            (set_task t (set_pc (DeferSleep (now s) d) T) s)
      | BlindDeferUnlock =>
          let '(L, s) := blind_defer_unlock (lock T) L s in
          finish_with (status_check status (route T) result) t T L s
      | ServerRetry =>
          set_lock (lock T) L
            (set_task t (set_pc (RetrySleep (now s) (backoff (attempt T))) T) s)
      | NoRow => finish_with (status_check status (route T) result) t T L s
      end
  end.

(** Is the lock object [l] still referenced by a running call or a timer? *)
Definition running (T : Task) : bool :=
  match pc T with Finished _ | Cancelled _ => false | _ => true end.

Definition referenced (l : lock_id) (s : State) : bool :=
  existsb (λ tT, running (snd tT) && (lock (snd tT) =? l)%nat)
          (map_to_list (tasks s))
  || existsb (λ tm, (tm_lock tm =? l)%nat) (timers s).

(** What the loop and the world do. *)
Inductive Event : Type :=
  | Call (t : task_id) (route : Route) (payload : option Payload)
         (files : Files) (reason : option string) (params : option PyObj)
         (extra : Kwargs)               (* request(route, payload, files, ..) *)
  | AcquiredBucket (t : task_id)        (* BucketLock.__aenter__ returns *)
  | AcquiredGlobal (t : task_id) (has_token : bool) (cooldown : PyFloat)
                   (closed : bool)      (* rate_limit gets GlobalLock._lock *)
  | ThrottleWoke (t : task_id) (has_token : bool) (cooldown : PyFloat)
                 (closed : bool)        (* rate_limit: the sleep is over *)
  | LoginReturned (t : task_id)
  | LoginRaised (t : task_id) (e : Exn)
  | Response (t : task_id) (status : Z) (header : Header) (result : Decoded)
  | SendRaised (t : task_id) (e : PyExn)
  | AcquiredHard (t : task_id)          (* GlobalLock.lock gets GlobalLock._lock *)
  | Woke (t : task_id)                  (* a sleep of lock, defer_unlock or a
                                           retry is over *)
  | TimerFired (i : nat)                (* the call_later callback runs *)
  | Advance (d : Q)                     (* the clock moves on by d *)
  | Collect (bucket_hash : string)      (* a weak entry of ratelimit_locks
                                           goes away *)
  | Login (token : string)              (* login(token) is entered *)
  | Cancel (t : task_id).               (* the task of the call is cancelled
                                           where it is suspended *)

Definition with_task (s : State) (t : task_id)
    (k : Task → BucketLock → option State) : option State :=
  match tasks s !! t with
  | Some T =>
      match heap s !! lock T with
      | Some L => k T L
      | None => None
      end
  | None => None
  end.

(** One task runs from one suspension point to the next.  [None]: the event
    cannot happen in this state. *)
Definition step (s : State) (e : Event) : option State :=
  match e with
  | Call t route payload files reason params extra =>
      match tasks s !! t with
      | Some _ => None
      | None =>
          let kw := assemble (user_agent s) (token s) reason payload files
                             params extra in
          let '(l, s) := get_ratelimit route s in
          Some (set_task t (mkTask route payload files kw l 0 AcquireBucket) s)
      end
  | AcquiredBucket t =>
      with_task s t (λ T L,
        match pc T with
        | AcquireBucket =>
            if _lock L then None
            else Some (set_lock (lock T) (set_locked true L)
                         (set_task t (set_pc AcquireGlobal T) s))
        | _ => None
        end)
  | AcquiredGlobal t has_token cooldown closed =>
      with_task s t (λ T L,
        match pc T with
        | AcquireGlobal =>
            if global_lock s then None
            else if has_token then Some (after_throttle closed t T L s)
            else Some (set_global true
                         (set_task t (set_pc (ThrottleSleep (now s) cooldown) T) s))
        | _ => None
        end)
  | ThrottleWoke t has_token cooldown closed =>
      with_task s t (λ T L,
        match pc T with
        | ThrottleSleep since d =>
            if negb (elapsed since d (now s)) then None
            else if negb has_token then
              Some (set_task t (set_pc (ThrottleSleep (now s) cooldown) T) s)
            else if global_lock s then
              Some (after_throttle closed t T L (set_global false s))
            else Some (raise_in_try (Python RuntimeError) t T L s)
        | _ => None
        end)
  | LoginReturned t =>
      with_task s t (λ T L,
        match pc T with
        | LoggingIn => Some (send t T s)
        | _ => None
        end)
  | LoginRaised t e =>
      with_task s t (λ T L,
        match pc T with
        | LoggingIn => Some (raise_in_try e t T L s)
        | _ => None
        end)
  | Response t status header result =>
      with_task s t (λ T L,
        match pc T with
        | Sending => Some (on_response status header result t T L s)
        | _ => None
        end)
  | SendRaised t e =>
      with_task s t (λ T L,
        match pc T with
        | Sending => Some (raise_in_try (Python e) t T L s)
        | _ => None
        end)
  | AcquiredHard t =>
      with_task s t (λ T L,
        match pc T with
        | AcquireHard d =>
            if global_lock s then None
            else Some (set_global true
                         (set_task t (set_pc (HardSleep (now s) d) T) s))
        | _ => None
        end)
  | Woke t =>
      with_task s t (λ T L,
        match pc T with
        | HardSleep since d =>
            if negb (elapsed since d (now s)) then None
            else if global_lock s then Some (continue t T L (set_global false s))
            else Some (raise_in_try (Python RuntimeError) t T L s)
        | DeferSleep since d =>
            if negb (elapsed since d (now s)) then None
            else
              match unlock L with
              | inl L => Some (continue t T L s)
              | inr e => Some (raise_in_try (Python e) t T L s)
              end
        | RetrySleep since d =>
            if negb (elapsed since d (now s)) then None
            else Some (continue t T L s)
        | _ => None
        end)
  | TimerFired i =>
      match timers s !! i with
      | Some tm =>
          if negb (elapsed (tm_since tm) (tm_delay tm) (now s)) then None
          else
            let s := set_timers (delete i (timers s)) s in
            match heap s !! tm_lock tm with
            | Some L =>
                match unlock L with
                | inl L => Some (set_lock (tm_lock tm) L s)
                | inr _ => Some s
                end
            | None => None
            end
      | None => None
      end
  | Advance d =>
      if Qle_bool 0 d then Some (set_now (now s + d)%Q s) else None
  | Collect h =>
      match ratelimit_locks s !! h with
      | Some l =>
          if referenced l s then None
          else Some (set_registry (_endpoints s) (delete h (ratelimit_locks s)) s)
      | None => None
      end
  | Login tk => Some (login_start tk s)
  | Cancel t =>
      with_task s t (λ T L,
        match pc T with
        | Finished _ | Cancelled _ => None
        | AcquireBucket =>
            (* __aenter__ has not returned: no __aexit__ *)
            Some (set_task t (set_pc (Cancelled (pc T)) T) s)
        | ThrottleSleep _ _ =>
            (* async with self._lock of rate_limit releases the lock *)
            if global_lock s then Some (cancel_in t T L (set_global false s))
            else Some (raise_in_try (Python RuntimeError) t T L s)
        | _ =>
            (* in GlobalLock.lock and in defer_unlock nothing is released *)
            Some (cancel_in t T L s)
        end)
  end.

Fixpoint run (s : State) (es : list Event) : option State :=
  match es with
  | [] => Some s
  | e :: es =>
      match step s e with
      | Some s => run s es
      | None => None
      end
  end.

Definition reachable (s : State) : Prop :=
  ∃ user_agent es, run (init user_agent) es = Some s.

(** [login]: how it ends, given how its [request] for [/users/@me] ends.
    [except HTTPException] catches the class itself and its subclasses;
    which of the other error classes are subclasses is declared in
    [naff.client.errors] and taken as [subclass]. *)
Inductive LoginResult : Type :=
  | LoginReturns (result : option Decoded)
  | LoginError (cause : Exn)
  | LoginRaises (e : Exn).

Definition is_HTTPException (subclass : HTTPErrorKind → bool)
    (kind : HTTPErrorKind) : bool :=
  match kind with
  | HTTPException => true
  | _ => subclass kind
  end.

Definition login (subclass : HTTPErrorKind → bool) (r : Outcome)
  : LoginResult :=
  match r with
  | Returned result => LoginReturns result
  | Raised (HTTPError kind status response_data route as e) =>
      if is_HTTPException subclass kind then
        if (status =? 401)%Z then LoginError e else LoginRaises e
      else LoginRaises e
  | Raised e => LoginRaises e
  end.

End Http.

(** ** gateway/state.py *)
Module Gateway.

(** *** [_ws_connect] *)

(** What the gateway client raises: [WebSocketClosed], another [Exception],
    or something that is not an [Exception] (a cancellation). *)
Inductive GwExn : Type :=
  | WebSocketClosed (code : Z)
  | OtherException (name : string)
  | NotAnException (name : string).

Inductive Completion : Type :=
  | Normal
  | Throws (e : GwExn).

Inductive LifecycleEvent : Type :=
  | Disconnect
  | ShardDisconnect (shard_id : Z).

Inductive WsEffect : Type :=
  | LogInfo
  | Connect (shard_id total_shards : Z)   (* GatewayClient(..).__aenter__ *)
  | RunGateway                            (* await self.gateway.run() *)
  | ClearShardReady                       (* self._shard_ready.clear() *)
  | Dispatch (ev : LifecycleEvent)        (* self.client.dispatch(ev) *)
  | LogError.

Inductive WsResult : Type :=
  | WsReturns
  | WsRaisesNaffException (message : string)
  | WsRaises (e : GwExn).

(** The fields of [ConnectionState] and of its client that [_ws_connect]
    reads; [intents] is the text of [self.intents]. *)
Record ConnectionState : Type := mkConnectionState {
  shard_id : Z;
  total_shards : Z;
  intents : string
}.

Definition too_large : string :=
  "Your bot is too large, you must use shards".

Definition invalid_intents (intents : string) : string :=
  "Invalid Intents have been passed: " +:+ intents.

Definition privileged_intents : string :=
  "You have requested privileged intents that have not been enabled or approved. Check the developer dashboard".

(** The [finally] block under [async with]. *)
Definition finally_effects (self : ConnectionState) : list WsEffect :=
  [ClearShardReady;
   Dispatch (if (total_shards self =? 1)%Z then Disconnect
             else ShardDisconnect (shard_id self))].

(** The two [except] clauses. *)
Definition handle (self : ConnectionState) (e : GwExn)
  : list WsEffect * WsResult :=
  match e with
  | WebSocketClosed code =>
      if (code =? 4011)%Z then ([], WsRaisesNaffException too_large)
      else if (code =? 4013)%Z then
        ([], WsRaisesNaffException (invalid_intents (intents self)))
      else if (code =? 4014)%Z then
        ([], WsRaisesNaffException privileged_intents)
      else ([], WsRaises e)
  | OtherException _ => ([Dispatch Disconnect; LogError], WsReturns)
  | NotAnException _ => ([], WsRaises e)
  end.

(** [_ws_connect], given how entering the gateway client and how
    [gateway.run()] end.  Leaving the client is taken to let an exception
    pass. *)
Definition _ws_connect (self : ConnectionState) (enter run : Completion)
  : list WsEffect * WsResult :=
  let start := [LogInfo; Connect (shard_id self) (total_shards self)] in
  match enter with
  | Throws e =>
      let '(eff, r) := handle self e in ((start ++ eff)%list, r)
  | Normal =>
      let body := (start ++ [RunGateway] ++ finally_effects self)%list in
      match run with
      | Normal => (body, WsReturns)
      | Throws e =>
          let '(eff, r) := handle self e in ((body ++ eff)%list, r)
      end
  end.

Definition is_connect (e : WsEffect) : bool :=
  match e with Connect _ _ => true | _ => false end.

(** How often a gateway connection is opened. *)
Definition connects (effects : list WsEffect) : nat :=
  length (List.filter is_connect effects).

(** [w] occurs in [s]. *)
Definition mentions (w s : string) : Prop :=
  ∃ pre post, s = pre +:+ w +:+ post.

(** *** [change_presence] *)

(** [ActivityType]: the members the code names, and any other member. *)
Inductive ActivityType : Type :=
  | GAME
  | STREAMING
  | LISTENING
  | WATCHING
  | COMPETING
  | OtherType (name : string).

(** The fields of [Activity] that the code reads. *)
Record Activity : Type := mkActivity {
  act_name : string;
  act_type : ActivityType;
  act_url : option string
}.

(** [Status] and [Activity.create] are declared in [naff.models.discord]:
    the member names of [Status], the truth value of a member, the member
    [ONLINE] and [Activity.create] are taken as an interface; so is
    [str.upper()], which follows the case mapping of Unicode and is
    [upper] on ASCII text. *)
Class Models (Status : Type) : Type := {
  Status_member : string → option Status;   (* Status[name], None: KeyError *)
  Status_truthy : Status → bool;
  ONLINE : Status;
  Activity_create : string → Activity;      (* Activity.create(name=..) *)
  str_upper : string → string;              (* s.upper() *)
  str_upper_ascii : ∀ s, is_ascii s = true → str_upper s = upper s
}.

(** The [status] argument. *)
Inductive StatusArg (Status : Type) : Type :=
  | StatusNone
  | StatusStr (s : string)
  | StatusValue (v : Status).
Arguments StatusNone {Status}.
Arguments StatusStr {Status} s.
Arguments StatusValue {Status} v.

(** The [activity] argument: [MISSING], [None], an [Activity], or anything
    else, given by its [str]. *)
Inductive ActivityArg : Type :=
  | ActivityMissing
  | ActivityNone
  | ActivityObject (a : Activity)
  | ActivityOther (text : string).

(** The value kept in [client._activity]. *)
Inductive ActivityValue : Type :=
  | NoActivity                 (* None *)
  | EmptyList                  (* [] *)
  | TheActivity (a : Activity).

Record Client (Status : Type) : Type := mkClient {
  _status : option Status;
  _activity : ActivityValue
}.
Arguments mkClient {Status} _ _.
Arguments _status {Status} c.
Arguments _activity {Status} c.

Inductive PresenceEffect (Status : Type) : Type :=
  | Warning (message : string)
  | GatewayChangePresence (activity : option Activity) (status : Status).
Arguments Warning {Status} message.
Arguments GatewayChangePresence {Status} activity status.

Definition streaming_warning : string :=
  "Streaming activity cannot be set without a valid URL attribute".

Definition type_warning (name : string) : string :=
  "Activity type `" +:+ name +:+ "` may not be enabled for bots".

Definition default_warning : string :=
  "Status must be set to a valid status type, defaulting to online".

(** The warnings of the activity check. *)
Definition check_activity (a : Activity) : list string :=
  match act_type a with
  | STREAMING =>
      if Http.opt_truthy (act_url a) then [] else [streaming_warning]
  | GAME | LISTENING | WATCHING | COMPETING => []
  | OtherType name => [type_warning name]
  end.

Section ChangePresence.
Context {Status : Type} `{Models Status}.

(** The first [if]: the activity to set and the warnings logged. *)
Definition resolve_activity (client : Client Status) (activity : ActivityArg)
  : ActivityValue * list string :=
  match activity with
  | ActivityMissing => (_activity client, [])
  | ActivityNone => (EmptyList, [])
  | ActivityObject a => (TheActivity a, check_activity a)
  | ActivityOther text =>
      let a := Activity_create text in (TheActivity a, check_activity a)
  end.

(** The [else] of the second [if]: the client's status, or [ONLINE] with
    a warning. *)
Definition fallback_status (client : Client Status) : Status * list string :=
  match _status client with
  | Some v =>
      if Status_truthy v then (v, []) else (ONLINE, [default_warning])
  | None => (ONLINE, [default_warning])
  end.

(** The second [if]: the status to set, or [ValueError]. *)
Definition resolve_status (client : Client Status) (status : StatusArg Status)
  : (Status * list string) + PyExn :=
  match status with
  | StatusValue v =>
      if Status_truthy v then inl (v, []) else inl (fallback_status client)
  | StatusStr s =>
      if str_truthy s then
        match Status_member (str_upper s) with
        | Some v => inl (v, [])
        | None => inr ValueError
        end
      else inl (fallback_status client)
  | StatusNone => inl (fallback_status client)
  end.

(** [change_presence]: the client afterwards, what was logged and sent, and
    the exception if one is raised. *)
Definition change_presence (client : Client Status)
    (status : StatusArg Status) (activity : ActivityArg)
  : Client Status * list (PresenceEffect Status) * option PyExn :=
  let '(act, warnings) := resolve_activity client activity in
  let log := Warning <$> warnings in
  match resolve_status client status with
  | inr e => (client, log, Some e)
  | inl (st, warnings') =>
      let log := (log ++ (Warning <$> warnings'))%list in
      let sent :=
        match act with
        | TheActivity a => Some a
        | _ => None
        end in
      (mkClient (Some st) act,
       (log ++ [GatewayChangePresence sent st])%list, None)
  end.

End ChangePresence.

Definition forwards {Status : Type} (e : PresenceEffect Status) : bool :=
  match e with GatewayChangePresence _ _ => true | Warning _ => false end.

(** The [presence] property: the stored status and the list of the stored
    activity, empty when there is none. *)
Definition presence {Status : Type} (client : Client Status)
  : option Status * list Activity :=
  (_status client,
   match _activity client with
   | TheActivity a => [a]
   | _ => []
   end).

End Gateway.

Import Http Gateway.

(** ** Properties stated about the code *)








(** The gateway client ends with [WebSocketClosed(code)], while it is
    entered or while it runs. *)
Definition closes_with (code : Z) (enter run : Completion) : Prop :=
  enter = Throws (WebSocketClosed code)
  ∨ (enter = Normal ∧ run = Throws (WebSocketClosed code)).

(** The files of a call as a list. *)
Definition files_list (files : Files) : list Upload :=
  match files with
  | FilesNone => []
  | FilesOne file => [file]
  | FilesList l => l
  end.

(** A two-member status enum, to run [change_presence] on. *)
Inductive SampleStatus : Type :=
  | SampleOnline
  | SampleIdle.

#[export] Instance sample_models : Models SampleStatus := {|
  Status_member name :=
    if String.eqb name "ONLINE" then Some SampleOnline
    else if String.eqb name "IDLE" then Some SampleIdle
    else None;
  Status_truthy _ := true;
  ONLINE := SampleOnline;
  Activity_create text := mkActivity text GAME None;
  str_upper := upper;
  str_upper_ascii _ _ := eq_refl
|}.

(** A status argument that [change_presence] accepts. *)
Definition status_accepted {Status : Type} `{Models Status}
    (status : StatusArg Status) : Prop :=
  match status with
  | StatusStr s => s = EmptyString ∨ is_Some (Status_member (str_upper s))
  | _ => True
  end.

(** Sample calls, to run the dispatcher on. *)
Definition no_kwargs : Kwargs := mkKwargs [] None None None.

Definition messages_route : Route :=
  mkRoute "POST" "https://discord.com/api/v10/channels/1/messages"
          "/channels/{channel_id}/messages" "1::/channels/{channel_id}/messages".

Definition pins_route : Route :=
  mkRoute "GET" "https://discord.com/api/v10/channels/1/pins"
          "/channels/{channel_id}/pins" "1::/channels/{channel_id}/pins".

(** A client that has logged in. *)
Definition client0 : State := login_start "token" (init "DiscordBot").

(** A call with the defaults for [reason], [params] and [**kwargs]. *)
Definition call (t : task_id) (route : Route) (payload : option Payload)
    (files : Files) : Event :=
  Call t route payload files None None no_kwargs.

(** The task gets its bucket lock, passes the global throttle with a token
    at hand and an open session, and starts the transfer. *)
Definition start (t : task_id) : list Event :=
  [AcquiredBucket t; AcquiredGlobal t true (FFin 0) false].

(** Response bodies and headers of the sample runs. *)
Definition error_page : Decoded := DOther (Obj "<html>upstream error</html>").

Definition global_limit_body : Decoded :=
  DDict (<["global" := JBool true]>
         (<["retry_after" := JNumber (FFin (5 # 2))]>
          (<["message" := JString "You are being rate limited."]> ∅))).

Definition exhausted_header : Header :=
  [("x-ratelimit-bucket", "abcd1234"); ("x-ratelimit-limit", "5");
   ("x-ratelimit-remaining", "0"); ("x-ratelimit-reset-after", "1.0")].

(** The task is inside [async with lock] and has not given the bucket
    lock up. *)
Definition holds_bucket (p : PC) : bool :=
  match p with
  | AcquireBucket | Finished _ | Cancelled _ => false
  | _ => true
  end.

(** The task keeps [GlobalLock._lock] while it sleeps. *)
Definition holds_global (p : PC) : bool :=
  match p with
  | ThrottleSleep _ _ | HardSleep _ _ => true
  | _ => false
  end.

(** The task has passed the global throttle of its attempt and has not yet
    got the response. *)
Definition past_throttle (p : PC) : bool :=
  match p with
  | LoggingIn | Sending => true
  | _ => false
  end.

(** The task sleeps: since when and for how long. *)
Definition sleeping (p : PC) : option (Q * PyFloat) :=
  match p with
  | ThrottleSleep since d | HardSleep since d
  | DeferSleep since d | RetrySleep since d => Some (since, d)
  | _ => None
  end.

(** The task sleeps in [defer_unlock]. *)
Definition in_defer_unlock (p : PC) : bool :=
  match p with DeferSleep _ _ => true | _ => false end.

(** A task cancelled in the sleep of [defer_unlock] has left its bucket
    lock acquired: [unlock] was skipped and [__aexit__] found
    [unlock_on_exit] down.  A task cancelled in the sleep of
    [GlobalLock.lock] has left the global lock acquired: [release] was
    skipped. *)
Definition abandons_bucket (p : PC) : bool :=
  match p with Cancelled (DeferSleep _ _) => true | _ => false end.

Definition abandons_global (p : PC) : bool :=
  match p with Cancelled (HardSleep _ _) => true | _ => false end.

(** The owner of a lock: the task that holds it, or the cancelled task
    that left it acquired. *)
Definition owns_bucket (p : PC) : bool := holds_bucket p || abandons_bucket p.

Definition owns_global (p : PC) : bool := holds_global p || abandons_global p.

(** Who owns which lock: a bucket lock belongs to at most one task or to
    one pending timer, and is then acquired; the global lock belongs to
    at most one task, and is then acquired. *)
Record Invariant (g : bool) (r : gmap string lock_id)
    (h : gmap lock_id BucketLock) (n : lock_id) (ts : gmap task_id Task)
    (tms : list Timer) : Prop := mkInvariant {
  inv_registry : ∀ k l, r !! k = Some l → l < n;
  inv_task_lock : ∀ t T, ts !! t = Some T → lock T < n;
  inv_timer_lock : ∀ i tm, tms !! i = Some tm → tm_lock tm < n;
  inv_heap : ∀ l, l < n → is_Some (h !! l);
  inv_one_holder : ∀ t1 t2 T1 T2,
    ts !! t1 = Some T1 → ts !! t2 = Some T2 →
    owns_bucket (pc T1) = true → owns_bucket (pc T2) = true →
    lock T1 = lock T2 → t1 = t2;
  inv_holder_no_timer : ∀ t T i tm,
    ts !! t = Some T → owns_bucket (pc T) = true →
    tms !! i = Some tm → tm_lock tm ≠ lock T;
  inv_one_timer : ∀ i j tmi tmj,
    tms !! i = Some tmi → tms !! j = Some tmj →
    tm_lock tmi = tm_lock tmj → i = j;
  inv_holder_locked : ∀ t T L,
    ts !! t = Some T → owns_bucket (pc T) = true →
    h !! lock T = Some L → _lock L = true;
  inv_timer_locked : ∀ i tm L,
    tms !! i = Some tm → h !! tm_lock tm = Some L → _lock L = true;
  inv_defer_flag : ∀ t T L,
    ts !! t = Some T → in_defer_unlock (pc T) = true →
    h !! lock T = Some L → unlock_on_exit L = false;
  inv_one_global : ∀ t1 t2 T1 T2,
    ts !! t1 = Some T1 → ts !! t2 = Some T2 →
    owns_global (pc T1) = true → owns_global (pc T2) = true → t1 = t2;
  inv_global_locked : ∀ t T,
    ts !! t = Some T → owns_global (pc T) = true → g = true
}.

Definition Inv (s : State) : Prop :=
  Invariant (global_lock s) (ratelimit_locks s) (heap s) (next_lock s)
            (tasks s) (timers s).

(** A response header that names the bucket and nothing else. *)
Definition shared_hash_header : Header := [("x-ratelimit-bucket", "abcd1234")].

(** Two routes of one bucket, each first used while its hash is unknown,
    and two later calls of the first route. *)
Definition two_locks_trace : list Event :=
  (call 0 messages_route None FilesNone :: start 0)
  ++ (call 1 pins_route None FilesNone :: start 1)
  ++ [Response 0 500 shared_hash_header error_page;
      call 2 messages_route None FilesNone;
      Response 1 500 shared_hash_header error_page;
      call 3 messages_route None FilesNone;
      Advance 1;
      Woke 0; AcquiredBucket 2; AcquiredGlobal 2 true (FFin 0) false;
      Woke 1; AcquiredBucket 3; AcquiredGlobal 3 true (FFin 0) false].

(** One route, two calls: the second call waits for the lock of the first. *)
Definition shared_lock_trace : list Event :=
  (call 0 messages_route None FilesNone :: start 0)
  ++ [Response 0 500 shared_hash_header error_page;
      call 1 messages_route None FilesNone;
      Advance 1; Woke 0;
      AcquiredBucket 1; AcquiredGlobal 1 true (FFin 0) false].

(** Call 0 gets a 429 with [global: true] and [retry_after: 2.5] and takes
    the hard lock; call 1, for another route, comes to its global throttle. *)
Definition hard_lock_trace : list Event :=
  (call 0 pins_route None FilesNone :: start 0)
  ++ [Response 0 429 [] global_limit_body; AcquiredHard 0;
      call 1 messages_route None FilesNone; AcquiredBucket 1].



(** The lock objects are those handed out, the flag [unlock_on_exit] is
    down only during [defer_unlock], an acquired bucket lock has an owner
    (a task or a timer that will unlock it), the acquired global lock has
    an owner, and no call is beyond its last attempt. *)
Record Invariant2 (g : bool) (h : gmap lock_id BucketLock) (n : lock_id)
    (ts : gmap task_id Task) (tms : list Timer) : Prop := mkInvariant2 {
  inv_heap_dom : ∀ l L, h !! l = Some L → l < n;
  inv_flag : ∀ l L, h !! l = Some L → unlock_on_exit L = false →
    ∃ t T, ts !! t = Some T ∧ lock T = l ∧ in_defer_unlock (pc T) = true;
  inv_owner : ∀ l L, h !! l = Some L → _lock L = true →
    (∃ t T, ts !! t = Some T ∧ lock T = l ∧ owns_bucket (pc T) = true)
    ∨ (∃ i tm, tms !! i = Some tm ∧ tm_lock tm = l);
  inv_global_owner : g = true →
    ∃ t T, ts !! t = Some T ∧ owns_global (pc T) = true;
  inv_attempt : ∀ t T, ts !! t = Some T → attempt T < _max_attempts
}.

Definition Inv2 (s : State) : Prop :=
  Invariant2 (global_lock s) (heap s) (next_lock s) (tasks s) (timers s).

(** A 429 body for a resource limit: wait a second and a half. *)
Definition resource_limit_body : Decoded :=
  DDict (<["message" := JString "The resource is being rate limited."]>
         (<["retry_after" := JNumber (FFin (3 # 2))]>
          (<["global" := JBool false]> ∅))).

(** Call 0 is answered by that 429 and waits in [defer_unlock]; call 1 of
    the same route, made meanwhile, waits for the lock. *)
Definition deferred_trace : list Event :=
  (call 0 messages_route None FilesNone :: start 0)
  ++ [Response 0 429 shared_hash_header resource_limit_body;
      call 1 messages_route None FilesNone].

(** Call 0 uses up its bucket: the lock is left to a timer of one second;
    call 1 of the same route waits for it. *)
Definition exhausted_trace : list Event :=
  (call 0 messages_route None FilesNone :: start 0)
  ++ [Response 0 200 exhausted_header error_page;
      call 1 messages_route None FilesNone].

(** Half a second later. *)
Definition half_a_second : list Event := [Advance (1 # 2)].

(** One call in its transfer. *)
Definition sending_trace : list Event :=
  call 0 messages_route None FilesNone :: start 0.

(** The exceptions that reading a 429 response can raise. *)
Definition malformed_response : list PyExn :=
  [ValueError; KeyError; TypeError; AttributeError; OverflowError].

(** The gateway client raises [e], while it is entered or while it runs. *)
Definition raises (e : GwExn) (enter run : Completion) : Prop :=
  enter = Throws e ∨ (enter = Normal ∧ run = Throws e).

(** The events handed to [client.dispatch], in order. *)
Definition dispatched (effects : list WsEffect) : list LifecycleEvent :=
  omap (λ e, match e with Dispatch ev => Some ev | _ => None end) effects.

(** What [_ws_connect] does before an [except] clause can run. *)
Definition before_handlers (self : ConnectionState) (enter : Completion)
  : list WsEffect :=
  [LogInfo; Connect (shard_id self) (total_shards self)]
  ++ match enter with
     | Normal => RunGateway :: finally_effects self
     | Throws _ => []
     end.

(** Is the header [key] set in [kwargs]? *)
Definition has_header (key : string) (kw : Kwargs) : bool :=
  existsb (λ kv, String.eqb kv.1 key) (kw_headers kw).

(** ** The Python primitives on sample texts *)

Example int_of_str_42 : int_of_str " +4_2 " = Some 42%Z.
Proof. reflexivity. Qed.

Example int_of_str_abc : int_of_str "abc" = None.
Proof. reflexivity. Qed.

Example float_of_str_2_5 : float_of_str "2.5" = Some (FFin (5 # 2)).
Proof. vm_compute. reflexivity. Qed.

Example float_of_str_exp : float_of_str "-1_0.25e1" = Some (FFin (-205 # 2)).
Proof. vm_compute. reflexivity. Qed.

Example float_of_str_rounds :
  float_of_str "0.1" = Some (FFin (3602879701896397 # 36028797018963968)).
Proof. vm_compute. reflexivity. Qed.

Example float_of_str_overflow : float_of_str "1e400" = Some (FInf false).
Proof. vm_compute. reflexivity. Qed.

Example float_of_str_underflow : float_of_str "1e-400" = Some (FFin 0).
Proof. vm_compute. reflexivity. Qed.

Example int_of_str_separator :
  int_of_str (String "031" "7") = None ∧ strip ["031"%char; "7"%char]
  = ["031"%char; "7"%char].
Proof. split; reflexivity. Qed.

Example float_of_big_int_overflow : float_of_big_int (10 ^ 400) = None.
Proof. vm_compute. reflexivity. Qed.

Example float_of_str_empty : float_of_str EmptyString = None.
Proof. reflexivity. Qed.

Example float_of_str_inf : float_of_str "-Infinity" = Some (FInf true).
Proof. reflexivity. Qed.

(** ** ingest_ratelimit_header *)

(** C6: ingesting the same header map a second time changes nothing: the
    lock object (bucket hash, limit, remaining, delta and the lock state)
    and the completion are those of the first call. *)
Theorem ingest_ratelimit_header_idempotent (header : Header)
    (self : BucketLock) :
  ingest_ratelimit_header header (ingest_ratelimit_header header self).1
  = ingest_ratelimit_header header self.
Proof.
  unfold ingest_ratelimit_header.
  destruct (int_or_minus_one (header_get header "x-ratelimit-limit"));
    [|by destruct self].
  destruct (int_or_minus_one (header_get header "x-ratelimit-remaining"));
    [|by destruct self].
  destruct (float_or_zero (header_get header "x-ratelimit-reset-after"));
    by destruct self.
Qed.


(** *** What [int] and [float] convert *)

































(** ** _ws_connect *)

(** C8: when the gateway connection closes with code 4011, 4013 or 4014,
    [_ws_connect] raises a [NaffException] whose message names the shards
    (4011) or the intents (4013, 4014); the gateway connection was opened
    once and is not opened again. *)
Theorem ws_connect_fatal_close_codes (self : ConnectionState)
    (enter run : Completion) (code : Z) :
  code = 4011%Z ∨ code = 4013%Z ∨ code = 4014%Z →
  closes_with code enter run →
  ∃ message,
    (_ws_connect self enter run).2 = WsRaisesNaffException message
    ∧ connects (_ws_connect self enter run).1 = 1
    ∧ (code = 4011%Z → mentions "shards" message)
    ∧ (code = 4013%Z →
       message = invalid_intents (intents self) ∧ mentions "Intents" message)
    ∧ (code = 4014%Z → mentions "intents" message).
Proof.
  intros Hcode Hclose.
  assert (Hh : ∃ message,
    handle self (WebSocketClosed code) = ([], WsRaisesNaffException message)
    ∧ (code = 4011%Z → mentions "shards" message)
    ∧ (code = 4013%Z →
       message = invalid_intents (intents self) ∧ mentions "Intents" message)
    ∧ (code = 4014%Z → mentions "intents" message)).
  { destruct Hcode as [->|[->| ->]]; simpl; eexists; (split; [reflexivity|]);
      (split; [|split]); intros Hc; try discriminate Hc.
    - by exists "Your bot is too large, you must use ", EmptyString.
    - split; [done|].
      by exists "Invalid ", (" have been passed: " +:+ intents self).
    - by exists "You have requested privileged ",
        " that have not been enabled or approved. Check the developer dashboard". }
  destruct Hh as (message & Hh & Hm). exists message.
  split; [|split; [|exact Hm]].
  - destruct Hclose as [->|[-> ->]]; unfold _ws_connect; by rewrite Hh.
  - destruct Hclose as [->|[-> ->]]; unfold _ws_connect; by rewrite Hh.
Qed.

Lemma ws_connect_fatal_close_codes_witness :
  ∃ message,
    (_ws_connect (mkConnectionState 0 1 "Intents.ALL") Normal
       (Throws (WebSocketClosed 4013))).2 = WsRaisesNaffException message
    ∧ connects (_ws_connect (mkConnectionState 0 1 "Intents.ALL") Normal
                  (Throws (WebSocketClosed 4013))).1 = 1
    ∧ message = "Invalid Intents have been passed: Intents.ALL".
Proof.
  destruct (ws_connect_fatal_close_codes (mkConnectionState 0 1 "Intents.ALL")
              Normal (Throws (WebSocketClosed 4013)) 4013%Z)
    as (message & Hr & Hc & _ & H13 & _).
  - right. by left.
  - right. by split.
  - exists message. split; [exact Hr|]. split; [exact Hc|].
    by destruct (H13 eq_refl) as [-> _].
Defined.

(** ** change_presence *)

(** C10, as stated, fails for the empty string: it names no member of
    [Status], but no [ValueError] is raised; the status falls back to the
    client's and the update is forwarded to the gateway. *)
Lemma change_presence_empty_status_no_error :
  Status_member (str_upper EmptyString) = (None : option SampleStatus)
  ∧ change_presence (mkClient (Some SampleIdle) NoActivity) (StatusStr EmptyString)
      ActivityMissing
    = (mkClient (Some SampleIdle) NoActivity,
       [GatewayChangePresence None SampleIdle], None).
Proof. split; reflexivity. Qed.

(** C10, amended: for every non-empty string whose [str.upper()] names
    no member of [Status] (whatever [str.upper()] maps beyond ASCII),
    [change_presence] raises [ValueError]; the client's stored status and
    activity are unchanged and nothing is forwarded to the gateway.  An
    activity of a type outside the allowed ones only logs a warning: with
    an accepted status no exception is raised. *)
Theorem change_presence_invalid_status {Status : Type} `{Models Status}
    (client : Client Status) :
  (∀ (s : string) (activity : ActivityArg),
     s ≠ EmptyString → Status_member (str_upper s) = None →
     ∃ log,
       change_presence client (StatusStr s) activity
       = (client, log, Some ValueError)
       ∧ List.filter forwards log = [])
  ∧ (∀ (status : StatusArg Status) (a : Activity) (name : string),
       act_type a = OtherType name → status_accepted status →
       ∃ client' log,
         change_presence client status (ActivityObject a)
         = (client', log, None)
         ∧ Warning (type_warning name) ∈ log).
Proof.
  split.
  - intros s activity Hs Hm. unfold change_presence.
    destruct (resolve_activity client activity) as [act warnings].
    assert (resolve_status client (StatusStr s) = inr ValueError) as ->.
    { unfold resolve_status. destruct s; [done|]. simpl.
      by rewrite Hm. }
    eexists. split; [reflexivity|].
    induction warnings; [done|]. simpl. exact IHwarnings.
  - intros status a name Ha Hok. unfold change_presence. simpl.
    unfold check_activity. rewrite Ha. simpl.
    destruct (resolve_status client status) as [[st w]|e] eqn:Hr.
    + do 2 eexists. split; [reflexivity|]. set_solver.
    + exfalso. unfold resolve_status in Hr.
      destruct status as [|s|v]; simpl in *; try done.
      * destruct Hok as [->|[v Hv]]; [done|]. rewrite Hv in Hr.
        by destruct (str_truthy s).
      * by destruct (Status_truthy v).
Qed.

Lemma change_presence_invalid_status_witness :
  (∃ log,
     change_presence (mkClient (Some SampleIdle) NoActivity)
       (StatusStr "busy") (ActivityOther "chess")
     = (mkClient (Some SampleIdle) NoActivity, log, Some ValueError)
     ∧ List.filter forwards log = [])
  ∧ (∃ client' log,
       change_presence (mkClient (Some SampleIdle) NoActivity)
         (StatusStr "Idle") (ActivityObject (mkActivity "x" (OtherType "CUSTOM") None))
       = (client', log, None)
       ∧ Warning (type_warning "CUSTOM") ∈ log).
Proof.
  destruct (change_presence_invalid_status
              (mkClient (Some SampleIdle) NoActivity)) as [H1 H2].
  split.
  - apply H1; [discriminate|reflexivity].
  - apply H2; [reflexivity|]. right. by eexists.
Defined.

(** ** _process_payload *)

Lemma add_files_imap (index : nat) (files : list Upload)
    (form_data : FormData) :
  add_files index files form_data
  = (form_data ++ imap (λ i file, file_field (index + i) file) files)%list.
Proof.
  revert index form_data.
  induction files as [|file rest IH]; intros index form_data; simpl.
  - by rewrite app_nil_r.
  - rewrite IH, <- app_assoc. simpl. rewrite Nat.add_0_r.
    do 2 f_equal. apply imap_ext. intros i x _. simpl. f_equal. lia.
Qed.

(** C9, as stated, fails when no payload is given: the files are dropped and
    the request is sent with [json=None] and without form data. *)
Lemma process_payload_none_drops_files :
  files_truthy (FilesList [UStr "cat.png"]) = true
  ∧ _process_payload None (FilesList [UStr "cat.png"]) = DataNone
  ∧ ∃ s T,
      run client0
        (call 0 messages_route None (FilesList [UStr "cat.png"]) :: start 0)
      = Some s
      ∧ tasks s !! 0 = Some T ∧ pc T = Sending
      ∧ kw_data (kwargs T) = None
      ∧ kw_json (kwargs T) = Some (JsonPayload None).
Proof.
  split; [reflexivity|]. split; [reflexivity|].
  eexists _, _. split; [vm_compute; reflexivity|].
  split; [vm_compute; reflexivity|]. by repeat split.
Qed.

(** C9, amended: for every call with a payload and with files, the
    processed payload is form data: its first field is [payload_json] with
    the JSON text of the filtered payload, followed by one field [files[i]]
    for the i-th file; the transfer gets it as [data], the [json] argument
    is not set by the call, and no JSON content type is announced. *)
Theorem process_payload_multipart (p : Payload) (fs : Files) :
  files_truthy fs = true →
  ∃ form_data,
    _process_payload (Some p) fs = DataForm form_data
    ∧ form_data !! 0
      = Some (mkField "payload_json" (JsonDumps (filter_payload p)) None)
    ∧ length form_data = S (length (files_list fs))
    ∧ (∀ i file, files_list fs !! i = Some file →
         ∃ fld, form_data !! S i = Some fld
                ∧ field_name fld = "files[" +:+ pretty i +:+ "]"
                ∧ field_value fld = FileBuffer file)
    ∧ (∀ s t T, payload T = Some p → files T = fs →
         ∃ T', tasks (send t T s) !! t = Some T'
               ∧ pc T' = Sending
               ∧ kw_data (kwargs T') = Some (FormArg form_data)
               ∧ kw_json (kwargs T') = kw_json (kwargs T))
    ∧ (∀ ua tk reason params extra,
         ("Content-Type", Text "application/json")
         ∉ kw_headers (assemble ua tk reason (Some p) fs params extra)).
Proof.
  intros Hfs.
  assert (Hp : _process_payload (Some p) fs
               = DataForm (mkField "payload_json" (JsonDumps (filter_payload p)) None
                           :: imap (λ i file, file_field i file) (files_list fs))).
  { unfold _process_payload. rewrite Hfs. simpl.
    rewrite add_files_imap. simpl. by destruct fs. }
  eexists. split; [exact Hp|]. split; [reflexivity|].
  split; [by rewrite length_cons, length_imap|]. split; [|split].
  - intros i file Hi. simpl. rewrite list_lookup_imap, Hi. simpl.
    eexists. split; [reflexivity|]. by destruct file.
  - intros s t T HT1 HT2. eexists. split.
    { unfold send, set_task. simpl. apply lookup_insert_eq. }
    simpl. rewrite HT1, HT2, Hp. by repeat split.
  - intros ua tk reason params extra. unfold assemble. rewrite Hfs. simpl.
    destruct tk as [tk|]; [destruct (str_truthy tk)|];
      (destruct reason as [r|]; [destruct (str_truthy r)|]); simpl;
      intros Hin;
      repeat (apply elem_of_cons in Hin as [Hin|Hin]; [discriminate Hin|]);
      by apply elem_of_nil in Hin.
Qed.

Lemma process_payload_multipart_witness :
  ∃ form_data,
    _process_payload (Some (PayloadDict (Obj "{content: hi}")))
      (FilesList [UFile "cat.png" (Obj "bytes"); UStr "dog.png"])
    = DataForm form_data
    ∧ field_name <$> form_data = ["payload_json"; "files[0]"; "files[1]"].
Proof.
  destruct (process_payload_multipart (PayloadDict (Obj "{content: hi}"))
              (FilesList [UFile "cat.png" (Obj "bytes"); UStr "dog.png"])
              eq_refl) as (form_data & Hp & _).
  exists form_data. split; [exact Hp|].
  vm_compute in Hp. injection Hp as <-. reflexivity.
Defined.

(** ** request: one response *)

Lemma ingest_ratelimit_header_lock (header : Header) (L : BucketLock) :
  _lock (ingest_ratelimit_header header L).1 = _lock L
  ∧ unlock_on_exit (ingest_ratelimit_header header L).1 = unlock_on_exit L.
Proof.
  unfold ingest_ratelimit_header.
  destruct (int_or_minus_one (header_get header "x-ratelimit-limit")); [|done].
  destruct (int_or_minus_one (header_get header "x-ratelimit-remaining"));
    [|done].
  by destruct (float_or_zero (header_get header "x-ratelimit-reset-after")).
Qed.

Lemma step_Response (s : State) (t : task_id) (T : Task) (L : BucketLock)
    (status : Z) (header : Header) (result : Decoded) :
  tasks s !! t = Some T → heap s !! lock T = Some L → pc T = Sending →
  step s (Response t status header result)
  = Some (on_response status header result t T L s).
Proof.
  intros Ht HL Hpc. unfold step, with_task. by rewrite Ht, HL, Hpc.
Qed.

Lemma ingest_ratelimit_ok (route : Route) (header : Header) (l : lock_id)
    (L L' : BucketLock) (s : State) :
  ingest_ratelimit_header header L = (L', None) →
  ∃ s1, ingest_ratelimit route header l L s = (s1, L', None)
        ∧ tasks s1 = tasks s ∧ heap s1 = heap s ∧ timers s1 = timers s
        ∧ now s1 = now s ∧ global_lock s1 = global_lock s
        ∧ next_lock s1 = next_lock s.
Proof.
  intros Hi. unfold ingest_ratelimit. rewrite Hi.
  destruct (opt_truthy (bucket_hash L')); eexists; by repeat split.
Qed.

Lemma is_server_issue_cases (status : Z) :
  is_server_issue status = true →
  status = 500%Z ∨ status = 502%Z ∨ status = 504%Z.
Proof. unfold is_server_issue. lia. Qed.




(** ** request: the global limit *)

Lemma step_with_task (s : State) (t : task_id) (T : Task) (L : BucketLock)
    (k : Task → BucketLock → option State) :
  tasks s !! t = Some T → heap s !! lock T = Some L →
  with_task s t k = k T L.
Proof. intros Ht HL. unfold with_task. by rewrite Ht, HL. Qed.

(** C4, as stated, fails: after one 429 response that reports the global
    limit, the hard lock and its sleep, the call is in its second attempt:
    one of the three attempts is used up. *)
Lemma global_limit_uses_an_attempt :
  ∃ s T,
    run client0
      (call 0 pins_route None FilesNone :: start 0
       ++ [Response 0 429 [] global_limit_body; AcquiredHard 0;
           Advance (5 # 2); Woke 0])
    = Some s
    ∧ tasks s !! 0 = Some T
    ∧ attempt T = 1
    ∧ pc T = AcquireBucket.
Proof.
  eexists _, _. split; [vm_compute; reflexivity|].
  split; [vm_compute; reflexivity|]. by split.
Qed.

(** C4, amended: for a 429 response whose body reports the global limit,
    [request] asks for the Global Lock's hard lock with the body's
    [retry_after]; the lock is taken when it is free and is held until that
    many seconds have passed; then it is released and the call goes on with
    the next attempt: the response has used up one of the attempts. *)
Theorem global_limit_consumes_attempt :
  (∀ s t T L L' header fields d,
     tasks s !! t = Some T → heap s !! lock T = Some L → pc T = Sending →
     ingest_ratelimit_header header L = (L', None) →
     jvalue_truthy (default (JBool false) (fields !! "global")) = true →
     retry_after_of fields = inl d →
     ∃ s', step s (Response t 429 header (DDict fields)) = Some s'
           ∧ tasks s' !! t = Some (set_pc (AcquireHard d) T)
           ∧ global_lock s' = global_lock s)
  ∧ (∀ s t T L d,
       tasks s !! t = Some T → heap s !! lock T = Some L →
       pc T = AcquireHard d → global_lock s = false →
       ∃ s', step s (AcquiredHard t) = Some s'
             ∧ tasks s' !! t = Some (set_pc (HardSleep (now s) d) T)
             ∧ global_lock s' = true)
  ∧ (∀ s t T L since d,
       tasks s !! t = Some T → heap s !! lock T = Some L →
       pc T = HardSleep since d →
       (elapsed since d (now s) = false → step s (Woke t) = None)
       ∧ (elapsed since d (now s) = true → global_lock s = true →
          S (attempt T) < _max_attempts →
          ∃ s' T', step s (Woke t) = Some s'
                   ∧ global_lock s' = false
                   ∧ tasks s' !! t = Some T'
                   ∧ attempt T' = S (attempt T)
                   ∧ pc T' = AcquireBucket)).
Proof.
  split; [|split].
  - intros s t T L L' header fields d Ht HL Hpc Hi Hg Hd.
    rewrite (step_Response s t T L) by done. eexists. split; [reflexivity|].
    unfold on_response.
    destruct (ingest_ratelimit_ok (route T) header (lock T) L L' s Hi)
      as (s1 & -> & Hts & _ & _ & _ & Hgl & _).
    unfold interpret. simpl. rewrite Hg, Hd.
    unfold set_lock, set_task. simpl. by rewrite lookup_insert_eq.
  - intros s t T L d Ht HL Hpc Hg. simpl.
    rewrite (step_with_task s t T L) by done. rewrite Hpc, Hg.
    eexists. split; [reflexivity|]. simpl. by rewrite lookup_insert_eq.
  - intros s t T L since d Ht HL Hpc. split.
    + intros He. simpl. rewrite (step_with_task s t T L) by done.
      by rewrite Hpc, He.
    + intros He Hg Hlt. simpl. rewrite (step_with_task s t T L) by done.
      rewrite Hpc, He, Hg. simpl. unfold continue.
      apply Nat.ltb_lt in Hlt. rewrite Hlt.
      eexists _, _. split; [reflexivity|]. simpl.
      rewrite lookup_insert_eq. by repeat split.
Qed.

Lemma global_limit_consumes_attempt_witness :
  ∃ s s',
    run client0
      (call 0 pins_route None FilesNone :: start 0
       ++ [Response 0 429 [] global_limit_body; AcquiredHard 0;
           Advance (5 # 2)])
    = Some s
    ∧ step s (Woke 0) = Some s'
    ∧ global_lock s' = false
    ∧ (attempt <$> tasks s' !! 0) = Some 1.
Proof.
  destruct (run client0
              (call 0 pins_route None FilesNone :: start 0
               ++ [Response 0 429 [] global_limit_body; AcquiredHard 0;
                   Advance (5 # 2)]))
    as [s|] eqn:Hrun; vm_compute in Hrun; [|discriminate Hrun].
  injection Hrun as Hs0.
  destruct global_limit_consumes_attempt as (_ & _ & H3).
  edestruct (H3 s 0) as [_ H].
  { subst s. vm_compute. reflexivity. }
  { subst s. vm_compute. reflexivity. }
  { reflexivity. }
  destruct H as (s' & T' & Hs & Hg & Ht & Ha & _);
    [by subst s | by subst s | vm_compute; lia |].
  exists s, s'. split; [reflexivity|]. split; [exact Hs|].
  split; [exact Hg|].
  exact (eq_trans (f_equal (fmap attempt) Ht) (f_equal Some Ha)).
Defined.

(** ** request: server errors *)

(** A 500, 502 or 504 in the last attempt, with calls remaining in the
    bucket: the task sleeps five seconds and then the call returns [None]. *)
Lemma server_error_on_last_attempt (s : State) (t : task_id) (T : Task)
    (L L' : BucketLock) (status : Z) (header : Header) (result : Decoded) :
  tasks s !! t = Some T → heap s !! lock T = Some L → pc T = Sending →
  attempt T = 2 → is_server_issue status = true →
  ingest_ratelimit_header header L = (L', None) → remaining L' ≠ 0%Z →
  ∃ s1,
    step s (Response t status header result) = Some s1
    ∧ tasks s1 !! t = Some (set_pc (RetrySleep (now s) (FFin 5)) T)
    ∧ heap s1 !! lock T = Some L'
    ∧ ∀ s2, tasks s2 !! t = Some (set_pc (RetrySleep (now s) (FFin 5)) T) →
            heap s2 !! lock T = Some L' →
            elapsed (now s) (FFin 5) (now s2) = true →
            ∃ s3, step s2 (Woke t) = Some s3
                  ∧ (pc <$> tasks s3 !! t) = Some (Finished (Returned None)).
Proof.
  intros Ht HL Hpc Ha Hst Hi Hrem.
  rewrite (step_Response s t T L) by done. eexists. split; [reflexivity|].
  unfold on_response.
  destruct (ingest_ratelimit_ok (route T) header (lock T) L L' s Hi)
    as (s1 & -> & Hts & Hh & Htm & Hnow & _).
  assert (Hv : interpret status result L' = ServerRetry).
  { unfold interpret. apply Z.eqb_neq in Hrem. rewrite Hrem, Hst.
    by destruct (is_server_issue_cases status Hst) as [->|[->| ->]]. }
  rewrite Hv. unfold set_lock, set_task, backoff. simpl.
  rewrite Hts, Hnow, Ha, !lookup_insert_eq. split; [done|]. split; [done|].
  intros s2 Ht2 HL2 Hel. simpl.
  rewrite (step_with_task s2 t _ L') by done. simpl.
  change (elapsed (now s) (float_of_int 5) (now s2))
    with (elapsed (now s) (FFin 5) (now s2)).
  rewrite Hel. simpl. unfold continue. simpl. rewrite Ha. simpl.
  eexists. split; [reflexivity|]. unfold finish_with, set_lock, set_task.
  simpl. by rewrite lookup_insert_eq.
Qed.

(** C2: the code at three server errors in a row.  Each attempt gets a
    500, 502 or 504 and sleeps 1, 3 and 5 seconds; after the third sleep the
    loop is over and [request] returns [None]: no [DiscordError] is
    raised. *)
Theorem three_server_errors_return_None :
  ∃ s T,
    run client0
      (call 0 pins_route None FilesNone :: start 0
       ++ [Response 0 500 [] error_page; Advance 1; Woke 0] ++ start 0
       ++ [Response 0 502 [] error_page; Advance 3; Woke 0] ++ start 0
       ++ [Response 0 504 [] error_page; Advance 5; Woke 0])
    = Some s
    ∧ tasks s !! 0 = Some T
    ∧ pc T = Finished (Returned None)
    ∧ (now s == 9)%Q.
Proof.
  eexists _, _. split; [vm_compute; reflexivity|].
  split; [vm_compute; reflexivity|]. by split.
Qed.

(** ** The locks and their owners *)

Lemma Inv_init (user_agent : string) : Inv (init user_agent).
Proof.
  split; simpl; try (intros; lia); intros; simplify_map_eq;
    try match goal with H : [] !! _ = Some _ |- _ => by destruct _ end.
Qed.

Ltac insert_cases H :=
  rewrite lookup_insert in H;
  match type of H with
  | context [decide (?a = ?b)] =>
      destruct (decide (a = b)) as [<-|?E]; [injection H as <-|]
  end.

(** The timers after a task's move: the old ones, or one more for the
    task's own lock. *)
Lemma timers_cases (tms tms' : list Timer) (l : lock_id) (P : Prop) :
  (tms' = tms ∨ ∃ tm, tms' = (tms ++ [tm])%list ∧ tm_lock tm = l ∧ P) →
  ∀ i tm, tms' !! i = Some tm →
    tms !! i = Some tm
    ∨ (i = length tms ∧ tm_lock tm = l ∧ P ∧ tms' = (tms ++ [tm])%list).
Proof.
  intros [->|(tm0 & -> & Hl & HP)] i tm Hi; [by left|].
  destruct (decide (i < length tms)) as [Hlt|Hge].
  - left. by rewrite lookup_app_l in Hi.
  - rewrite lookup_app_r in Hi by lia.
    destruct (i - length tms) as [|k] eqn:Hk; simpl in Hi; [|done].
    injection Hi as <-. right. repeat split; try done. lia.
Qed.

Lemma in_defer_owns (p : PC) :
  in_defer_unlock p = true → owns_bucket p = true.
Proof. by destruct p. Qed.

Lemma holds_owns_bucket (p : PC) :
  holds_bucket p = true → owns_bucket p = true.
Proof. unfold owns_bucket. by intros ->. Qed.

Lemma holds_owns_global (p : PC) :
  holds_global p = true → owns_global p = true.
Proof. unfold owns_global. by intros ->. Qed.

(** A move of one task keeps the owners in order when the task keeps to the
    discipline of its locks. *)
Lemma Invariant_task_update (g : bool) (r : gmap string lock_id)
    (h : gmap lock_id BucketLock) (n : lock_id) (ts : gmap task_id Task)
    (tms : list Timer) (t : task_id) (T : Task) (L : BucketLock)
    (g' : bool) (r' : gmap string lock_id) (h' : gmap lock_id BucketLock)
    (T' : Task) (L' : BucketLock) (tms' : list Timer) :
  Invariant g r h n ts tms →
  ts !! t = Some T → h !! lock T = Some L →
  lock T' = lock T →
  (∀ k l, r' !! k = Some l → l < n) →
  (∀ l, l ≠ lock T → h' !! l = h !! l) →
  h' !! lock T = Some L' →
  (tms' = tms
   ∨ ∃ tm, tms' = (tms ++ [tm])%list ∧ tm_lock tm = lock T
           ∧ (owns_bucket (pc T') = false ∧ _lock L' = true)) →
  (if owns_bucket (pc T')
   then _lock L' = true ∧ tms' = tms
        ∧ (owns_bucket (pc T) = true ∨ _lock L = false)
   else owns_bucket (pc T) = true) →
  (if owns_global (pc T')
   then g' = true ∧ (owns_global (pc T) = true ∨ g = false)
   else owns_global (pc T) = true ∨ g' = g) →
  (in_defer_unlock (pc T') = true → unlock_on_exit L' = false) →
  Invariant g' r' h' n (<[t := T']> ts) tms'.
Proof.
  intros HI Ht HL Hlock Hr Hframe HL' Htm Hb Hg Hdefer.
  pose proof (timers_cases _ _ _ _ Htm) as Htms.
  assert (Hleave : owns_bucket (pc T') = false → owns_bucket (pc T) = true).
  { intros E. by rewrite E in Hb. }
  assert (Hstay : owns_bucket (pc T') = true →
                  _lock L' = true ∧ tms' = tms
                  ∧ (owns_bucket (pc T) = true ∨ _lock L = false)).
  { intros E. by rewrite E in Hb. }
  assert (Hfree : ∀ t2 T2, ts !! t2 = Some T2 → t2 ≠ t →
                  owns_bucket (pc T2) = true → lock T2 = lock T →
                  owns_bucket (pc T) = true ∨ _lock L = false → False).
  { intros t2 T2 H2 Hne Hh2 Hl2 [HT|HLf].
    - apply Hne. by eapply (inv_one_holder _ _ _ _ _ _ HI).
    - rewrite <- Hl2 in HL.
      pose proof (inv_holder_locked _ _ _ _ _ _ HI _ _ _ H2 Hh2 HL).
      congruence. }
  split.
  - exact Hr.
  - intros t1 T1 H1. insert_cases H1.
    + rewrite Hlock. by eapply inv_task_lock.
    + by eapply inv_task_lock.
  - intros i tm Hi. destruct (Htms i tm Hi) as [Ho|(_ & Hl & _)].
    + by eapply inv_timer_lock.
    + rewrite Hl. by eapply inv_task_lock.
  - intros l Hl. destruct (decide (l = lock T)) as [->|Hne]; [by eexists|].
    rewrite Hframe by done. by eapply inv_heap.
  - intros t1 t2 T1 T2 H1 H2 Hh1 Hh2 Hl. insert_cases H1; insert_cases H2.
    + done.
    + exfalso. destruct (Hstay Hh1) as (_ & _ & Hc).
      eapply (Hfree t2 T2); eauto. congruence.
    + exfalso. destruct (Hstay Hh2) as (_ & _ & Hc).
      eapply (Hfree t1 T1); eauto. congruence.
    + by eapply (inv_one_holder _ _ _ _ _ _ HI).
  - intros t1 T1 i tm H1 Hh1 Hi Heq. insert_cases H1.
    + destruct (Hstay Hh1) as (_ & -> & [HT|HLf]).
      * eapply (inv_holder_no_timer _ _ _ _ _ _ HI t T); eauto. congruence.
      * rewrite Hlock in Heq. rewrite <- Heq in HL.
        pose proof (inv_timer_locked _ _ _ _ _ _ HI _ _ _ Hi HL). congruence.
    + destruct (Htms i tm Hi) as [Ho|(_ & Hl & (Hn & _) & _)].
      * by eapply (inv_holder_no_timer _ _ _ _ _ _ HI t1 T1).
      * apply E. symmetry.
        eapply (inv_one_holder _ _ _ _ _ _ HI t1 t T1 T); eauto. congruence.
  - intros i j tmi tmj Hi Hj Heq.
    destruct (Htms i tmi Hi) as [Hoi|(-> & Hli & (Hni & _) & _)];
      destruct (Htms j tmj Hj) as [Hoj|(-> & Hlj & (Hnj & _) & _)].
    + by eapply (inv_one_timer _ _ _ _ _ _ HI).
    + exfalso.
      eapply (inv_holder_no_timer _ _ _ _ _ _ HI t T i tmi); eauto. congruence.
    + exfalso.
      eapply (inv_holder_no_timer _ _ _ _ _ _ HI t T j tmj); eauto. congruence.
    + done.
  - intros t1 T1 L1 H1 Hh1 HL1. insert_cases H1.
    + rewrite Hlock, HL' in HL1. injection HL1 as <-. by apply Hstay.
    + destruct (decide (lock T1 = lock T)) as [El|El].
      * rewrite El, HL' in HL1. injection HL1 as <-.
        destruct (owns_bucket (pc T')) eqn:Hb'; [by apply Hstay|].
        exfalso. eapply (Hfree t1 T1); eauto.
      * rewrite Hframe in HL1 by done. by eapply (inv_holder_locked _ _ _ _ _ _ HI).
  - intros i tm L1 Hi HL1.
    destruct (Htms i tm Hi) as [Ho|(_ & Hl & (_ & Hlk) & _)].
    + destruct (decide (tm_lock tm = lock T)) as [El|El].
      * rewrite El, HL' in HL1. injection HL1 as <-.
        destruct (owns_bucket (pc T')) eqn:Hb'; [by apply Hstay|].
        exfalso.
        by eapply (inv_holder_no_timer _ _ _ _ _ _ HI t T i tm); eauto.
      * rewrite Hframe in HL1 by done.
        by eapply (inv_timer_locked _ _ _ _ _ _ HI).
    + rewrite Hl, HL' in HL1. by injection HL1 as <-.
  - intros t1 T1 L1 H1 Hd1 HL1. insert_cases H1.
    + rewrite Hlock, HL' in HL1. injection HL1 as <-. by apply Hdefer.
    + destruct (decide (lock T1 = lock T)) as [El|El].
      * exfalso. eapply (Hfree t1 T1); eauto using in_defer_owns.
        destruct (owns_bucket (pc T')) eqn:Hb'; [by apply Hstay|by left].
      * rewrite Hframe in HL1 by done.
        by eapply (inv_defer_flag _ _ _ _ _ _ HI).
  - intros t1 t2 T1 T2 H1 H2 Hg1 Hg2. insert_cases H1; insert_cases H2.
    + done.
    + exfalso. rewrite Hg1 in Hg. destruct Hg as [_ [HT|Hgf]].
      * apply E. by eapply (inv_one_global _ _ _ _ _ _ HI).
      * pose proof (inv_global_locked _ _ _ _ _ _ HI _ _ H2 Hg2). congruence.
    + exfalso. rewrite Hg2 in Hg. destruct Hg as [_ [HT|Hgf]].
      * apply E. by eapply (inv_one_global _ _ _ _ _ _ HI).
      * pose proof (inv_global_locked _ _ _ _ _ _ HI _ _ H1 Hg1). congruence.
    + by eapply (inv_one_global _ _ _ _ _ _ HI).
  - intros t1 T1 H1 Hg1. insert_cases H1.
    + rewrite Hg1 in Hg. by destruct Hg.
    + pose proof (inv_global_locked _ _ _ _ _ _ HI _ _ H1 Hg1) as ->.
      destruct (owns_global (pc T')); [by destruct Hg|].
      destruct Hg as [HT|Hgg]; [|done]. exfalso. apply E. symmetry.
      by eapply (inv_one_global _ _ _ _ _ _ HI).
Qed.

Lemma Invariant_alloc (g : bool) (r : gmap string lock_id)
    (h : gmap lock_id BucketLock) (n : lock_id) (ts : gmap task_id Task)
    (tms : list Timer) (L : BucketLock) :
  Invariant g r h n ts tms → Invariant g r (<[n := L]> h) (S n) ts tms.
Proof.
  intros HI. split.
  - intros k l Hk. pose proof (inv_registry _ _ _ _ _ _ HI k l Hk). lia.
  - intros t T Ht. pose proof (inv_task_lock _ _ _ _ _ _ HI t T Ht). lia.
  - intros i tm Hi. pose proof (inv_timer_lock _ _ _ _ _ _ HI i tm Hi). lia.
  - intros l Hl. rewrite lookup_insert. case_decide; [by eexists|].
    apply (inv_heap _ _ _ _ _ _ HI). lia.
  - apply (inv_one_holder _ _ _ _ _ _ HI).
  - apply (inv_holder_no_timer _ _ _ _ _ _ HI).
  - apply (inv_one_timer _ _ _ _ _ _ HI).
  - intros t T L1 Ht Hh HL1.
    pose proof (inv_task_lock _ _ _ _ _ _ HI t T Ht).
    rewrite lookup_insert_ne in HL1 by lia.
    by eapply (inv_holder_locked _ _ _ _ _ _ HI).
  - intros i tm L1 Hi HL1.
    pose proof (inv_timer_lock _ _ _ _ _ _ HI i tm Hi).
    rewrite lookup_insert_ne in HL1 by lia.
    by eapply (inv_timer_locked _ _ _ _ _ _ HI).
  - intros t T L1 Ht Hd HL1.
    pose proof (inv_task_lock _ _ _ _ _ _ HI t T Ht).
    rewrite lookup_insert_ne in HL1 by lia.
    by eapply (inv_defer_flag _ _ _ _ _ _ HI).
  - apply (inv_one_global _ _ _ _ _ _ HI).
  - apply (inv_global_locked _ _ _ _ _ _ HI).
Qed.

Lemma Invariant_call (g : bool) (r : gmap string lock_id)
    (h : gmap lock_id BucketLock) (n : lock_id) (ts : gmap task_id Task)
    (tms : list Timer) (t : task_id) (T : Task) :
  Invariant g r h n ts tms →
  ts !! t = None → pc T = AcquireBucket → lock T < n →
  Invariant g r h n (<[t := T]> ts) tms.
Proof.
  intros HI Ht Hpc Hl. split.
  - apply (inv_registry _ _ _ _ _ _ HI).
  - intros t1 T1 H1. insert_cases H1; [done|]. by eapply inv_task_lock.
  - apply (inv_timer_lock _ _ _ _ _ _ HI).
  - apply (inv_heap _ _ _ _ _ _ HI).
  - intros t1 t2 T1 T2 H1 H2 Hh1 Hh2 Hl12.
    insert_cases H1; [by rewrite Hpc in Hh1|].
    insert_cases H2; [by rewrite Hpc in Hh2|].
    by eapply (inv_one_holder _ _ _ _ _ _ HI).
  - intros t1 T1 i tm H1 Hh1 Hi.
    insert_cases H1; [by rewrite Hpc in Hh1|].
    by eapply (inv_holder_no_timer _ _ _ _ _ _ HI).
  - apply (inv_one_timer _ _ _ _ _ _ HI).
  - intros t1 T1 L1 H1 Hh1 HL1.
    insert_cases H1; [by rewrite Hpc in Hh1|].
    by eapply (inv_holder_locked _ _ _ _ _ _ HI).
  - apply (inv_timer_locked _ _ _ _ _ _ HI).
  - intros t1 T1 L1 H1 Hd1 HL1.
    insert_cases H1; [by rewrite Hpc in Hd1|].
    by eapply (inv_defer_flag _ _ _ _ _ _ HI).
  - intros t1 t2 T1 T2 H1 H2 Hg1 Hg2.
    insert_cases H1; [by rewrite Hpc in Hg1|].
    insert_cases H2; [by rewrite Hpc in Hg2|].
    by eapply (inv_one_global _ _ _ _ _ _ HI).
  - intros t1 T1 H1 Hg1.
    insert_cases H1; [by rewrite Hpc in Hg1|].
    by eapply (inv_global_locked _ _ _ _ _ _ HI).
Qed.

Lemma Invariant_registry (g : bool) (r r' : gmap string lock_id)
    (h : gmap lock_id BucketLock) (n : lock_id) (ts : gmap task_id Task)
    (tms : list Timer) :
  Invariant g r h n ts tms →
  (∀ k l, r' !! k = Some l → l < n) →
  Invariant g r' h n ts tms.
Proof. intros HI Hr. destruct HI. by split. Qed.

(** The index in [l] of the [j]-th element of [delete i l]. *)
Lemma lookup_delete_skip {A : Type} (l : list A) (i j : nat) :
  delete i l !! j = l !! (if decide (j < i) then j else S j).
Proof.
  case_decide.
  - by apply list_lookup_delete_lt.
  - apply list_lookup_delete_ge. lia.
Qed.

Lemma Invariant_timer_fired (g : bool) (r : gmap string lock_id)
    (h h' : gmap lock_id BucketLock) (n : lock_id) (ts : gmap task_id Task)
    (tms : list Timer) (i : nat) (tm : Timer) :
  Invariant g r h n ts tms →
  tms !! i = Some tm →
  (∀ l, l ≠ tm_lock tm → h' !! l = h !! l) →
  is_Some (h' !! tm_lock tm) →
  Invariant g r h' n ts (delete i tms).
Proof.
  intros HI Hi Hframe Hsome.
  assert (Hnot : ∀ t T, ts !! t = Some T → owns_bucket (pc T) = true →
                 lock T ≠ tm_lock tm).
  { intros t T Ht Hh Heq. symmetry in Heq.
    by eapply (inv_holder_no_timer _ _ _ _ _ _ HI t T i tm). }
  assert (Hother : ∀ j tmj, delete i tms !! j = Some tmj →
            tm_lock tmj ≠ tm_lock tm
            ∧ tms !! (if decide (j < i) then j else S j) = Some tmj).
  { intros j tmj Hj. rewrite lookup_delete_skip in Hj. split; [|done].
    intros Heq.
    pose proof (inv_one_timer _ _ _ _ _ _ HI _ _ _ _ Hj Hi Heq).
    case_decide; lia. }
  split.
  - apply (inv_registry _ _ _ _ _ _ HI).
  - apply (inv_task_lock _ _ _ _ _ _ HI).
  - intros j tmj Hj. destruct (Hother j tmj Hj) as [_ Hj'].
    by eapply inv_timer_lock.
  - intros l Hl. destruct (decide (l = tm_lock tm)) as [->|Hne]; [done|].
    rewrite Hframe by done. by eapply inv_heap.
  - apply (inv_one_holder _ _ _ _ _ _ HI).
  - intros t T j tmj Ht Hh Hj. destruct (Hother j tmj Hj) as [_ Hj'].
    by eapply (inv_holder_no_timer _ _ _ _ _ _ HI).
  - intros j1 j2 tm1 tm2 H1 H2 Heq.
    destruct (Hother j1 tm1 H1) as [_ H1'].
    destruct (Hother j2 tm2 H2) as [_ H2'].
    pose proof (inv_one_timer _ _ _ _ _ _ HI _ _ _ _ H1' H2' Heq).
    repeat case_decide; lia.
  - intros t T L Ht Hh HL.
    assert (lock T ≠ tm_lock tm) as Hne.
    { intros Heq. symmetry in Heq.
      by eapply (inv_holder_no_timer _ _ _ _ _ _ HI t T i tm). }
    rewrite Hframe in HL by done.
    by eapply (inv_holder_locked _ _ _ _ _ _ HI).
  - intros j tmj L Hj HL. destruct (Hother j tmj Hj) as [Hne Hj'].
    rewrite Hframe in HL by done.
    by eapply (inv_timer_locked _ _ _ _ _ _ HI).
  - intros t T L Ht Hd HL.
    rewrite Hframe in HL by eauto using in_defer_owns.
    by eapply (inv_defer_flag _ _ _ _ _ _ HI).
  - apply (inv_one_global _ _ _ _ _ _ HI).
  - apply (inv_global_locked _ _ _ _ _ _ HI).
Qed.

(** A task that owns no lock ends and leaves the locks alone. *)
Lemma Invariant_task_end (g : bool) (r : gmap string lock_id)
    (h : gmap lock_id BucketLock) (n : lock_id) (ts : gmap task_id Task)
    (tms : list Timer) (t : task_id) (T T' : Task) :
  Invariant g r h n ts tms →
  ts !! t = Some T → lock T' = lock T →
  owns_bucket (pc T') = false → owns_global (pc T') = false →
  Invariant g r h n (<[t := T']> ts) tms.
Proof.
  intros HI Ht Hlock Hb Hg.
  assert (Hd : in_defer_unlock (pc T') = false).
  { destruct (in_defer_unlock (pc T')) eqn:E; [|done].
    apply in_defer_owns in E. congruence. }
  split.
  - apply (inv_registry _ _ _ _ _ _ HI).
  - intros t1 T1 H1. insert_cases H1.
    + rewrite Hlock. by eapply inv_task_lock.
    + by eapply inv_task_lock.
  - apply (inv_timer_lock _ _ _ _ _ _ HI).
  - apply (inv_heap _ _ _ _ _ _ HI).
  - intros t1 t2 T1 T2 H1 H2 Hh1 Hh2 Hl12.
    insert_cases H1; [congruence|]. insert_cases H2; [congruence|].
    by eapply (inv_one_holder _ _ _ _ _ _ HI).
  - intros t1 T1 i tm H1 Hh1 Hi. insert_cases H1; [congruence|].
    by eapply (inv_holder_no_timer _ _ _ _ _ _ HI).
  - apply (inv_one_timer _ _ _ _ _ _ HI).
  - intros t1 T1 L1 H1 Hh1 HL1. insert_cases H1; [congruence|].
    by eapply (inv_holder_locked _ _ _ _ _ _ HI).
  - apply (inv_timer_locked _ _ _ _ _ _ HI).
  - intros t1 T1 L1 H1 Hd1 HL1. insert_cases H1; [congruence|].
    by eapply (inv_defer_flag _ _ _ _ _ _ HI).
  - intros t1 t2 T1 T2 H1 H2 Hg1 Hg2.
    insert_cases H1; [congruence|]. insert_cases H2; [congruence|].
    by eapply (inv_one_global _ _ _ _ _ _ HI).
  - intros t1 T1 H1 Hg1. insert_cases H1; [congruence|].
    by eapply (inv_global_locked _ _ _ _ _ _ HI).
Qed.

Ltac task_event Hstep T L Ht HL :=
  unfold with_task in Hstep;
  destruct (tasks _ !! _) as [T|] eqn:Ht; [|discriminate Hstep];
  destruct (heap _ !! lock T) as [L|] eqn:HL; [|discriminate Hstep].

Ltac solve_registry HI Ht :=
  let k := fresh "k" in
  let l := fresh "l" in
  let Hk := fresh "Hk" in
  intros k l Hk;
  first
    [ exact (inv_registry _ _ _ _ _ _ HI k l Hk)
    | rewrite lookup_insert in Hk; case_decide;
      [ injection Hk as <-; exact (inv_task_lock _ _ _ _ _ _ HI _ _ Ht)
      | exact (inv_registry _ _ _ _ _ _ HI k l Hk) ] ].

Ltac solve_frame :=
  let l := fresh "l" in
  let Hl := fresh "Hl" in
  intros l Hl; first [reflexivity | by rewrite lookup_insert_ne].

(** The move of task [t] from [T]: check the discipline of the locks. *)
Ltac update HI Ht HL Hpc :=
  eapply (Invariant_task_update _ _ _ _ _ _ _ _ _ _ _ _ _ _ _ HI Ht HL);
  [ reflexivity | solve_registry HI Ht | solve_frame
  | first [apply lookup_insert_eq | exact HL]
  | first [ by left
          | right; eexists; split; [reflexivity|]; simpl; rewrite ?Hpc;
            simpl; auto ]
  | unfold owns_bucket; simpl; rewrite ?Hpc; simpl; auto
  | unfold owns_global; simpl; rewrite ?Hpc; simpl; auto
  | let Hx := fresh "Hx" in
    simpl; rewrite ?Hpc; simpl; intros Hx;
    first [discriminate Hx | reflexivity] ].

(** The ways out of an attempt. *)
Ltac leave HI Ht HL Hpc :=
  unfold raise_in_try, continue, finish_with, cancel_in;
  repeat case_match; simpl; update HI Ht HL Hpc.

(** After the throttle: no session, a closed one, or the transfer. *)
Ltac throttled HI Ht HL Hpc :=
  unfold after_throttle; simpl;
  destruct (session _); simpl; [repeat case_match|];
  first [update HI Ht HL Hpc | leave HI Ht HL Hpc].

Lemma step_Inv (s s' : State) (e : Event) :
  Inv s → step s e = Some s' → Inv s'.
Proof.
  intros HI Hstep. unfold Inv in *. destruct e; simpl in Hstep.
  - (* Call *)
    destruct (tasks s !! t) eqn:Ht; [discriminate Hstep|].
    unfold get_ratelimit in Hstep.
    destruct (match _endpoints s !! rl_bucket route0 with
              | Some bucket_hash =>
                  if str_truthy bucket_hash
                  then ratelimit_locks s !! bucket_hash else None
              | None => None
              end) as [l|] eqn:Hc; injection Hstep as <-; simpl.
    + apply Invariant_call; [done|done|done|]. simpl.
      destruct (_endpoints s !! rl_bucket route0) as [bh|]; [|done].
      destruct (str_truthy bh); [|done].
      by eapply (inv_registry _ _ _ _ _ _ HI).
    + apply Invariant_call; [by apply Invariant_alloc|done|done|simpl; lia].
  - (* AcquiredBucket *)
    task_event Hstep T L Ht HL.
    destruct (pc T) eqn:Hpc; try discriminate Hstep.
    destruct (_lock L) eqn:Hlk; [discriminate Hstep|].
    injection Hstep as <-. simpl. update HI Ht HL Hpc.
  - (* AcquiredGlobal *)
    task_event Hstep T L Ht HL.
    destruct (pc T) eqn:Hpc; try discriminate Hstep.
    destruct (global_lock s) eqn:Hgl; [discriminate Hstep|].
    pose proof (inv_holder_locked _ _ _ _ _ _ HI t T L Ht) as Hlk.
    rewrite Hpc in Hlk. specialize (Hlk eq_refl HL).
    destruct has_token; injection Hstep as <-;
      [throttled HI Ht HL Hpc|simpl; update HI Ht HL Hpc].
  - (* ThrottleWoke *)
    task_event Hstep T L Ht HL.
    destruct (pc T) eqn:Hpc; try discriminate Hstep.
    destruct (elapsed since d (now s)); [|discriminate Hstep].
    pose proof (inv_holder_locked _ _ _ _ _ _ HI t T L Ht) as Hlk.
    rewrite Hpc in Hlk. specialize (Hlk eq_refl HL).
    pose proof (inv_global_locked _ _ _ _ _ _ HI t T Ht) as Hgl.
    rewrite Hpc in Hgl. specialize (Hgl eq_refl). rewrite Hgl in Hstep.
    destruct has_token; injection Hstep as <-;
      [throttled HI Ht HL Hpc|simpl; update HI Ht HL Hpc].
  - (* LoginReturned *)
    task_event Hstep T L Ht HL.
    destruct (pc T) eqn:Hpc; try discriminate Hstep.
    pose proof (inv_holder_locked _ _ _ _ _ _ HI t T L Ht) as Hlk.
    rewrite Hpc in Hlk. specialize (Hlk eq_refl HL).
    injection Hstep as <-. simpl. update HI Ht HL Hpc.
  - (* LoginRaised *)
    task_event Hstep T L Ht HL.
    destruct (pc T) eqn:Hpc; try discriminate Hstep.
    pose proof (inv_holder_locked _ _ _ _ _ _ HI t T L Ht) as Hlk.
    rewrite Hpc in Hlk. specialize (Hlk eq_refl HL).
    injection Hstep as <-. leave HI Ht HL Hpc.
  - (* Response *)
    task_event Hstep T L Ht HL.
    destruct (pc T) eqn:Hpc; try discriminate Hstep.
    pose proof (inv_holder_locked _ _ _ _ _ _ HI t T L Ht) as Hlk.
    rewrite Hpc in Hlk. specialize (Hlk eq_refl HL).
    injection Hstep as <-. unfold on_response, ingest_ratelimit.
    pose proof (ingest_ratelimit_header_lock header L) as [Hl1 _].
    destruct (ingest_ratelimit_header header L) as [L1 e1].
    simpl in Hl1. rewrite Hlk in Hl1.
    destruct e1 as [e1|]; [leave HI Ht HL Hpc|].
    destruct (opt_truthy (bucket_hash L1));
      destruct (interpret status result L1); simpl;
      first [update HI Ht HL Hpc | leave HI Ht HL Hpc].
  - (* SendRaised *)
    task_event Hstep T L Ht HL.
    destruct (pc T) eqn:Hpc; try discriminate Hstep.
    pose proof (inv_holder_locked _ _ _ _ _ _ HI t T L Ht) as Hlk.
    rewrite Hpc in Hlk. specialize (Hlk eq_refl HL).
    injection Hstep as <-. leave HI Ht HL Hpc.
  - (* AcquiredHard *)
    task_event Hstep T L Ht HL.
    destruct (pc T) eqn:Hpc; try discriminate Hstep.
    destruct (global_lock s) eqn:Hgl; [discriminate Hstep|].
    pose proof (inv_holder_locked _ _ _ _ _ _ HI t T L Ht) as Hlk.
    rewrite Hpc in Hlk. specialize (Hlk eq_refl HL).
    injection Hstep as <-. simpl. update HI Ht HL Hpc.
  - (* Woke *)
    task_event Hstep T L Ht HL.
    pose proof (inv_holder_locked _ _ _ _ _ _ HI t T L Ht) as Hlk.
    destruct (pc T) eqn:Hpc; try discriminate Hstep;
      specialize (Hlk eq_refl HL);
      (destruct (elapsed since d (now s)); [|discriminate Hstep]);
      simpl in Hstep.
    + pose proof (inv_global_locked _ _ _ _ _ _ HI t T Ht) as Hgl.
      rewrite Hpc in Hgl. specialize (Hgl eq_refl). rewrite Hgl in Hstep.
      injection Hstep as <-. leave HI Ht HL Hpc.
    + unfold unlock in Hstep. rewrite Hlk in Hstep.
      injection Hstep as <-. leave HI Ht HL Hpc.
    + injection Hstep as <-. leave HI Ht HL Hpc.
  - (* TimerFired *)
    destruct (timers s !! i) as [tm|] eqn:Hi; [|discriminate Hstep].
    destruct (elapsed (tm_since tm) (tm_delay tm) (now s));
      [|discriminate Hstep]. simpl in Hstep.
    destruct (heap s !! tm_lock tm) as [L|] eqn:HL; [|discriminate Hstep].
    destruct (unlock L); injection Hstep as <-; simpl.
    + eapply Invariant_timer_fired; [exact HI|exact Hi|solve_frame|].
      rewrite lookup_insert_eq. by eexists.
    + eapply Invariant_timer_fired; [exact HI|exact Hi|solve_frame|].
      by eexists.
  - (* Advance *)
    destruct (Qle_bool 0 d); [|discriminate Hstep]. by injection Hstep as <-.
  - (* Collect *)
    destruct (ratelimit_locks s !! bucket_hash0) as [l|] eqn:Hl;
      [|discriminate Hstep].
    destruct (referenced l s); [discriminate Hstep|].
    injection Hstep as <-. simpl.
    eapply Invariant_registry; [exact HI|].
    intros k l' Hk. apply lookup_delete_Some in Hk as [_ Hk].
    by eapply (inv_registry _ _ _ _ _ _ HI).
  - (* Login *)
    by injection Hstep as <-.
  - (* Cancel *)
    task_event Hstep T L Ht HL.
    pose proof (inv_holder_locked _ _ _ _ _ _ HI t T L Ht) as Hlk.
    pose proof (inv_global_locked _ _ _ _ _ _ HI t T Ht) as Hgl.
    pose proof (inv_defer_flag _ _ _ _ _ _ HI t T L Ht) as Hfl.
    destruct (pc T) eqn:Hpc; try discriminate Hstep;
      first [specialize (Hlk eq_refl HL) | clear Hlk];
      first [specialize (Hgl eq_refl) | clear Hgl];
      first [specialize (Hfl eq_refl HL) | clear Hfl];
      rewrite ?Hgl in Hstep; injection Hstep as <-.
    1: { simpl. eapply Invariant_task_end; [exact HI|exact Ht|done..]. }
    all: unfold cancel_in, aexit, locked; rewrite ?Hfl, ?Hlk; simpl;
      repeat case_match; simpl; update HI Ht HL Hpc.
Qed.

Lemma run_Inv (es : list Event) (s s' : State) :
  Inv s → run s es = Some s' → Inv s'.
Proof.
  revert s. induction es as [|e es IH]; intros s HI Hrun; simpl in Hrun.
  - by injection Hrun as <-.
  - destruct (step s e) as [s1|] eqn:Hstep; [|discriminate Hrun].
    eapply IH; [|exact Hrun]. by eapply step_Inv.
Qed.

Lemma reachable_Inv (s : State) : reachable s → Inv s.
Proof.
  intros (user_agent & es & Hrun).
  eapply run_Inv; [apply Inv_init|exact Hrun].
Qed.

(** The state that a sample run ends in can be reached. *)
Ltac reached trace Hrun :=
  exists "DiscordBot", (Login "token" :: trace);
  rewrite <- Hrun; vm_compute; reflexivity.

(** C1: the code where the claim fails.  Calls 0 and 1, for two routes
    of one bucket, are each made while the hash of the bucket is unknown
    and get a BucketLock of their own.  The response of call 0 registers
    its lock under the hash, and call 2 of the first route gets that lock
    from the registry.  The response of call 1 then writes its own lock
    over the entry ([self.ratelimit_locks[bucket_lock.bucket_hash] =
    bucket_lock]) while the first lock is still held by call 0 and waited
    for by call 2; call 3 of the first route gets the second lock.  Calls 2
    and 3, for the same route and the same discovered hash, are in their
    transfer at the same time. *)
Theorem same_hash_different_locks_send_together :
  (∃ s2, run client0 (take 7 two_locks_trace) = Some s2
         ∧ _endpoints s2 !! rl_bucket messages_route = Some "abcd1234")
  ∧ (∃ s8 T2,
       run client0 (take 8 two_locks_trace) = Some s8
       ∧ ratelimit_locks s8 !! "abcd1234" = Some 0
       ∧ tasks s8 !! 2 = Some T2 ∧ lock T2 = 0)
  ∧ (∃ s9 T0 L0,
       run client0 (take 9 two_locks_trace) = Some s9
       ∧ ratelimit_locks s9 !! "abcd1234" = Some 1
       ∧ tasks s9 !! 0 = Some T0 ∧ lock T0 = 0
       ∧ holds_bucket (pc T0) = true
       ∧ heap s9 !! 0 = Some L0 ∧ locked L0 = true)
  ∧ ∃ s T2 T3,
      run client0 two_locks_trace = Some s
      ∧ tasks s !! 2 = Some T2 ∧ tasks s !! 3 = Some T3
      ∧ route T2 = messages_route ∧ route T3 = messages_route
      ∧ _endpoints s !! rl_bucket messages_route = Some "abcd1234"
      ∧ pc T2 = Sending ∧ pc T3 = Sending
      ∧ lock T2 = 0 ∧ lock T3 = 1.
Proof.
  split; [|split; [|split]].
  - eexists. split; vm_compute; reflexivity.
  - eexists _, _. split; [vm_compute; reflexivity|].
    split; [vm_compute; reflexivity|].
    split; [vm_compute; reflexivity|reflexivity].
  - eexists _, _, _. split; [vm_compute; reflexivity|].
    split; [vm_compute; reflexivity|].
    split; [vm_compute; reflexivity|]. split; [reflexivity|].
    split; [reflexivity|]. split; [vm_compute; reflexivity|reflexivity].
  - eexists _, _, _. split; [vm_compute; reflexivity|].
    split; [vm_compute; reflexivity|]. split; [vm_compute; reflexivity|].
    split; [reflexivity|]. split; [reflexivity|].
    split; [vm_compute; reflexivity|]. by repeat split.
Qed.

(** X26: of the concurrent requests that got the same BucketLock object
    from [get_ratelimit], no two are in their transfer at the same time:
    while one is sending, the lock is acquired, every other task with
    that lock is outside [async with lock], and no timer is about to unlock
    it. *)
Theorem bucket_lock_mutual_exclusion (s : State) (t1 : task_id) (T1 : Task) :
  reachable s →
  tasks s !! t1 = Some T1 → pc T1 = Sending →
  (∃ L, heap s !! lock T1 = Some L ∧ _lock L = true)
  ∧ (∀ t2 T2, tasks s !! t2 = Some T2 → lock T2 = lock T1 → t2 ≠ t1 →
       holds_bucket (pc T2) = false ∧ pc T2 ≠ Sending)
  ∧ (∀ i tm, timers s !! i = Some tm → tm_lock tm ≠ lock T1).
Proof.
  intros Hr H1 Hpc. apply reachable_Inv in Hr.
  assert (Hh1 : owns_bucket (pc T1) = true) by by rewrite Hpc.
  split; [|split].
  - destruct (inv_heap _ _ _ _ _ _ Hr (lock T1)) as [L HL].
    { by eapply inv_task_lock. }
    exists L. split; [done|].
    by eapply (inv_holder_locked _ _ _ _ _ _ Hr t1 T1).
  - intros t2 T2 H2 Hl Hne.
    assert (Hh : holds_bucket (pc T2) = false).
    { destruct (holds_bucket (pc T2)) eqn:Hh2; [|done]. exfalso. apply Hne.
      apply holds_owns_bucket in Hh2.
      by eapply (inv_one_holder _ _ _ _ _ _ Hr t2 t1 T2 T1). }
    split; [exact Hh|]. intros Hs. by rewrite Hs in Hh.
  - intros i tm Hi. by eapply (inv_holder_no_timer _ _ _ _ _ _ Hr t1 T1).
Qed.

Lemma bucket_lock_mutual_exclusion_witness :
  ∃ s T0 T1,
    run client0 shared_lock_trace = Some s
    ∧ tasks s !! 0 = Some T0 ∧ tasks s !! 1 = Some T1
    ∧ lock T0 = lock T1 ∧ pc T1 = Sending ∧ pc T0 ≠ Sending.
Proof.
  destruct (run client0 shared_lock_trace) as [s|] eqn:Hrun;
    vm_compute in Hrun; [|discriminate Hrun].
  assert (Hreach : reachable s) by reached shared_lock_trace Hrun.
  injection Hrun as Hs0.
  edestruct (bucket_lock_mutual_exclusion s 1) as (_ & Hn & _);
    [ exact Hreach | subst s; vm_compute; reflexivity | reflexivity | ].
  eexists s, _, _. split; [reflexivity|].
  split; [subst s; vm_compute; reflexivity|].
  split; [subst s; vm_compute; reflexivity|].
  split; [reflexivity|]. split; [reflexivity|].
  refine (proj2 (Hn 0 _ _ _ _));
    [subst s; vm_compute; reflexivity|reflexivity|discriminate].
Defined.

(** The design behind it: once the lock of a bucket is no longer referenced,
    its weak entry goes, and two calls of the route each get a fresh lock
    and send together. *)
Example idle_bucket_gets_fresh_locks :
  ∃ s T1 T2,
    run client0
      ((call 0 messages_route None FilesNone :: start 0)
       ++ [Response 0 200 shared_hash_header error_page; Collect "abcd1234";
           call 1 messages_route None FilesNone;
           call 2 messages_route None FilesNone]
       ++ start 1 ++ start 2)
    = Some s
    ∧ tasks s !! 1 = Some T1 ∧ tasks s !! 2 = Some T2
    ∧ pc T1 = Sending ∧ pc T2 = Sending ∧ lock T1 = 1 ∧ lock T2 = 2.
Proof.
  eexists _, _, _. split; [vm_compute; reflexivity|].
  split; [vm_compute; reflexivity|]. split; [vm_compute; reflexivity|].
  by repeat split.
Qed.

(** ** The hard lock of the Global Lock *)

(** What a step does to the clock and to the task that moves. *)
Ltac moved Ht Hpc :=
  split; [simpl; apply Qle_refl|];
  right; eexists _, _; split; [reflexivity|]; rewrite Ht;
  split; [unfold running; by rewrite Hpc|];
  first
    [ left; simpl; by rewrite ?Hpc
    | right; (split; [|split]);
      [ let Hh := fresh "Hh" in
        intros ? ? Hh; rewrite Hpc in Hh;
        first [ discriminate Hh
              | injection Hh as <- <-; split; [assumption|reflexivity] ]
      | let Hg := fresh "Hg" in
        intros Hg; rewrite Hpc in Hg;
        first [discriminate Hg | assumption | reflexivity]
      | let Hp := fresh "Hp" in
        simpl; rewrite ?Hpc; simpl; intros Hp;
        first [ discriminate Hp
              | left; split; reflexivity
              | right; left; reflexivity
              | right; right; by eexists _, _ ] ] ].

Lemma step_task_move (s s' : State) (e : Event) :
  step s e = Some s' →
  (now s <= now s')%Q
  ∧ (tasks s' = tasks s
     ∨ ∃ t T', tasks s' = <[t := T']> (tasks s)
        ∧ match tasks s !! t with
          | None => pc T' = AcquireBucket
          | Some T =>
              running T = true
              ∧ (T' = set_pc (Cancelled (pc T)) T
                 ∨ ((∀ since d, pc T = HardSleep since d →
                       elapsed since d (now s) = true ∧ now s' = now s)
                    ∧ (pc T = AcquireGlobal → global_lock s = false)
                    ∧ (past_throttle (pc T') = true →
                       (past_throttle (pc T) = true ∧ attempt T' = attempt T)
                       ∨ pc T = AcquireGlobal
                       ∨ ∃ since d, pc T = ThrottleSleep since d)))
          end).
Proof.
  intros Hstep. destruct e; simpl in Hstep.
  - destruct (tasks s !! t) eqn:Ht; [discriminate Hstep|].
    destruct (get_ratelimit route0 s) as [l s1] eqn:Hg.
    injection Hstep as <-.
    assert (tasks s1 = tasks s ∧ now s1 = now s) as [Hts Hnow].
    { unfold get_ratelimit in Hg. repeat case_match; by simplify_eq. }
    split; [simpl; rewrite Hnow; apply Qle_refl|].
    right. eexists _, _. simpl. rewrite Hts. split; [reflexivity|].
    by rewrite Ht.
  - task_event Hstep T L Ht HL.
    destruct (pc T) eqn:Hpc; try discriminate Hstep.
    destruct (_lock L); [discriminate Hstep|]. injection Hstep as <-.
    moved Ht Hpc.
  - task_event Hstep T L Ht HL.
    destruct (pc T) eqn:Hpc; try discriminate Hstep.
    destruct (global_lock s) eqn:Hgl; [discriminate Hstep|].
    unfold after_throttle, raise_in_try, finish_with in Hstep.
    destruct has_token; [destruct (session s); [destruct closed|]|];
      injection Hstep as <-; moved Ht Hpc.
  - task_event Hstep T L Ht HL.
    destruct (pc T) eqn:Hpc; try discriminate Hstep.
    destruct (elapsed since d (now s)); [|discriminate Hstep].
    simpl in Hstep.
    unfold after_throttle, raise_in_try, finish_with in Hstep.
    simpl in Hstep.
    destruct has_token;
      [destruct (global_lock s); [destruct (session s); [destruct closed|]|]|];
      injection Hstep as <-; moved Ht Hpc.
  - task_event Hstep T L Ht HL.
    destruct (pc T) eqn:Hpc; try discriminate Hstep.
    injection Hstep as <-. moved Ht Hpc.
  - task_event Hstep T L Ht HL.
    destruct (pc T) eqn:Hpc; try discriminate Hstep.
    injection Hstep as <-. unfold raise_in_try, finish_with.
    repeat case_match; moved Ht Hpc.
  - task_event Hstep T L Ht HL.
    destruct (pc T) eqn:Hpc; try discriminate Hstep.
    injection Hstep as <-.
    unfold on_response, ingest_ratelimit, raise_in_try, finish_with, continue,
      blind_defer_unlock, defer_unlock.
    destruct (ingest_ratelimit_header header L) as [L1 e1].
    destruct e1 as [e1|]; [repeat case_match; moved Ht Hpc|].
    destruct (opt_truthy (bucket_hash L1));
      destruct (interpret status result L1);
      repeat case_match; moved Ht Hpc.
  - task_event Hstep T L Ht HL.
    destruct (pc T) eqn:Hpc; try discriminate Hstep.
    injection Hstep as <-. unfold raise_in_try, finish_with.
    repeat case_match; moved Ht Hpc.
  - task_event Hstep T L Ht HL.
    destruct (pc T) eqn:Hpc; try discriminate Hstep.
    destruct (global_lock s) eqn:Hgl; [discriminate Hstep|].
    injection Hstep as <-. moved Ht Hpc.
  - task_event Hstep T L Ht HL.
    destruct (pc T) eqn:Hpc; try discriminate Hstep;
      (destruct (elapsed since d (now s)) eqn:Hel; [|discriminate Hstep]);
      simpl in Hstep; unfold raise_in_try, finish_with, continue in Hstep;
      repeat case_match; injection Hstep as <-; moved Ht Hpc.
  - destruct (timers s !! i) as [tm|]; [|discriminate Hstep].
    destruct (elapsed (tm_since tm) (tm_delay tm) (now s));
      [|discriminate Hstep]. simpl in Hstep.
    destruct (heap s !! tm_lock tm) as [L|]; [|discriminate Hstep].
    destruct (unlock L); injection Hstep as <-;
      (split; [apply Qle_refl|by left]).
  - destruct (Qle_bool 0 d) eqn:Hd; [|discriminate Hstep].
    injection Hstep as <-. split; [|by left]. simpl.
    apply Qle_bool_iff in Hd.
    rewrite <- (Qplus_0_r (now s)) at 1. by apply Qplus_le_r.
  - destruct (ratelimit_locks s !! bucket_hash0); [|discriminate Hstep].
    destruct (referenced l s); [discriminate Hstep|].
    injection Hstep as <-. split; [apply Qle_refl|by left].
  - injection Hstep as <-. split; [apply Qle_refl|by left].
  - task_event Hstep T L Ht HL.
    unfold cancel_in, raise_in_try, finish_with in Hstep.
    destruct (pc T) eqn:Hpc; try discriminate Hstep;
      repeat case_match; injection Hstep as <-; moved Ht Hpc.
Qed.


Lemma run_now (es : list Event) (s s' : State) :
  run s es = Some s' → (now s <= now s')%Q.
Proof.
  revert s. induction es as [|e es IH]; intros s Hrun; simpl in Hrun.
  - injection Hrun as <-. apply Qle_refl.
  - destruct (step s e) as [s1|] eqn:Hstep; [|discriminate Hrun].
    destruct (step_task_move s s1 e Hstep) as [Hle _].
    eapply Qle_trans; [exact Hle|]. by apply IH.
Qed.





(** * Further properties of the code *)

(** ** No lock is left behind *)

Lemma Inv2_init (user_agent : string) : Inv2 (init user_agent).
Proof.
  split; simpl; try done; intros; simplify_map_eq.
Qed.

(** A task inside [async with lock] and outside [defer_unlock] finds the
    flag of its lock up. *)
Lemma holder_flag (g : bool) (r : gmap string lock_id)
    (h : gmap lock_id BucketLock) (n : lock_id) (ts : gmap task_id Task)
    (tms : list Timer) (t : task_id) (T : Task) (L : BucketLock) :
  Invariant g r h n ts tms → Invariant2 g h n ts tms →
  ts !! t = Some T → h !! lock T = Some L →
  holds_bucket (pc T) = true → in_defer_unlock (pc T) = false →
  unlock_on_exit L = true.
Proof.
  intros HI HJ Ht HL Hh Hd. destruct (unlock_on_exit L) eqn:Hf; [done|].
  destruct (inv_flag _ _ _ _ _ HJ _ _ HL Hf) as (t' & T' & Ht' & Hl' & Hd').
  assert (t' = t) as ->.
  { eapply (inv_one_holder _ _ _ _ _ _ HI t' t T' T); [done|done| | |done].
    - by destruct (pc T').
    - by apply holds_owns_bucket. }
  congruence.
Qed.

Lemma Invariant2_task_update (g : bool) (h : gmap lock_id BucketLock)
    (n : lock_id) (ts : gmap task_id Task) (tms : list Timer) (t : task_id)
    (T : Task) (L : BucketLock) (g' : bool) (h' : gmap lock_id BucketLock)
    (T' : Task) (L' : BucketLock) (tms' : list Timer) :
  Invariant2 g h n ts tms →
  ts !! t = Some T → h !! lock T = Some L →
  lock T' = lock T →
  (∀ l, l ≠ lock T → h' !! l = h !! l) →
  h' !! lock T = Some L' →
  (tms' = tms ∨ ∃ tm, tms' = (tms ++ [tm])%list ∧ tm_lock tm = lock T) →
  (_lock L' = true →
   owns_bucket (pc T') = true ∨ ∃ tm, tms' = (tms ++ [tm])%list) →
  (unlock_on_exit L' = false → in_defer_unlock (pc T') = true) →
  (g' = true →
   owns_global (pc T') = true ∨ (owns_global (pc T) = false ∧ g = true)) →
  attempt T' < _max_attempts →
  Invariant2 g' h' n (<[t := T']> ts) tms'.
Proof.
  intros HJ Ht HL Hlock Hframe HL' Htm Hown Hflag Hg Hatt.
  assert (Hkeep : ∀ t0 T0, ts !! t0 = Some T0 → lock T0 ≠ lock T →
                  <[t := T']> ts !! t0 = Some T0).
  { intros t0 T0 H0 Hne. rewrite lookup_insert_ne; [done|]. congruence. }
  assert (Htimer : ∀ i tm, tms !! i = Some tm → tms' !! i = Some tm).
  { intros i tm Hi. destruct Htm as [->|(tm0 & -> & _)]; [done|].
    by apply lookup_app_l_Some. }
  split.
  - intros l L0 H0. destruct (decide (l = lock T)) as [->|Hne].
    + by eapply inv_heap_dom.
    + rewrite Hframe in H0 by done. by eapply inv_heap_dom.
  - intros l L0 H0 Hf. destruct (decide (l = lock T)) as [->|Hne].
    + rewrite HL' in H0. injection H0 as <-.
      exists t, T'. rewrite lookup_insert_eq. auto.
    + rewrite Hframe in H0 by done.
      destruct (inv_flag _ _ _ _ _ HJ _ _ H0 Hf) as (t0 & T0 & Ht0 & Hl0 & Hd).
      exists t0, T0. split; [|done]. apply Hkeep; congruence.
  - intros l L0 H0 Hlk. destruct (decide (l = lock T)) as [->|Hne].
    + rewrite HL' in H0. injection H0 as <-.
      destruct (Hown Hlk) as [Hh|(tm & ->)].
      * left. exists t, T'. rewrite lookup_insert_eq. auto.
      * right. destruct Htm as [Heq|(tm0 & Heq & Hl0)].
        -- exfalso. apply (f_equal length) in Heq.
           rewrite length_app in Heq. simpl in Heq. lia.
        -- exists (length tms), tm0. rewrite Heq.
           split; [|done]. by apply list_lookup_middle.
    + rewrite Hframe in H0 by done.
      destruct (inv_owner _ _ _ _ _ HJ _ _ H0 Hlk)
        as [(t0 & T0 & Ht0 & Hl0 & Hh)|(i & tm & Hi & Hl0)].
      * left. exists t0, T0. split; [|done]. apply Hkeep; congruence.
      * right. exists i, tm. split; [|done]. by apply Htimer.
  - intros Hg'. destruct (Hg Hg') as [Hh|[Hn Hgo]].
    + exists t, T'. by rewrite lookup_insert_eq.
    + destruct (inv_global_owner _ _ _ _ _ HJ Hgo) as (t0 & T0 & Ht0 & Hh0).
      exists t0, T0. split; [|done]. rewrite lookup_insert_ne; [done|].
      intros ->. congruence.
  - intros t0 T0 H0. insert_cases H0; [done|]. by eapply inv_attempt.
Qed.

(** A task that owns no lock and is not in [defer_unlock] ends. *)
Lemma Invariant2_task_end (g : bool) (h : gmap lock_id BucketLock)
    (n : lock_id) (ts : gmap task_id Task) (tms : list Timer) (t : task_id)
    (T T' : Task) :
  Invariant2 g h n ts tms →
  ts !! t = Some T →
  owns_bucket (pc T) = false → owns_global (pc T) = false →
  in_defer_unlock (pc T) = false →
  attempt T' < _max_attempts →
  Invariant2 g h n (<[t := T']> ts) tms.
Proof.
  intros HJ Ht Hb Hg Hd Ha.
  assert (Hkeep : ∀ t0 T0, ts !! t0 = Some T0 →
                  owns_bucket (pc T0) = true ∨ owns_global (pc T0) = true
                  ∨ in_defer_unlock (pc T0) = true →
                  <[t := T']> ts !! t0 = Some T0).
  { intros t0 T0 H0 Hown. rewrite lookup_insert_ne; [done|].
    intros ->. rewrite Ht in H0. injection H0 as <-.
    destruct Hown as [?|[?|?]]; congruence. }
  split.
  - apply (inv_heap_dom _ _ _ _ _ HJ).
  - intros l L H0 Hf.
    destruct (inv_flag _ _ _ _ _ HJ _ _ H0 Hf) as (t0 & T0 & Ht0 & Hl0 & Hd0).
    exists t0, T0. split; [apply Hkeep; auto|done].
  - intros l L H0 Hlk.
    destruct (inv_owner _ _ _ _ _ HJ _ _ H0 Hlk)
      as [(t0 & T0 & Ht0 & Hl0 & Hh)|Htm]; [|by right].
    left. exists t0, T0. split; [apply Hkeep; auto|done].
  - intros Hg'.
    destruct (inv_global_owner _ _ _ _ _ HJ Hg') as (t0 & T0 & Ht0 & Hh).
    exists t0, T0. split; [apply Hkeep; auto|done].
  - intros t0 T0 H0. insert_cases H0; [done|]. by eapply inv_attempt.
Qed.

Lemma Invariant2_alloc (g : bool) (h : gmap lock_id BucketLock) (n : lock_id)
    (ts : gmap task_id Task) (tms : list Timer) :
  Invariant2 g h n ts tms →
  Invariant2 g (<[n := new_BucketLock]> h) (S n) ts tms.
Proof.
  intros HJ.
  assert (Hold : ∀ l L, <[n := new_BucketLock]> h !! l = Some L →
                 L = new_BucketLock ∨ h !! l = Some L).
  { intros l L H0. rewrite lookup_insert in H0. case_decide; [|by right].
    left. congruence. }
  split.
  - intros l L H0. rewrite lookup_insert in H0. case_decide; [lia|].
    pose proof (inv_heap_dom _ _ _ _ _ HJ _ _ H0). lia.
  - intros l L H0 Hf. destruct (Hold l L H0) as [->|H1]; [done|].
    by eapply inv_flag.
  - intros l L H0 Hlk. destruct (Hold l L H0) as [->|H1]; [done|].
    by eapply inv_owner.
  - apply (inv_global_owner _ _ _ _ _ HJ).
  - apply (inv_attempt _ _ _ _ _ HJ).
Qed.

Lemma Invariant2_call (g : bool) (h : gmap lock_id BucketLock) (n : lock_id)
    (ts : gmap task_id Task) (tms : list Timer) (t : task_id) (T : Task) :
  Invariant2 g h n ts tms →
  ts !! t = None → attempt T < _max_attempts →
  Invariant2 g h n (<[t := T]> ts) tms.
Proof.
  intros HJ Ht Ha.
  assert (Hkeep : ∀ t0 T0, ts !! t0 = Some T0 → <[t := T]> ts !! t0 = Some T0).
  { intros t0 T0 H0. rewrite lookup_insert_ne; [done|]. congruence. }
  split.
  - apply (inv_heap_dom _ _ _ _ _ HJ).
  - intros l L H0 Hf.
    destruct (inv_flag _ _ _ _ _ HJ _ _ H0 Hf) as (t0 & T0 & Ht0 & Hrest).
    exists t0, T0. split; [by apply Hkeep|done].
  - intros l L H0 Hlk.
    destruct (inv_owner _ _ _ _ _ HJ _ _ H0 Hlk)
      as [(t0 & T0 & Ht0 & Hrest)|Htm]; [|by right].
    left. exists t0, T0. split; [by apply Hkeep|done].
  - intros Hg. destruct (inv_global_owner _ _ _ _ _ HJ Hg) as (t0 & T0 & Ht0 & Hh).
    exists t0, T0. split; [by apply Hkeep|done].
  - intros t0 T0 H0. insert_cases H0; [done|]. by eapply inv_attempt.
Qed.

Lemma lookup_delete_other {A : Type} (l : list A) (i j : nat) (x : A) :
  l !! j = Some x → j ≠ i → ∃ j', delete i l !! j' = Some x.
Proof.
  intros Hj Hne. destruct (decide (j < i)) as [Hlt|Hge].
  - exists j. by rewrite list_lookup_delete_lt.
  - exists (j - 1). rewrite list_lookup_delete_ge by lia.
    by replace (S (j - 1)) with j by lia.
Qed.

Lemma Invariant2_timer_fired (g : bool) (r : gmap string lock_id)
    (h h' : gmap lock_id BucketLock) (n : lock_id) (ts : gmap task_id Task)
    (tms : list Timer) (i : nat) (tm : Timer) (L L' : BucketLock) :
  Invariant g r h n ts tms → Invariant2 g h n ts tms →
  tms !! i = Some tm → h !! tm_lock tm = Some L →
  (∀ l, l ≠ tm_lock tm → h' !! l = h !! l) →
  h' !! tm_lock tm = Some L' →
  _lock L' = false → unlock_on_exit L' = unlock_on_exit L →
  Invariant2 g h' n ts (delete i tms).
Proof.
  intros HI HJ Hi HL Hframe HL' Hlk Hf. split.
  - intros l L0 H0. destruct (decide (l = tm_lock tm)) as [->|Hne].
    + by eapply inv_heap_dom.
    + rewrite Hframe in H0 by done. by eapply inv_heap_dom.
  - intros l L0 H0 Hf0. destruct (decide (l = tm_lock tm)) as [->|Hne].
    + rewrite HL' in H0. injection H0 as <-. rewrite Hf in Hf0.
      by eapply inv_flag.
    + rewrite Hframe in H0 by done. by eapply inv_flag.
  - intros l L0 H0 Hlk0. destruct (decide (l = tm_lock tm)) as [->|Hne].
    + rewrite HL' in H0. injection H0 as <-. congruence.
    + rewrite Hframe in H0 by done.
      destruct (inv_owner _ _ _ _ _ HJ _ _ H0 Hlk0)
        as [Htask|(j & tmj & Hj & Hlj)]; [by left|].
      right. destruct (lookup_delete_other tms i j tmj Hj) as [j' Hj'].
      { intros ->. congruence. }
      by exists j', tmj.
  - apply (inv_global_owner _ _ _ _ _ HJ).
  - apply (inv_attempt _ _ _ _ _ HJ).
Qed.

Ltac open_lock L :=
  destruct L as [[] [] ? ? ? ?]; simpl in *; try discriminate.

Ltac update2 HJ Ht HL Hpc :=
  eapply (Invariant2_task_update _ _ _ _ _ _ _ _ _ _ _ _ _ HJ Ht HL);
  [ reflexivity | solve_frame
  | first [apply lookup_insert_eq | exact HL]
  | first [by left | right; eexists; split; reflexivity]
  | let Hx := fresh "Hx" in
    unfold owns_bucket; simpl; rewrite ?Hpc; simpl; intros Hx;
    first [discriminate Hx | by left | right; by eexists]
  | let Hx := fresh "Hx" in
    simpl; rewrite ?Hpc; simpl; intros Hx;
    first [discriminate Hx | reflexivity]
  | let Hx := fresh "Hx" in
    unfold owns_global; simpl; rewrite ?Hpc; simpl; intros Hx;
    first [discriminate Hx | congruence | by left | by right]
  | unfold _max_attempts in *; simpl;
    repeat match goal with
           | H : (_ <? _)%nat = true |- _ => apply Nat.ltb_lt in H
           end; lia ].

Ltac leave2 HJ Ht HL Hpc :=
  unfold raise_in_try, continue, finish_with, cancel_in;
  repeat case_match; simpl; update2 HJ Ht HL Hpc.

Ltac holder_facts HI HJ t T L Ht HL Hpc :=
  let Hlk := fresh "Hlk" in
  let Hfl := fresh "Hfl" in
  let Hatt := fresh "Hatt" in
  pose proof (inv_attempt _ _ _ _ _ HJ t T Ht) as Hatt;
  pose proof (inv_holder_locked _ _ _ _ _ _ HI t T L Ht) as Hlk;
  rewrite Hpc in Hlk; specialize (Hlk eq_refl HL);
  pose proof (holder_flag _ _ _ _ _ _ t T L HI HJ Ht HL) as Hfl;
  rewrite Hpc in Hfl; specialize (Hfl eq_refl);
  try specialize (Hfl eq_refl).

Lemma step_Inv2 (s s' : State) (e : Event) :
  Inv s → Inv2 s → step s e = Some s' → Inv2 s'.
Proof.
  intros HI HJ Hstep. unfold Inv, Inv2 in *. destruct e; simpl in Hstep.
  - (* Call *)
    destruct (tasks s !! t) eqn:Ht; [discriminate Hstep|].
    unfold get_ratelimit in Hstep.
    destruct (match _endpoints s !! rl_bucket route0 with
              | Some bucket_hash =>
                  if str_truthy bucket_hash
                  then ratelimit_locks s !! bucket_hash else None
              | None => None
              end) as [l|] eqn:Hc; injection Hstep as <-; simpl.
    + apply Invariant2_call; [done|done|simpl; unfold _max_attempts; lia].
    + apply Invariant2_call;
        [by apply Invariant2_alloc|done|simpl; unfold _max_attempts; lia].
  - (* AcquiredBucket *)
    task_event Hstep T L Ht HL.
    destruct (pc T) eqn:Hpc; try discriminate Hstep.
    destruct (_lock L) eqn:Hlk; [discriminate Hstep|].
    pose proof (inv_attempt _ _ _ _ _ HJ t T Ht) as Hatt.
    injection Hstep as <-. simpl.
    assert (Hfl : unlock_on_exit L = true).
    { destruct (unlock_on_exit L) eqn:Hf; [done|].
      destruct (inv_flag _ _ _ _ _ HJ _ _ HL Hf) as (t' & T' & Ht' & Hl' & Hd').
      rewrite <- Hl' in HL.
      pose proof (inv_holder_locked _ _ _ _ _ _ HI t' T' L Ht') as Hc.
      destruct (pc T'); try discriminate Hd'.
      specialize (Hc eq_refl HL). congruence. }
    open_lock L. update2 HJ Ht HL Hpc.
  - (* AcquiredGlobal *)
    task_event Hstep T L Ht HL.
    destruct (pc T) eqn:Hpc; try discriminate Hstep.
    destruct (global_lock s) eqn:Hgl; [discriminate Hstep|].
    holder_facts HI HJ t T L Ht HL Hpc.
    unfold after_throttle in Hstep.
    destruct has_token; [destruct (session s); [destruct closed|]|];
      injection Hstep as <-; open_lock L;
      first [update2 HJ Ht HL Hpc | leave2 HJ Ht HL Hpc].
  - (* ThrottleWoke *)
    task_event Hstep T L Ht HL.
    destruct (pc T) eqn:Hpc; try discriminate Hstep.
    destruct (elapsed since d (now s)); [|discriminate Hstep].
    holder_facts HI HJ t T L Ht HL Hpc.
    pose proof (inv_global_locked _ _ _ _ _ _ HI t T Ht) as Hgl.
    rewrite Hpc in Hgl. specialize (Hgl eq_refl). rewrite Hgl in Hstep.
    unfold after_throttle in Hstep. simpl in Hstep.
    destruct has_token; [destruct (session s); [destruct closed|]|];
      injection Hstep as <-; open_lock L;
      first [update2 HJ Ht HL Hpc | leave2 HJ Ht HL Hpc].
  - (* LoginReturned *)
    task_event Hstep T L Ht HL.
    destruct (pc T) eqn:Hpc; try discriminate Hstep.
    holder_facts HI HJ t T L Ht HL Hpc.
    injection Hstep as <-. open_lock L. update2 HJ Ht HL Hpc.
  - (* LoginRaised *)
    task_event Hstep T L Ht HL.
    destruct (pc T) eqn:Hpc; try discriminate Hstep.
    holder_facts HI HJ t T L Ht HL Hpc.
    injection Hstep as <-. open_lock L. leave2 HJ Ht HL Hpc.
  - (* Response *)
    task_event Hstep T L Ht HL.
    destruct (pc T) eqn:Hpc; try discriminate Hstep.
    holder_facts HI HJ t T L Ht HL Hpc.
    injection Hstep as <-.
    unfold on_response, ingest_ratelimit, blind_defer_unlock, defer_unlock.
    pose proof (ingest_ratelimit_header_lock header L) as [Hl1 Hf1].
    destruct (ingest_ratelimit_header header L) as [L1 e1].
    simpl in Hl1, Hf1. rewrite Hlk in Hl1. rewrite Hfl in Hf1.
    open_lock L1.
    destruct e1 as [e1|]; [leave2 HJ Ht HL Hpc|].
    match goal with
    | |- context [opt_truthy ?b] => destruct (opt_truthy b)
    end;
      destruct (interpret status result _); simpl;
      first [update2 HJ Ht HL Hpc | leave2 HJ Ht HL Hpc].
  - (* SendRaised *)
    task_event Hstep T L Ht HL.
    destruct (pc T) eqn:Hpc; try discriminate Hstep.
    holder_facts HI HJ t T L Ht HL Hpc.
    injection Hstep as <-. open_lock L. leave2 HJ Ht HL Hpc.
  - (* AcquiredHard *)
    task_event Hstep T L Ht HL.
    destruct (pc T) eqn:Hpc; try discriminate Hstep.
    destruct (global_lock s) eqn:Hgl; [discriminate Hstep|].
    holder_facts HI HJ t T L Ht HL Hpc.
    injection Hstep as <-. open_lock L. update2 HJ Ht HL Hpc.
  - (* Woke *)
    task_event Hstep T L Ht HL.
    destruct (pc T) eqn:Hpc; try discriminate Hstep;
      holder_facts HI HJ t T L Ht HL Hpc;
      (destruct (elapsed since d (now s)); [|discriminate Hstep]);
      simpl in Hstep.
    + pose proof (inv_global_locked _ _ _ _ _ _ HI t T Ht) as Hgl.
      rewrite Hpc in Hgl. specialize (Hgl eq_refl). rewrite Hgl in Hstep.
      injection Hstep as <-. open_lock L. leave2 HJ Ht HL Hpc.
    + unfold unlock in Hstep. rewrite Hlk in Hstep.
      injection Hstep as <-. open_lock L; leave2 HJ Ht HL Hpc.
    + injection Hstep as <-. open_lock L. leave2 HJ Ht HL Hpc.
  - (* TimerFired *)
    destruct (timers s !! i) as [tm|] eqn:Hi; [|discriminate Hstep].
    destruct (elapsed (tm_since tm) (tm_delay tm) (now s));
      [|discriminate Hstep]. simpl in Hstep.
    destruct (heap s !! tm_lock tm) as [L|] eqn:HL; [|discriminate Hstep].
    pose proof (inv_timer_locked _ _ _ _ _ _ HI i tm L Hi HL) as Hlk.
    unfold unlock in Hstep. rewrite Hlk in Hstep.
    injection Hstep as <-. simpl.
    eapply (Invariant2_timer_fired _ _ _ _ _ _ _ i tm L (set_locked false L)
              HI HJ Hi HL).
    + solve_frame.
    + apply lookup_insert_eq.
    + reflexivity.
    + reflexivity.
  - (* Advance *)
    destruct (Qle_bool 0 d); [|discriminate Hstep]. by injection Hstep as <-.
  - (* Collect *)
    destruct (ratelimit_locks s !! bucket_hash0) as [l|] eqn:Hl;
      [|discriminate Hstep].
    destruct (referenced l s); [discriminate Hstep|].
    by injection Hstep as <-.
  - (* Login *)
    by injection Hstep as <-.
  - (* Cancel *)
    task_event Hstep T L Ht HL.
    pose proof (inv_attempt _ _ _ _ _ HJ t T Ht) as Hatt.
    pose proof (inv_holder_locked _ _ _ _ _ _ HI t T L Ht) as Hlk.
    pose proof (inv_global_locked _ _ _ _ _ _ HI t T Ht) as Hgl.
    pose proof (inv_defer_flag _ _ _ _ _ _ HI t T L Ht) as Hdf.
    pose proof (holder_flag _ _ _ _ _ _ t T L HI HJ Ht HL) as Hfl.
    destruct (pc T) eqn:Hpc; try discriminate Hstep;
      first [specialize (Hlk eq_refl HL) | clear Hlk];
      first [specialize (Hgl eq_refl) | clear Hgl];
      first [specialize (Hdf eq_refl HL) | clear Hdf];
      first [specialize (Hfl eq_refl eq_refl) | clear Hfl];
      rewrite ?Hgl in Hstep; injection Hstep as <-.
    1: { simpl. eapply Invariant2_task_end;
           [exact HJ|exact Ht|by rewrite Hpc..|done]. }
    all: open_lock L; leave2 HJ Ht HL Hpc.
Qed.

Lemma run_Inv2 (es : list Event) (s s' : State) :
  Inv s → Inv2 s → run s es = Some s' → Inv2 s'.
Proof.
  revert s. induction es as [|e es IH]; intros s HI HJ Hrun; simpl in Hrun.
  - by injection Hrun as <-.
  - destruct (step s e) as [s1|] eqn:Hstep; [|discriminate Hrun].
    eapply IH; [|by eapply step_Inv2|exact Hrun]. by eapply step_Inv.
Qed.

Lemma reachable_Inv2 (s : State) : reachable s → Inv2 s.
Proof.
  intros (user_agent & es & Hrun).
  eapply run_Inv2; [apply Inv_init|apply Inv2_init|exact Hrun].
Qed.

Lemma reachable_run (s s' : State) (es : list Event) :
  reachable s → run s es = Some s' → reachable s'.
Proof.
  intros (user_agent & es0 & Hrun0) Hrun.
  exists user_agent, (es0 ++ es)%list.
  revert Hrun0. generalize (init user_agent). clear user_agent.
  induction es0 as [|e es0 IH]; intros s0 Hrun0; simpl in *.
  - by injection Hrun0 as ->.
  - destruct (step s0 e); [|discriminate Hrun0]. by apply IH.
Qed.

(** ** Sleeps and timers last *)

Ltac other_task Hstep Hne :=
  unfold on_response, ingest_ratelimit, blind_defer_unlock, defer_unlock,
    raise_in_try, continue, finish_with, after_throttle, cancel_in, send,
    unlock in Hstep;
  repeat case_match; simplify_eq; simpl; by rewrite lookup_insert_ne.

Ltac woke_early Hstep Hwin :=
  let Hel := fresh "Hel" in
  match type of Hstep with
  | context [elapsed ?a ?b ?c] => destruct (elapsed a b c) eqn:Hel
  end; [|discriminate Hstep];
  simpl in Hel; apply Qle_bool_iff in Hel;
  unfold raise_in_try, continue, finish_with, after_throttle, send, unlock
    in Hstep;
  simpl in Hstep; repeat case_match; try discriminate Hstep;
  injection Hstep as <-; simpl in Hwin; lra.

(** A request that sleeps and is not cancelled stays asleep until its delay
    has passed. *)
Lemma step_sleeper (s s' : State) (e : Event) (w : task_id) (W : Task)
    (since q : Q) :
  step s e = Some s' → e ≠ Cancel w →
  tasks s !! w = Some W → sleeping (pc W) = Some (since, FFin q) →
  (now s' < since + q)%Q →
  tasks s' !! w = Some W.
Proof.
  intros Hstep Hcancel Hw Hsl Hwin. destruct e; simpl in Hstep.
  1: { destruct (tasks s !! t) eqn:Ht; [discriminate Hstep|].
       unfold get_ratelimit in Hstep. repeat case_match;
         simplify_eq; simpl;
         (rewrite lookup_insert_ne; [done|intros ->; congruence]). }
  1-9: unfold with_task in Hstep;
    destruct (tasks s !! t) as [T|] eqn:Ht; [|discriminate Hstep];
    (destruct (heap s !! lock T) as [L|]; [|discriminate Hstep]);
    (destruct (decide (t = w)) as [->|Hne]; [|other_task Hstep Hne]);
    rewrite Hw in Ht; injection Ht as <-;
    destruct (pc W) eqn:Hpc; simpl in Hsl; try discriminate Hsl;
    try discriminate Hstep; injection Hsl as -> ->;
    woke_early Hstep Hwin.
  - repeat case_match; try discriminate Hstep; by injection Hstep as <-.
  - repeat case_match; try discriminate Hstep; by injection Hstep as <-.
  - repeat case_match; try discriminate Hstep; by injection Hstep as <-.
  - by injection Hstep as <-.
  - unfold with_task in Hstep.
    destruct (tasks s !! t) as [T|] eqn:Ht; [|discriminate Hstep].
    destruct (heap s !! lock T) as [L|]; [|discriminate Hstep].
    destruct (decide (t = w)) as [->|Hne]; [done|other_task Hstep Hne].
Qed.

Lemma run_sleeper (es : list Event) :
  ∀ (s s' : State) (w : task_id) (W : Task) (since q : Q),
    run s es = Some s' → Cancel w ∉ es →
    tasks s !! w = Some W → sleeping (pc W) = Some (since, FFin q) →
    (now s' < since + q)%Q →
    tasks s' !! w = Some W.
Proof.
  induction es as [|e es IH];
    intros s s' w W since q Hrun Hcancel Hw Hsl Hwin; simpl in Hrun.
  - by injection Hrun as <-.
  - destruct (step s e) as [s1|] eqn:Hstep; [|discriminate Hrun].
    pose proof (run_now es s1 s' Hrun) as Hle.
    apply not_elem_of_cons in Hcancel as [Hne Hcancel].
    eapply IH; [exact Hrun|exact Hcancel| |exact Hsl|exact Hwin].
    eapply step_sleeper; [exact Hstep|done|exact Hw|exact Hsl|lra].
Qed.

Lemma step_timer (s s' : State) (e : Event) (i : nat) (tm : Timer) (q : Q) :
  step s e = Some s' →
  timers s !! i = Some tm → tm_delay tm = FFin q →
  (now s' < tm_since tm + q)%Q →
  ∃ j, timers s' !! j = Some tm.
Proof.
  intros Hstep Hi Hd Hwin. destruct e; simpl in Hstep.
  1: { destruct (tasks s !! t) eqn:Ht; [discriminate Hstep|].
       unfold get_ratelimit in Hstep. repeat case_match;
         simplify_eq; simpl; by exists i. }
  1-9: unfold with_task in Hstep;
    destruct (tasks s !! t) as [T|] eqn:Ht; [|discriminate Hstep];
    (destruct (heap s !! lock T) as [L|]; [|discriminate Hstep]);
    unfold on_response, ingest_ratelimit, blind_defer_unlock, defer_unlock,
      raise_in_try, continue, finish_with, after_throttle, send, unlock
      in Hstep;
    repeat case_match; simplify_eq; simpl;
    exists i; first [exact Hi | by apply lookup_app_l_Some].
  - destruct (timers s !! i0) as [tm0|] eqn:Hi0; [|discriminate Hstep].
    destruct (elapsed (tm_since tm0) (tm_delay tm0) (now s)) eqn:Hel;
      [|discriminate Hstep].
    simpl in Hstep.
    assert (Hne : i ≠ i0).
    { intros ->. rewrite Hi in Hi0. injection Hi0 as <-.
      rewrite Hd in Hel. simpl in Hel. apply Qle_bool_iff in Hel.
      repeat case_match; simplify_eq; simpl in Hwin; lra. }
    destruct (lookup_delete_other (timers s) i0 i tm Hi Hne) as [j Hj].
    repeat case_match; simplify_eq; simpl; by exists j.
  - repeat case_match; simplify_eq; simpl; by exists i.
  - repeat case_match; simplify_eq; simpl; by exists i.
  - simplify_eq; simpl; by exists i.
  - unfold with_task in Hstep.
    destruct (tasks s !! t) as [T|] eqn:Ht; [|discriminate Hstep].
    destruct (heap s !! lock T) as [L|]; [|discriminate Hstep].
    unfold cancel_in, raise_in_try, finish_with in Hstep.
    repeat case_match; simplify_eq; simpl; by exists i.
Qed.

Lemma run_timer (es : list Event) :
  ∀ (s s' : State) (i : nat) (tm : Timer) (q : Q),
    run s es = Some s' →
    timers s !! i = Some tm → tm_delay tm = FFin q →
    (now s' < tm_since tm + q)%Q →
    ∃ j, timers s' !! j = Some tm.
Proof.
  induction es as [|e es IH]; intros s s' i tm q Hrun Hi Hd Hwin;
    simpl in Hrun.
  - injection Hrun as <-. by exists i.
  - destruct (step s e) as [s1|] eqn:Hstep; [|discriminate Hrun].
    pose proof (run_now es s1 s' Hrun) as Hle.
    destruct (step_timer s s1 e i tm q Hstep Hi Hd) as [j Hj]; [lra|].
    by eapply IH.
Qed.

(** ** Who holds which lock *)


(** X1: in every state the client can reach, a BucketLock's
    [asyncio.Lock] is acquired exactly when one of these exists: a request
    inside [async with lock]; a pending [call_later] callback of
    [blind_defer_unlock], which will unlock it; or a request that was
    cancelled while it slept in [defer_unlock]: [unlock] was skipped and
    [__aexit__] found [unlock_on_exit] down, so that nobody is left to
    release the lock. *)
Theorem acquired_bucket_lock_has_owner (s : State) (l : lock_id)
    (L : BucketLock) :
  reachable s → heap s !! l = Some L →
  (locked L = true ↔
   (∃ t T, tasks s !! t = Some T ∧ lock T = l ∧ holds_bucket (pc T) = true)
   ∨ (∃ i tm, timers s !! i = Some tm ∧ tm_lock tm = l)
   ∨ (∃ t T since d, tasks s !! t = Some T ∧ lock T = l
                     ∧ pc T = Cancelled (DeferSleep since d))).
Proof.
  intros Hr HL. pose proof (reachable_Inv s Hr) as HI.
  pose proof (reachable_Inv2 s Hr) as HJ. split.
  - intros Hlk.
    destruct (inv_owner _ _ _ _ _ HJ l L HL Hlk)
      as [(t & T & Ht & Hl & Ho)|Htm]; [|by right; left].
    unfold owns_bucket in Ho. apply orb_true_iff in Ho as [Hh|Ha].
    + left. by exists t, T.
    + right. right. destruct (pc T) as [| | | | | | | | | |p] eqn:Hpc;
        try discriminate Ha.
      destruct p; try discriminate Ha. by exists t, T, since, d.
  - intros [(t & T & Ht & <- & Hh)|[(i & tm & Hi & <-)
                                    |(t & T & since & d & Ht & <- & Hpc)]].
    + eapply (inv_holder_locked _ _ _ _ _ _ HI t T); [done| |done].
      by apply holds_owns_bucket.
    + by eapply (inv_timer_locked _ _ _ _ _ _ HI i tm).
    + eapply (inv_holder_locked _ _ _ _ _ _ HI t T); [done| |done].
      by rewrite Hpc.
Qed.

Lemma acquired_bucket_lock_has_owner_witness :
  ∃ s L T,
    run client0 (deferred_trace ++ [Cancel 0]) = Some s
    ∧ heap s !! 0 = Some L
    ∧ tasks s !! 0 = Some T
    ∧ pc T = Cancelled (DeferSleep 0 (FFin (3 # 2)))
    ∧ locked L = true.
Proof.
  destruct (run client0 (deferred_trace ++ [Cancel 0])) as [s|] eqn:Hrun;
    vm_compute in Hrun; [|discriminate Hrun].
  assert (Hreach : reachable s)
    by reached (deferred_trace ++ [Cancel 0])%list Hrun.
  injection Hrun as Hs0.
  assert (HL : heap s !! 0 = Some (mkBucketLock true true (Some "abcd1234")
                                     (-1) (-1) (FFin 0))).
  { subst s. vm_compute. reflexivity. }
  assert (Ht : tasks s !! 0
               = Some (mkTask messages_route None FilesNone
                         (set_body DataNone
                            (assemble "DiscordBot" (Some "token") None None
                               FilesNone None no_kwargs))
                         0 0 (Cancelled (DeferSleep 0 (FFin (3 # 2)))))).
  { subst s. vm_compute. reflexivity. }
  eexists s, _, _. split; [reflexivity|]. split; [exact HL|].
  split; [exact Ht|]. split; [reflexivity|].
  apply (acquired_bucket_lock_has_owner s 0 _ Hreach HL).
  right. right. eexists 0, _, _, _. split; [exact Ht|]. by split.
Defined.

(** X2: [unlock_on_exit] is down only while a request sleeps in
    [defer_unlock] on that lock; [blind_defer_unlock] lowers the flag and
    [__aexit__] raises it again before anyone else runs. *)
Theorem unlock_on_exit_down_only_in_defer_unlock (s : State) (l : lock_id)
    (L : BucketLock) :
  reachable s → heap s !! l = Some L → unlock_on_exit L = false →
  ∃ t T since d,
    tasks s !! t = Some T ∧ lock T = l ∧ pc T = DeferSleep since d.
Proof.
  intros Hr HL Hf. pose proof (reachable_Inv2 s Hr) as HJ.
  destruct (inv_flag _ _ _ _ _ HJ l L HL Hf) as (t & T & Ht & Hl & Hd).
  destruct (pc T) eqn:Hpc; try discriminate Hd. by exists t, T, since, d.
Qed.

Lemma unlock_on_exit_down_only_in_defer_unlock_witness :
  ∃ s L t T since d,
    run client0 deferred_trace = Some s
    ∧ heap s !! 0 = Some L ∧ unlock_on_exit L = false
    ∧ tasks s !! t = Some T ∧ lock T = 0 ∧ pc T = DeferSleep since d.
Proof.
  destruct (run client0 deferred_trace) as [s|] eqn:Hrun;
    vm_compute in Hrun; [|discriminate Hrun].
  assert (Hreach : reachable s) by reached deferred_trace Hrun.
  injection Hrun as Hs0.
  assert (HL : heap s !! 0
               = Some (mkBucketLock true false (Some "abcd1234") (-1) (-1)
                         (FFin 0))).
  { subst s. vm_compute. reflexivity. }
  destruct (unlock_on_exit_down_only_in_defer_unlock s 0 _ Hreach HL eq_refl)
    as (t & T & since & d & Ht & Hl & Hpc).
  eexists s, _, t, T, since, d. split; [reflexivity|].
  split; [exact HL|]. split; [reflexivity|]. by split.
Defined.

(** X3: [GlobalLock._lock] is acquired exactly when one request sleeps
    inside it, in [rate_limit] or in [lock], or one request was cancelled
    while it slept in [lock]: [release] was skipped, so that nobody is left
    to release the global lock.  Of all these requests there is never a
    second one. *)
Theorem global_lock_has_one_holder (s : State) :
  reachable s →
  (global_lock s = true ↔
   (∃ t T, tasks s !! t = Some T ∧ holds_global (pc T) = true)
   ∨ (∃ t T since d, tasks s !! t = Some T
                     ∧ pc T = Cancelled (HardSleep since d)))
  ∧ (∀ t1 t2 T1 T2,
       tasks s !! t1 = Some T1 → tasks s !! t2 = Some T2 →
       owns_global (pc T1) = true → owns_global (pc T2) = true →
       t1 = t2).
Proof.
  intros Hr. pose proof (reachable_Inv s Hr) as HI.
  pose proof (reachable_Inv2 s Hr) as HJ. split; [split|].
  - intros Hg.
    destruct (inv_global_owner _ _ _ _ _ HJ Hg) as (t & T & Ht & Ho).
    unfold owns_global in Ho. apply orb_true_iff in Ho as [Hh|Ha].
    + left. by exists t, T.
    + right. destruct (pc T) as [| | | | | | | | | |p] eqn:Hpc;
        try discriminate Ha.
      destruct p; try discriminate Ha. by exists t, T, since, d.
  - intros [(t & T & Ht & Hh)|(t & T & since & d & Ht & Hpc)].
    + eapply (inv_global_locked _ _ _ _ _ _ HI t T); [done|].
      by apply holds_owns_global.
    + eapply (inv_global_locked _ _ _ _ _ _ HI t T); [done|].
      by rewrite Hpc.
  - apply (inv_one_global _ _ _ _ _ _ HI).
Qed.

Lemma global_lock_has_one_holder_witness :
  ∃ s T,
    run client0 hard_lock_trace = Some s
    ∧ global_lock s = true
    ∧ tasks s !! 0 = Some T ∧ holds_global (pc T) = true
    ∧ ∀ t2 T2, tasks s !! t2 = Some T2 → owns_global (pc T2) = true →
               t2 = 0.
Proof.
  destruct (run client0 hard_lock_trace) as [s|] eqn:Hrun;
    vm_compute in Hrun; [|discriminate Hrun].
  assert (Hreach : reachable s) by reached hard_lock_trace Hrun.
  injection Hrun as Hs0.
  destruct (global_lock_has_one_holder s Hreach) as [_ Hone].
  eexists s, _. split; [reflexivity|]. split; [by subst s|].
  assert (Ht : tasks s !! 0
               = Some (mkTask pins_route None FilesNone
                         (set_body DataNone
                            (assemble "DiscordBot" (Some "token") None None
                               FilesNone None no_kwargs))
                         0 0 (HardSleep 0 (FFin (5 # 2))))).
  { subst s. vm_compute. reflexivity. }
  split; [exact Ht|]. split; [reflexivity|].
  intros t2 T2 H2 Hh. by apply (Hone t2 0 T2 _ H2 Ht Hh).
Defined.

(** X4: [for attempt in range(self._max_attempts)]: no request is ever
    in an attempt beyond the third. *)
Theorem attempts_are_bounded (s : State) (t : task_id) (T : Task) :
  reachable s → tasks s !! t = Some T → attempt T < _max_attempts.
Proof.
  intros Hr Ht. by eapply (inv_attempt _ _ _ _ _ (reachable_Inv2 s Hr)).
Qed.

Lemma attempts_are_bounded_witness :
  ∃ s T,
    run client0 deferred_trace = Some s
    ∧ tasks s !! 0 = Some T ∧ attempt T < 3.
Proof.
  destruct (run client0 deferred_trace) as [s|] eqn:Hrun;
    vm_compute in Hrun; [|discriminate Hrun].
  assert (Hreach : reachable s) by reached deferred_trace Hrun.
  injection Hrun as Hs0.
  eexists s, _. split; [reflexivity|].
  assert (Ht : tasks s !! 0
               = Some (mkTask messages_route None FilesNone
                         (set_body DataNone
                            (assemble "DiscordBot" (Some "token") None None
                               FilesNone None no_kwargs))
                         0 0 (DeferSleep 0 (FFin (3 # 2))))).
  { subst s. vm_compute. reflexivity. }
  split; [exact Ht|].
  exact (attempts_are_bounded s 0 _ Hreach Ht).
Defined.

(** ** Releasing the locks *)

(** X5: releasing a lock never fails.  When a request wakes up in
    [rate_limit], in [GlobalLock.lock], in [defer_unlock] or from a retry
    sleep, it does not end with the [RuntimeError] of
    [asyncio.Lock.release] on a lock that is not acquired; and when the
    [call_later] callback of [blind_defer_unlock] runs, it finds its lock
    acquired and releases it. *)
Theorem lock_release_never_raises (s s' : State) (e : Event) :
  reachable s → step s e = Some s' →
  match e with
  | ThrottleWoke t _ _ _ | Woke t =>
      ∀ T', tasks s' !! t = Some T' →
            pc T' ≠ Finished (Raised (Python RuntimeError))
  | TimerFired i =>
      ∃ tm L, timers s !! i = Some tm ∧ heap s !! tm_lock tm = Some L
              ∧ locked L = true
              ∧ heap s' !! tm_lock tm = Some (set_locked false L)
  | _ => True
  end.
Proof.
  intros Hr Hstep. pose proof (reachable_Inv s Hr) as HI.
  unfold Inv in HI. destruct e; try exact I; simpl in Hstep.
  - task_event Hstep T L Ht HL.
    destruct (pc T) eqn:Hpc; try discriminate Hstep.
    destruct (elapsed since d (now s)); [|discriminate Hstep].
    pose proof (inv_global_locked _ _ _ _ _ _ HI t T Ht) as Hgl.
    rewrite Hpc in Hgl. specialize (Hgl eq_refl). rewrite Hgl in Hstep.
    intros T' HT'.
    unfold after_throttle, raise_in_try, finish_with in Hstep.
    simpl in Hstep.
    destruct has_token; [destruct (session s); [destruct closed|]|];
      injection Hstep as <-;
      simpl in HT'; rewrite lookup_insert_eq in HT'; by injection HT' as <-.
  - task_event Hstep T L Ht HL. intros T' HT'.
    destruct (pc T) eqn:Hpc; try discriminate Hstep;
      (destruct (elapsed since d (now s)); [|discriminate Hstep]);
      simpl in Hstep.
    + pose proof (inv_global_locked _ _ _ _ _ _ HI t T Ht) as Hgl.
      rewrite Hpc in Hgl. specialize (Hgl eq_refl). rewrite Hgl in Hstep.
      injection Hstep as <-. unfold continue, finish_with in HT'.
      destruct (S (attempt T) <? _max_attempts)%nat; simpl in HT';
        rewrite lookup_insert_eq in HT'; by injection HT' as <-.
    + pose proof (inv_holder_locked _ _ _ _ _ _ HI t T L Ht) as Hlk.
      rewrite Hpc in Hlk. specialize (Hlk eq_refl HL).
      unfold unlock in Hstep. rewrite Hlk in Hstep.
      injection Hstep as <-. unfold continue, finish_with in HT'.
      destruct (S (attempt T) <? _max_attempts)%nat; simpl in HT';
        rewrite lookup_insert_eq in HT'; by injection HT' as <-.
    + injection Hstep as <-. unfold continue, finish_with in HT'.
      destruct (S (attempt T) <? _max_attempts)%nat; simpl in HT';
        rewrite lookup_insert_eq in HT'; by injection HT' as <-.
  - destruct (timers s !! i) as [tm|] eqn:Hi; [|discriminate Hstep].
    destruct (elapsed (tm_since tm) (tm_delay tm) (now s));
      [|discriminate Hstep]. simpl in Hstep.
    destruct (heap s !! tm_lock tm) as [L|] eqn:HL; [|discriminate Hstep].
    pose proof (inv_timer_locked _ _ _ _ _ _ HI i tm L Hi HL) as Hlk.
    unfold unlock in Hstep. rewrite Hlk in Hstep. injection Hstep as <-.
    exists tm, L. repeat split; try done. simpl. apply lookup_insert_eq.
Qed.

Lemma lock_release_never_raises_witness :
  ∃ s s' L,
    run client0 (exhausted_trace ++ [Advance 1]) = Some s
    ∧ step s (TimerFired 0) = Some s'
    ∧ heap s !! 0 = Some L ∧ locked L = true
    ∧ heap s' !! 0 = Some (set_locked false L).
Proof.
  destruct (run client0 (exhausted_trace ++ [Advance 1])) as [s|] eqn:Hrun;
    vm_compute in Hrun; [|discriminate Hrun].
  assert (Hreach : reachable s)
    by reached (exhausted_trace ++ [Advance 1])%list Hrun.
  injection Hrun as Hs0.
  destruct (step s (TimerFired 0)) as [s'|] eqn:Hstep;
    [|subst s; vm_compute in Hstep; discriminate Hstep].
  destruct (lock_release_never_raises s s' (TimerFired 0) Hreach Hstep)
    as (tm & L & Htm & HL & Hlk & HL').
  assert (tm_lock tm = 0) as Hz.
  { subst s. vm_compute in Htm. by injection Htm as <-. }
  rewrite Hz in HL, HL'.
  by exists s, s', L.
Defined.

(** X6: a request that is woken from [GlobalLock.lock], [defer_unlock]
    or a retry sleep ends its attempt: its BucketLock is released with
    [unlock_on_exit] up again; the request goes on with the next attempt,
    or, when that was the third attempt, [request] returns [None]: a 429
    or a server error in the last attempt is not raised. *)
Theorem woke_ends_attempt (s s' : State) (t : task_id) (T : Task) :
  reachable s → tasks s !! t = Some T → step s (Woke t) = Some s' →
  ∃ T' L',
    tasks s' !! t = Some T' ∧ heap s' !! lock T = Some L'
    ∧ locked L' = false ∧ unlock_on_exit L' = true
    ∧ (S (attempt T) < _max_attempts →
       pc T' = AcquireBucket ∧ attempt T' = S (attempt T))
    ∧ (S (attempt T) = _max_attempts → pc T' = Finished (Returned None)).
Proof.
  intros Hr Ht Hstep. pose proof (reachable_Inv s Hr) as HI.
  pose proof (reachable_Inv2 s Hr) as HJ. unfold Inv, Inv2 in *.
  simpl in Hstep. unfold with_task in Hstep. rewrite Ht in Hstep.
  destruct (heap s !! lock T) as [L|] eqn:HL; [|discriminate Hstep].
  assert (Hend : ∀ (L0 : BucketLock) (s0 : State),
            unlock_on_exit L0 && locked L0 = locked L0 →
            ∃ T' L',
              tasks (continue t T L0 s0) !! t = Some T'
              ∧ heap (continue t T L0 s0) !! lock T = Some L'
              ∧ locked L' = false ∧ unlock_on_exit L' = true
              ∧ (S (attempt T) < _max_attempts →
                 pc T' = AcquireBucket ∧ attempt T' = S (attempt T))
              ∧ (S (attempt T) = _max_attempts →
                 pc T' = Finished (Returned None))).
  { intros L0 s0 H0. unfold continue, finish_with.
    destruct (S (attempt T) <? _max_attempts)%nat eqn:Hlt;
      [apply Nat.ltb_lt in Hlt|apply Nat.ltb_ge in Hlt];
      eexists _, _; simpl; rewrite !lookup_insert_eq;
      (split; [reflexivity|]); (split; [reflexivity|]);
      unfold aexit; rewrite H0; unfold locked in *;
      destruct (_lock L0) eqn:H1; simpl; repeat split; try done; lia. }
  destruct (pc T) eqn:Hpc; try discriminate Hstep;
    holder_facts HI HJ t T L Ht HL Hpc;
    (destruct (elapsed since d (now s)); [|discriminate Hstep]);
    simpl in Hstep.
  - pose proof (inv_global_locked _ _ _ _ _ _ HI t T Ht) as Hgl.
    rewrite Hpc in Hgl. specialize (Hgl eq_refl). rewrite Hgl in Hstep.
    injection Hstep as <-. apply Hend. by rewrite Hfl.
  - unfold unlock in Hstep. rewrite Hlk in Hstep. injection Hstep as <-.
    apply Hend. simpl. apply andb_false_r.
  - injection Hstep as <-. apply Hend. by rewrite Hfl.
Qed.

Lemma woke_ends_attempt_witness :
  ∃ s s' T',
    run client0 (deferred_trace ++ [Advance (3 # 2)]) = Some s
    ∧ step s (Woke 0) = Some s'
    ∧ tasks s' !! 0 = Some T'
    ∧ pc T' = AcquireBucket ∧ attempt T' = 1.
Proof.
  destruct (run client0 (deferred_trace ++ [Advance (3 # 2)]))
    as [s|] eqn:Hrun; vm_compute in Hrun; [|discriminate Hrun].
  assert (Hreach : reachable s)
    by reached (deferred_trace ++ [Advance (3 # 2)])%list Hrun.
  injection Hrun as Hs0.
  destruct (step s (Woke 0)) as [s'|] eqn:Hstep;
    [|subst s; vm_compute in Hstep; discriminate Hstep].
  assert (Ht : tasks s !! 0
               = Some (mkTask messages_route None FilesNone
                         (set_body DataNone
                            (assemble "DiscordBot" (Some "token") None None
                               FilesNone None no_kwargs))
                         0 0 (DeferSleep 0 (FFin (3 # 2))))).
  { subst s. vm_compute. reflexivity. }
  destruct (woke_ends_attempt s s' 0 _ Hreach Ht Hstep)
    as (T' & L' & HT' & _ & _ & _ & Hnext & _).
  exists s, s', T'. split; [reflexivity|]. split; [exact Hstep|].
  split; [exact HT'|]. apply Hnext. vm_compute. lia.
Defined.

(** ** Sleeps and timers keep the lock *)

(** X7: while a request sleeps on a finite delay (in [rate_limit], in
    [GlobalLock.lock], in [defer_unlock] after a 429, or before a retry),
    the delay has not passed and the request is not cancelled, it stays
    asleep, its BucketLock stays acquired, and every other request that got
    the same BucketLock is outside [async with lock]: none of them
    sends. *)
Theorem sleeping_request_keeps_its_lock (s s' : State) (es : list Event)
    (w : task_id) (W : Task) (since q : Q) :
  reachable s →
  tasks s !! w = Some W → sleeping (pc W) = Some (since, FFin q) →
  run s es = Some s' → Cancel w ∉ es → (now s' < since + q)%Q →
  tasks s' !! w = Some W
  ∧ (∃ L, heap s' !! lock W = Some L ∧ locked L = true)
  ∧ (∀ t T, tasks s' !! t = Some T → lock T = lock W → t ≠ w →
       holds_bucket (pc T) = false).
Proof.
  intros Hr Hw Hsl Hrun Hcancel Hwin.
  pose proof (reachable_Inv s' (reachable_run s s' es Hr Hrun)) as HI.
  pose proof (run_sleeper es s s' w W since q Hrun Hcancel Hw Hsl Hwin)
    as Hw'.
  assert (Hh : owns_bucket (pc W) = true).
  { by destruct (pc W). }
  split; [exact Hw'|]. split.
  - destruct (inv_heap _ _ _ _ _ _ HI (lock W)) as [L HL].
    { by eapply inv_task_lock. }
    exists L. split; [done|].
    by eapply (inv_holder_locked _ _ _ _ _ _ HI w W).
  - intros t T Ht Hl Hne. destruct (holds_bucket (pc T)) eqn:HhT; [|done].
    exfalso. apply Hne. apply holds_owns_bucket in HhT.
    by eapply (inv_one_holder _ _ _ _ _ _ HI t w T W).
Qed.

Lemma sleeping_request_keeps_its_lock_witness :
  ∃ s s' T1,
    run client0 deferred_trace = Some s
    ∧ run s half_a_second = Some s'
    ∧ (now s' == 1 # 2)%Q
    ∧ tasks s' !! 1 = Some T1 ∧ lock T1 = 0
    ∧ holds_bucket (pc T1) = false.
Proof.
  destruct (run client0 deferred_trace) as [s|] eqn:Hrun;
    vm_compute in Hrun; [|discriminate Hrun].
  assert (Hreach : reachable s) by reached deferred_trace Hrun.
  injection Hrun as Hs0.
  destruct (run s half_a_second) as [s'|] eqn:Hrun';
    [|subst s; vm_compute in Hrun'; discriminate Hrun'].
  assert (Hnow : (now s' == 1 # 2)%Q).
  { subst s. vm_compute in Hrun'. injection Hrun' as <-. reflexivity. }
  assert (Ht1 : tasks s' !! 1
                = Some (mkTask messages_route None FilesNone
                          (assemble "DiscordBot" (Some "token") None None
                             FilesNone None no_kwargs)
                          0 0 AcquireBucket)).
  { subst s. vm_compute in Hrun'. injection Hrun' as <-.
    vm_compute. reflexivity. }
  edestruct (sleeping_request_keeps_its_lock s s' half_a_second 0)
    with (since := 0%Q) (q := 3 # 2) as (_ & _ & Hothers);
    [ exact Hreach | subst s; vm_compute; reflexivity | reflexivity
    | exact Hrun'
    | intros Hin; repeat (apply elem_of_cons in Hin as [Hin|Hin];
                          [discriminate Hin|]); by apply elem_of_nil in Hin
    | rewrite Hnow; reflexivity | ].
  eexists s, s', _. split; [reflexivity|]. split; [exact Hrun'|].
  split; [exact Hnow|]. split; [exact Ht1|]. split; [reflexivity|].
  apply (Hothers 1 _ Ht1); [reflexivity|discriminate].
Defined.

(** X8: when a response other than a 429 leaves nothing remaining in the
    bucket, the call ends at once with the outcome of the status check,
    and for the reset delay of the header nobody sends on that
    BucketLock: until the delay has passed, the lock stays acquired and
    every request that got it is outside [async with lock]. *)
Theorem exhausted_bucket_stays_locked (s s1 s' : State) (es : list Event)
    (t : task_id) (T : Task) (L L' : BucketLock) (status : Z)
    (header : Header) (result : Decoded) (q : Q) :
  reachable s →
  tasks s !! t = Some T → heap s !! lock T = Some L → pc T = Sending →
  ingest_ratelimit_header header L = (L', None) →
  remaining L' = 0%Z → delta L' = FFin q → status ≠ 429%Z →
  step s (Response t status header result) = Some s1 →
  run s1 es = Some s' → (now s' < now s + q)%Q →
  (pc <$> tasks s1 !! t)
  = Some (Finished (status_check status (route T) result))
  ∧ (∃ L'', heap s' !! lock T = Some L'' ∧ locked L'' = true)
  ∧ (∀ t2 T2, tasks s' !! t2 = Some T2 → lock T2 = lock T →
       holds_bucket (pc T2) = false).
Proof.
  intros Hr Ht HL Hpc Hi Hrem Hdelta Hst Hstep Hrun Hwin.
  assert (Hr' : reachable s').
  { apply (reachable_run s s' (Response t status header result :: es) Hr).
    cbn [run]. by rewrite Hstep. }
  pose proof (reachable_Inv s' Hr') as HI.
  rewrite (step_Response s t T L) in Hstep by done.
  injection Hstep as Hs1. unfold on_response in Hs1.
  destruct (ingest_ratelimit_ok (route T) header (lock T) L L' s Hi)
    as (s0 & Hi0 & Hts & Hh & Htm & Hnow & _).
  rewrite Hi0 in Hs1.
  assert (Hv : interpret status result L' = BlindDeferUnlock).
  { unfold interpret. apply Z.eqb_neq in Hst. by rewrite Hst, Hrem. }
  rewrite Hv in Hs1. unfold blind_defer_unlock, finish_with in Hs1.
  assert (Htimer : timers s1 !! length (timers s)
                   = Some (mkTimer (lock T) (now s) (FFin q))).
  { subst s1. simpl. rewrite Htm, Hnow, Hdelta. by apply list_lookup_middle. }
  destruct (run_timer es s1 s' _ _ q Hrun Htimer eq_refl Hwin) as [j Hj].
  split; [|split].
  - subst s1. simpl. by rewrite lookup_insert_eq.
  - destruct (inv_heap _ _ _ _ _ _ HI (lock T)) as [L'' HL''].
    { exact (inv_timer_lock _ _ _ _ _ _ HI j _ Hj). }
    exists L''. split; [done|].
    exact (inv_timer_locked _ _ _ _ _ _ HI j _ L'' Hj HL'').
  - intros t2 T2 Ht2 Hl. destruct (holds_bucket (pc T2)) eqn:Hh2; [|done].
    exfalso. apply holds_owns_bucket in Hh2.
    by apply (inv_holder_no_timer _ _ _ _ _ _ HI t2 T2 j _ Ht2 Hh2 Hj).
Qed.

Lemma exhausted_bucket_stays_locked_witness :
  ∃ s s1 s' T1,
    run client0 sending_trace = Some s
    ∧ step s (Response 0 200 exhausted_header error_page) = Some s1
    ∧ run s1 (call 1 messages_route None FilesNone :: half_a_second)
      = Some s'
    ∧ (pc <$> tasks s1 !! 0) = Some (Finished (Returned (Some error_page)))
    ∧ tasks s' !! 1 = Some T1 ∧ lock T1 = 0
    ∧ holds_bucket (pc T1) = false.
Proof.
  destruct (run client0 sending_trace) as [s|] eqn:Hrun;
    vm_compute in Hrun; [|discriminate Hrun].
  assert (Hreach : reachable s) by reached sending_trace Hrun.
  injection Hrun as Hs0.
  destruct (step s (Response 0 200 exhausted_header error_page))
    as [s1|] eqn:Hstep; [|subst s; vm_compute in Hstep; discriminate Hstep].
  destruct (run s1 (call 1 messages_route None FilesNone :: half_a_second))
    as [s'|] eqn:Hrun';
    [|subst s; vm_compute in Hstep; injection Hstep as <-;
      vm_compute in Hrun'; discriminate Hrun'].
  assert (Hs' : now s' = 1 # 2
                ∧ tasks s' !! 1
                  = Some (mkTask messages_route None FilesNone
                            (assemble "DiscordBot" (Some "token") None None
                               FilesNone None no_kwargs)
                            0 0 AcquireBucket)).
  { subst s. vm_compute in Hstep. injection Hstep as <-.
    vm_compute in Hrun'. injection Hrun' as <-. split; vm_compute; reflexivity. }
  destruct Hs' as [Hnow Ht1].
  edestruct (exhausted_bucket_stays_locked s s1 s'
               (call 1 messages_route None FilesNone :: half_a_second) 0)
    with (status := 200%Z) (header := exhausted_header)
         (result := error_page) (q := 1%Q)
    as (Hend & _ & Hothers);
    [ exact Hreach | subst s; vm_compute; reflexivity
    | subst s; vm_compute; reflexivity | reflexivity
    | vm_compute; reflexivity | reflexivity | reflexivity | discriminate
    | exact Hstep | exact Hrun' | rewrite Hnow; subst s; reflexivity | ].
  eexists s, s1, s', _. split; [reflexivity|]. split; [exact Hstep|].
  split; [exact Hrun'|]. split; [exact Hend|]. split; [exact Ht1|].
  split; [reflexivity|]. by apply (Hothers 1 _ Ht1).
Defined.

(** ** The registry of the locks *)

Lemma ingest_ratelimit_header_hash (header : Header) (L : BucketLock) :
  bucket_hash (ingest_ratelimit_header header L).1
  = header_get header "x-ratelimit-bucket".
Proof.
  unfold ingest_ratelimit_header.
  destruct (int_or_minus_one (header_get header "x-ratelimit-limit")); [|done].
  destruct (int_or_minus_one (header_get header "x-ratelimit-remaining"));
    [|done].
  by destruct (float_or_zero (header_get header "x-ratelimit-reset-after")).
Qed.

(** X9: [ingest_ratelimit] and [get_ratelimit] fit together: once a
    response with a bucket hash has been ingested for a route, the next
    [get_ratelimit] of that route, and of every route with the same
    [rl_bucket], returns that very BucketLock and creates no new one. *)
Theorem ingested_route_gets_its_lock (route : Route) (header : Header)
    (l : lock_id) (L L' : BucketLock) (s s' : State) :
  ingest_ratelimit route header l L s = (s', L', None) →
  opt_truthy (header_get header "x-ratelimit-bucket") = true →
  ∀ route', rl_bucket route' = rl_bucket route →
            get_ratelimit route' s' = (l, s').
Proof.
  intros Hi Hh route' Hb. unfold ingest_ratelimit in Hi.
  pose proof (ingest_ratelimit_header_hash header L) as Hhash.
  destruct (ingest_ratelimit_header header L) as [L1 e1]. simpl in Hhash.
  destruct e1 as [e1|]; [discriminate Hi|].
  rewrite Hhash, Hh in Hi. injection Hi as <- <-.
  unfold get_ratelimit. simpl. rewrite Hb, lookup_insert_eq.
  destruct (header_get header "x-ratelimit-bucket") as [h|]; [|done].
  simpl in *. by rewrite Hh, lookup_insert_eq.
Qed.

Lemma ingested_route_gets_its_lock_witness :
  ∃ s' L',
    ingest_ratelimit messages_route exhausted_header 7 new_BucketLock client0
    = (s', L', None)
    ∧ get_ratelimit messages_route s' = (7, s').
Proof.
  destruct (ingest_ratelimit messages_route exhausted_header 7 new_BucketLock
              client0) as [[s' L'] e] eqn:Hi.
  assert (e = None) as ->.
  { vm_compute in Hi. by injection Hi as _ _ <-. }
  exists s', L'. split; [reflexivity|].
  by apply (ingested_route_gets_its_lock messages_route exhausted_header 7
              new_BucketLock L' client0 s' Hi).
Defined.

(** X10: [get_ratelimit] either returns a lock found in the registry and
    changes nothing, or it makes a BucketLock that nobody shares: the
    object is new, it is not acquired, no request holds it or waits for
    it, no timer refers to it and the registry does not know it. *)
Theorem get_ratelimit_cached_or_unshared (route : Route) (s s' : State)
    (l : lock_id) :
  reachable s → get_ratelimit route s = (l, s') →
  (s' = s
   ∧ ∃ h, _endpoints s !! rl_bucket route = Some h
          ∧ ratelimit_locks s !! h = Some l)
  ∨ (heap s !! l = None ∧ heap s' !! l = Some new_BucketLock
     ∧ (∀ l0, l0 ≠ l → heap s' !! l0 = heap s !! l0)
     ∧ (∀ t T, tasks s' !! t = Some T → lock T ≠ l)
     ∧ (∀ i tm, timers s' !! i = Some tm → tm_lock tm ≠ l)
     ∧ (∀ h, ratelimit_locks s' !! h ≠ Some l)).
Proof.
  intros Hr Hg. pose proof (reachable_Inv s Hr) as HI.
  pose proof (reachable_Inv2 s Hr) as HJ. unfold Inv, Inv2 in *.
  assert (Hfresh :
    get_ratelimit route s
    = (next_lock s,
       set_heap (<[next_lock s := new_BucketLock]> (heap s))
                (S (next_lock s)) s) →
    heap s !! l = None ∧ heap s' !! l = Some new_BucketLock
    ∧ (∀ l0, l0 ≠ l → heap s' !! l0 = heap s !! l0)
    ∧ (∀ t T, tasks s' !! t = Some T → lock T ≠ l)
    ∧ (∀ i tm, timers s' !! i = Some tm → tm_lock tm ≠ l)
    ∧ (∀ h, ratelimit_locks s' !! h ≠ Some l)).
  { rewrite Hg. intros Heq. injection Heq as -> ->. simpl.
    split; [|split; [apply lookup_insert_eq|split; [|split; [|split]]]].
    - destruct (heap s !! next_lock s) eqn:Hn; [|done].
      pose proof (inv_heap_dom _ _ _ _ _ HJ _ _ Hn). lia.
    - intros l0 Hne. by rewrite lookup_insert_ne.
    - intros t T Ht Heq.
      pose proof (inv_task_lock _ _ _ _ _ _ HI t T Ht). lia.
    - intros i tm Hi Heq.
      pose proof (inv_timer_lock _ _ _ _ _ _ HI i tm Hi). lia.
    - intros h0 Hh0.
      pose proof (inv_registry _ _ _ _ _ _ HI h0 _ Hh0). lia. }
  unfold get_ratelimit in Hfresh, Hg.
  destruct (_endpoints s !! rl_bucket route) as [h|] eqn:He;
    [destruct (str_truthy h);
     [destruct (ratelimit_locks s !! h) as [l0|] eqn:Hl|]|];
    try (right; by apply Hfresh).
  injection Hg as <- <-. left. split; [done|]. by exists h.
Qed.

Lemma get_ratelimit_cached_or_unshared_witness :
  ∃ s l s',
    run client0 sending_trace = Some s
    ∧ get_ratelimit pins_route s = (l, s')
    ∧ heap s !! l = None ∧ heap s' !! l = Some new_BucketLock
    ∧ ∀ t T, tasks s' !! t = Some T → lock T ≠ l.
Proof.
  destruct (run client0 sending_trace) as [s|] eqn:Hrun;
    vm_compute in Hrun; [|discriminate Hrun].
  assert (Hreach : reachable s) by reached sending_trace Hrun.
  injection Hrun as Hs0.
  destruct (get_ratelimit pins_route s) as [l s'] eqn:Hg.
  exists s, l, s'. split; [reflexivity|]. split; [exact Hg|].
  destruct (get_ratelimit_cached_or_unshared pins_route s s' l Hreach Hg)
    as [[_ (h & He & _)]|(Hnew & Hl & _ & Hts & _)].
  - subst s. vm_compute in He. discriminate He.
  - by repeat split.
Defined.

Lemma step_endpoints (s s' : State) (e : Event) (k : string) :
  step s e = Some s' →
  is_Some (_endpoints s !! k) → is_Some (_endpoints s' !! k).
Proof.
  intros Hstep Hk. destruct e; simpl in Hstep.
  1: { destruct (tasks s !! t) eqn:Ht; [discriminate Hstep|].
       unfold get_ratelimit in Hstep. repeat case_match;
         by simplify_eq. }
  1-9: unfold with_task in Hstep;
    destruct (tasks s !! t) as [T|] eqn:Ht; [|discriminate Hstep];
    (destruct (heap s !! lock T) as [L|]; [|discriminate Hstep]);
    unfold on_response, ingest_ratelimit, blind_defer_unlock, defer_unlock,
      raise_in_try, continue, finish_with, after_throttle, send, unlock
      in Hstep;
    repeat case_match; simplify_eq; simpl;
    first [exact Hk | rewrite lookup_insert_is_Some;
                      destruct (decide (rl_bucket (route T) = k)); auto].
  - repeat case_match; by simplify_eq.
  - repeat case_match; by simplify_eq.
  - repeat case_match; by simplify_eq.
  - by simplify_eq.
  - unfold with_task, cancel_in, raise_in_try, finish_with in Hstep.
    repeat case_match; by simplify_eq.
Qed.

(** X11: [_endpoints] only grows: whatever the client does afterwards, a
    route whose bucket hash has been recorded keeps an entry (the
    BucketLock of the hash may go from the weak dictionary, the hash of
    the route stays). *)
Theorem endpoints_are_never_forgotten (es : list Event) (s s' : State)
    (k : string) :
  run s es = Some s' →
  is_Some (_endpoints s !! k) → is_Some (_endpoints s' !! k).
Proof.
  revert s. induction es as [|e es IH]; intros s Hrun Hk; simpl in Hrun.
  - by injection Hrun as <-.
  - destruct (step s e) as [s1|] eqn:Hstep; [|discriminate Hrun].
    eapply IH; [exact Hrun|]. by eapply step_endpoints.
Qed.

Lemma endpoints_are_never_forgotten_witness :
  ∃ s s',
    run client0
      (sending_trace ++ [Response 0 200 exhausted_header error_page])
    = Some s
    ∧ run s [Advance 1; TimerFired 0; Collect "abcd1234"] = Some s'
    ∧ ratelimit_locks s' !! "abcd1234" = None
    ∧ is_Some (_endpoints s' !! rl_bucket messages_route).
Proof.
  destruct (run client0
              (sending_trace ++ [Response 0 200 exhausted_header error_page]))
    as [s|] eqn:Hrun; vm_compute in Hrun; [|discriminate Hrun].
  injection Hrun as Hs0.
  destruct (run s [Advance 1; TimerFired 0; Collect "abcd1234"])
    as [s'|] eqn:Hrun';
    [|subst s; vm_compute in Hrun'; discriminate Hrun'].
  exists s, s'. split; [reflexivity|]. split; [exact Hrun'|]. split.
  - subst s. vm_compute in Hrun'. by injection Hrun' as <-.
  - apply (endpoints_are_never_forgotten _ s s' _ Hrun').
    subst s. vm_compute. by eexists.
Defined.

(** ** request: how an attempt ends *)

(** X12: a response that is not a 429 and not a 500, 502 or 504, with
    calls remaining in the bucket, ends the call in the same step: a
    status from 200 to 299 returns the decoded body, any other raises the
    error of [_raise_exception]; the BucketLock is released on the way
    out and no timer is set. *)
Theorem plain_response_ends_the_call (s : State) (t : task_id) (T : Task)
    (L L' : BucketLock) (status : Z) (header : Header) (result : Decoded) :
  reachable s →
  tasks s !! t = Some T → heap s !! lock T = Some L → pc T = Sending →
  ingest_ratelimit_header header L = (L', None) → remaining L' ≠ 0%Z →
  status ≠ 429%Z → is_server_issue status = false →
  ∃ s' L'' r,
    step s (Response t status header result) = Some s'
    ∧ tasks s' !! t = Some (set_pc (Finished r) T)
    ∧ heap s' !! lock T = Some L''
    ∧ locked L'' = false ∧ unlock_on_exit L'' = true
    ∧ timers s' = timers s
    ∧ ((200 <= status < 300)%Z → r = Returned (Some result))
    ∧ (¬ (200 <= status < 300)%Z →
       r = Raised (_raise_exception status (route T) result)).
Proof.
  intros Hr Ht HL Hpc Hi Hrem Hst Hsrv.
  pose proof (reachable_Inv s Hr) as HI.
  pose proof (reachable_Inv2 s Hr) as HJ. unfold Inv, Inv2 in *.
  holder_facts HI HJ t T L Ht HL Hpc.
  pose proof (ingest_ratelimit_header_lock header L) as [Hl1 Hf1].
  rewrite Hi in Hl1, Hf1. simpl in Hl1, Hf1. rewrite Hlk in Hl1.
  rewrite Hfl in Hf1.
  rewrite (step_Response s t T L) by done. unfold on_response.
  destruct (ingest_ratelimit_ok (route T) header (lock T) L L' s Hi)
    as (s0 & -> & Hts & Hh & Htm & Hnow & _).
  assert (Hv : interpret status result L' = NoRow).
  { unfold interpret. apply Z.eqb_neq in Hst, Hrem.
    by rewrite Hst, Hrem, Hsrv. }
  rewrite Hv. unfold finish_with.
  eexists _, _, _. split; [reflexivity|]. simpl.
  rewrite Hts, Htm, !lookup_insert_eq. split; [reflexivity|].
  split; [reflexivity|]. unfold aexit, locked. rewrite Hf1, Hl1. simpl.
  repeat split; try done.
  - intros [H1 H2]. unfold status_check.
    apply Z.ltb_lt in H2. apply Z.leb_le in H1. by rewrite H1, H2.
  - intros Hn. unfold status_check.
    destruct (status <? 300)%Z eqn:H2; [|done].
    destruct (200 <=? status)%Z eqn:H1; [|done].
    apply Z.ltb_lt in H2. apply Z.leb_le in H1. lia.
Qed.

Lemma plain_response_ends_the_call_witness :
  ∃ s s',
    run client0 sending_trace = Some s
    ∧ step s (Response 0 404 shared_hash_header error_page) = Some s'
    ∧ (pc <$> tasks s' !! 0)
      = Some (Finished (Raised (HTTPError NotFound 404 error_page
                                  messages_route)))
    ∧ (locked <$> heap s' !! 0) = Some false.
Proof.
  destruct (run client0 sending_trace) as [s|] eqn:Hrun;
    vm_compute in Hrun; [|discriminate Hrun].
  assert (Hreach : reachable s) by reached sending_trace Hrun.
  injection Hrun as Hs0.
  edestruct (plain_response_ends_the_call s 0) with
    (status := 404%Z) (header := shared_hash_header) (result := error_page)
    as (s' & L'' & r & Hs & Ht & HL & Hlk & _ & _ & _ & Hraise);
    [ exact Hreach | subst s; vm_compute; reflexivity
    | subst s; vm_compute; reflexivity | reflexivity
    | vm_compute; reflexivity | discriminate | discriminate | reflexivity | ].
  exists s, s'. split; [reflexivity|]. split; [exact Hs|]. split.
  - etrans; [exact (f_equal (fmap pc) Ht)|]. simpl.
    rewrite Hraise by lia. reflexivity.
  - etrans; [exact (f_equal (fmap locked) HL)|]. simpl. by rewrite Hlk.
Defined.

(** X13: a 429 is never handed to the caller: after a response with
    status 429 the request waits for the hard lock of the Global Lock, or
    sleeps in [defer_unlock] from that moment on, or ends with the Python
    exception raised while the headers or the body were read; it neither
    returns the body nor raises an HTTP error. *)
Theorem rate_limited_response_is_not_passed_on (s s' : State) (t : task_id)
    (header : Header) (result : Decoded) :
  step s (Response t 429 header result) = Some s' →
  ∃ T',
    tasks s' !! t = Some T'
    ∧ ((∃ d, pc T' = AcquireHard d)
       ∨ (∃ d, pc T' = DeferSleep (now s) d)
       ∨ (∃ e, pc T' = Finished (Raised (Python e))
               ∧ e ∈ malformed_response)).
Proof.
  intros Hstep. simpl in Hstep. unfold with_task in Hstep.
  destruct (tasks s !! t) as [T|] eqn:Ht; [|discriminate Hstep].
  destruct (heap s !! lock T) as [L|] eqn:HL; [|discriminate Hstep].
  destruct (pc T) eqn:Hpc; try discriminate Hstep.
  injection Hstep as <-. unfold on_response.
  assert (Hnow : ∀ s0 L0 e0,
            ingest_ratelimit (route T) header (lock T) L s = (s0, L0, e0) →
            now s0 = now s ∧ (e0 = None ∨ e0 = Some ValueError)).
  { unfold ingest_ratelimit, ingest_ratelimit_header.
    intros s0 L0 e0 H0. repeat case_match; simplify_eq; auto. }
  destruct (ingest_ratelimit (route T) header (lock T) L s)
    as [[s0 L0] e0] eqn:Hi.
  destruct (Hnow s0 L0 e0 eq_refl) as [Hn [-> | ->]].
  - unfold interpret, retry_after_of, float_of_jvalue, defer_unlock.
    simpl. unfold raise_in_try, finish_with.
    repeat case_match; simplify_eq; simpl; rewrite lookup_insert_eq;
      eexists; (split; [reflexivity|]); simpl; rewrite ?Hn;
      first [ left; by eexists
            | right; left; by eexists
            | right; right; eexists; split; [reflexivity|];
              unfold malformed_response;
              repeat first [apply list_elem_of_here
                           |apply list_elem_of_further] ].
  - unfold raise_in_try, finish_with. simpl. rewrite lookup_insert_eq.
    eexists. split; [reflexivity|]. right. right. eexists.
    split; [reflexivity|]. apply list_elem_of_here.
Qed.

Lemma rate_limited_response_is_not_passed_on_witness :
  ∃ s s' T',
    run client0 sending_trace = Some s
    ∧ step s (Response 0 429 [] error_page) = Some s'
    ∧ tasks s' !! 0 = Some T'
    ∧ pc T' = Finished (Raised (Python AttributeError)).
Proof.
  destruct (run client0 sending_trace) as [s|] eqn:Hrun;
    vm_compute in Hrun; [|discriminate Hrun].
  injection Hrun as Hs0.
  destruct (step s (Response 0 429 [] error_page)) as [s'|] eqn:Hstep;
    [|subst s; vm_compute in Hstep; discriminate Hstep].
  destruct (rate_limited_response_is_not_passed_on s s' 0 [] error_page Hstep)
    as (T' & HT' & Hcases).
  exists s, s', T'. split; [reflexivity|]. split; [exact Hstep|].
  split; [exact HT'|].
  subst s. vm_compute in Hstep. injection Hstep as <-.
  vm_compute in HT'. injection HT' as <-. reflexivity.
Defined.

(** X14: an exception raised while the request is sent.  A connection
    reset ([OSError] with errno 54 or 10054) before the last attempt is
    answered by a sleep of [1 + attempt * 2] seconds, with the BucketLock
    kept; every other exception, and a connection reset in the last
    attempt, reaches the caller as it is, and the BucketLock is
    released. *)
Theorem send_error_is_retried_or_raised (s : State) (t : task_id) (T : Task)
    (L : BucketLock) (e : PyExn) :
  reachable s →
  tasks s !! t = Some T → heap s !! lock T = Some L → pc T = Sending →
  ∃ s',
    step s (SendRaised t e) = Some s'
    ∧ (∀ errno, e = OSError errno → (errno = 54 ∨ errno = 10054)%Z →
         attempt T < _max_attempts - 1 →
         tasks s' !! t
         = Some (set_pc (RetrySleep (now s) (backoff (attempt T))) T)
         ∧ heap s' !! lock T = Some L ∧ locked L = true)
    ∧ ((∀ errno, e = OSError errno →
          (errno ≠ 54 ∧ errno ≠ 10054)%Z ∨ attempt T = _max_attempts - 1) →
       tasks s' !! t = Some (set_pc (Finished (Raised (Python e))) T)
       ∧ ∃ L', heap s' !! lock T = Some L'
               ∧ locked L' = false ∧ unlock_on_exit L' = true).
Proof.
  intros Hr Ht HL Hpc.
  pose proof (reachable_Inv s Hr) as HI.
  pose proof (reachable_Inv2 s Hr) as HJ. unfold Inv, Inv2 in *.
  holder_facts HI HJ t T L Ht HL Hpc.
  simpl. rewrite (step_with_task s t T L) by done. rewrite Hpc.
  eexists. split; [reflexivity|].
  assert (Hraise :
    tasks (finish_with (Raised (Python e)) t T L s) !! t
    = Some (set_pc (Finished (Raised (Python e))) T)
    ∧ ∃ L', heap (finish_with (Raised (Python e)) t T L s) !! lock T = Some L'
            ∧ locked L' = false ∧ unlock_on_exit L' = true).
  { unfold finish_with. simpl. rewrite !lookup_insert_eq. split; [done|].
    eexists. split; [reflexivity|]. unfold aexit, locked.
    by rewrite Hfl, Hlk. }
  split.
  - intros errno -> Herrno Hlt. unfold raise_in_try.
    apply Nat.ltb_lt in Hlt. rewrite Hlt.
    assert (((errno =? 54)%Z || (errno =? 10054)%Z) = true) as -> by lia.
    simpl. by rewrite !lookup_insert_eq.
  - intros Hno. unfold raise_in_try. destruct e; try exact Hraise.
    destruct (Hno errno eq_refl) as [[H1 H2]|Hlast].
    + apply Z.eqb_neq in H1, H2. rewrite H1, H2, andb_false_r.
      exact Hraise.
    + rewrite Hlast, Nat.ltb_irrefl. exact Hraise.
Qed.

Lemma send_error_is_retried_or_raised_witness :
  ∃ s s',
    run client0 sending_trace = Some s
    ∧ step s (SendRaised 0 (OSError 54)) = Some s'
    ∧ (pc <$> tasks s' !! 0) = Some (RetrySleep 0 (FFin 1)).
Proof.
  destruct (run client0 sending_trace) as [s|] eqn:Hrun;
    vm_compute in Hrun; [|discriminate Hrun].
  assert (Hreach : reachable s) by reached sending_trace Hrun.
  injection Hrun as Hs0.
  edestruct (send_error_is_retried_or_raised s 0) with (e := OSError 54)
    as (s' & Hs & Hretry & _);
    [ exact Hreach | subst s; vm_compute; reflexivity
    | subst s; vm_compute; reflexivity | reflexivity | ].
  exists s, s'. split; [reflexivity|]. split; [exact Hs|].
  destruct (Hretry 54%Z eq_refl) as (Ht & _); [by left|vm_compute; lia|].
  etrans; [exact (f_equal (fmap pc) Ht)|]. subst s. reflexivity.
Defined.

(** ** login *)

(** X15: [login] after the status check of [request]: a status from 200
    to 299 returns the body, the status 401 raises [LoginError] (caused by
    the [HTTPException]), and every other status raises the error of
    [_raise_exception] unchanged, whichever of the error classes derive
    from [HTTPException]. *)
Theorem login_after_status_check (subclass : HTTPErrorKind → bool)
    (status : Z) (route : Route) (result : Decoded) :
  login subclass (status_check status route result)
  = if (200 <=? status)%Z && (status <? 300)%Z
    then LoginReturns (Some result)
    else if (status =? 401)%Z
         then LoginError (HTTPError HTTPException 401 result route)
         else LoginRaises (_raise_exception status route result).
Proof.
  unfold status_check.
  destruct (200 <=? status)%Z eqn:H1, (status <? 300)%Z eqn:H2; simpl;
    try reflexivity.
  all: destruct (status =? 401)%Z eqn:H401.
  all: try (apply Z.eqb_eq in H401; subst status;
            first [discriminate H1 | discriminate H2 | reflexivity]).
  all: unfold _raise_exception;
    destruct (status =? 403)%Z, (status =? 404)%Z, (500 <=? status)%Z;
    simpl; rewrite ?H401; try reflexivity;
    by case_match.
Qed.

(** ** _ws_connect: the other ways out *)

(** X16: what [_ws_connect] does not handle it raises again unchanged: a
    [WebSocketClosed] with a code other than 4011, 4013 and 4014, and
    anything that is not an [Exception]; the [except] clauses then
    dispatch and log nothing. *)
Theorem ws_connect_reraises_the_rest (self : ConnectionState)
    (enter run : Completion) (e : GwExn) :
  raises e enter run →
  (∀ code, e = WebSocketClosed code →
           code ≠ 4011%Z ∧ code ≠ 4013%Z ∧ code ≠ 4014%Z) →
  (∀ name, e ≠ OtherException name) →
  _ws_connect self enter run = (before_handlers self enter, WsRaises e).
Proof.
  intros Hraise Hcode Hother.
  assert (Hh : handle self e = ([], WsRaises e)).
  { destruct e as [code|name|name]; simpl.
    - destruct (Hcode code eq_refl) as (H1 & H2 & H3).
      apply Z.eqb_neq in H1, H2, H3. by rewrite H1, H2, H3.
    - by destruct (Hother name).
    - reflexivity. }
  unfold _ws_connect, before_handlers.
  destruct Hraise as [->|[-> ->]]; rewrite Hh; simpl;
    by rewrite ?app_nil_r.
Qed.

Lemma ws_connect_reraises_the_rest_witness :
  _ws_connect (mkConnectionState 0 1 "Intents.ALL") Normal
    (Throws (WebSocketClosed 1006))
  = ([LogInfo; Connect 0 1; RunGateway; ClearShardReady; Dispatch Disconnect],
     WsRaises (WebSocketClosed 1006)).
Proof.
  apply (ws_connect_reraises_the_rest (mkConnectionState 0 1 "Intents.ALL")
           Normal (Throws (WebSocketClosed 1006)) (WebSocketClosed 1006)).
  - right. by split.
  - intros code Hc. injection Hc as <-. lia.
  - discriminate.
Defined.

(** X17: [_ws_connect] opens the gateway connection exactly once,
    however it ends: it never connects again by itself; and the [finally]
    block (clear the ready flag of the shard, dispatch the disconnect
    event) has run exactly when the gateway client was entered. *)
Theorem ws_connect_opens_once (self : ConnectionState)
    (enter run : Completion) :
  connects (_ws_connect self enter run).1 = 1
  ∧ (ClearShardReady ∈ (_ws_connect self enter run).1 ↔ enter = Normal).
Proof.
  unfold _ws_connect, handle, finally_effects.
  destruct enter as [|[code|name|name]]; [destruct run as [|[code|name|name]]|..];
    repeat case_match; simplify_eq; simpl; (split; [reflexivity|]);
    rewrite ?elem_of_cons, ?elem_of_nil; split; try done; auto;
    intros H; repeat (destruct H as [H|H]; try discriminate H); done.
Qed.

(** X18: an exception of the gateway that is an [Exception] and not a
    [WebSocketClosed] is swallowed: [_ws_connect] dispatches [Disconnect],
    logs the error and returns.  When the exception comes out of
    [gateway.run()], the [finally] block has dispatched its own event
    before: a client with one shard gets [Disconnect] twice, a client
    with more shards gets [ShardDisconnect] and then [Disconnect]. *)
Theorem ws_connect_swallows_exceptions (self : ConnectionState)
    (enter run : Completion) (name : string) :
  raises (OtherException name) enter run →
  _ws_connect self enter run
  = ((before_handlers self enter ++ [Dispatch Disconnect; LogError])%list,
     WsReturns)
  ∧ dispatched (_ws_connect self enter run).1
    = match enter with
      | Throws _ => [Disconnect]
      | Normal =>
          if (total_shards self =? 1)%Z then [Disconnect; Disconnect]
          else [ShardDisconnect (shard_id self); Disconnect]
      end.
Proof.
  intros [->|[-> ->]]; split; try reflexivity.
  simpl. by destruct (total_shards self =? 1)%Z.
Qed.

Lemma ws_connect_swallows_exceptions_witness :
  dispatched (_ws_connect (mkConnectionState 0 1 "Intents.ALL") Normal
                (Throws (OtherException "ConnectionError"))).1
  = [Disconnect; Disconnect].
Proof.
  destruct (ws_connect_swallows_exceptions
              (mkConnectionState 0 1 "Intents.ALL") Normal
              (Throws (OtherException "ConnectionError")) "ConnectionError")
    as [_ Hd].
  - right. by split.
  - exact Hd.
Defined.

(** ** change_presence and presence *)

(** X19: what [change_presence] stores is what it sends: when it raises
    nothing, the [presence] property afterwards holds a status, the one
    update forwarded to the gateway carries that status and the activity
    of [presence] ([None] when its list is empty), and it is forwarded
    last, after the warnings; without an [activity] argument the
    activities are those of before, with [None] there are none. *)
Theorem change_presence_then_presence {Status : Type} `{Models Status}
    (client client' : Client Status) (status : StatusArg Status)
    (activity : ActivityArg) (log : list (PresenceEffect Status)) :
  change_presence client status activity = (client', log, None) →
  ∃ st,
    (presence client').1 = Some st
    ∧ List.filter forwards log
      = [GatewayChangePresence (head (presence client').2) st]
    ∧ last log = Some (GatewayChangePresence (head (presence client').2) st)
    ∧ (activity = ActivityMissing →
       (presence client').2 = (presence client).2)
    ∧ (activity = ActivityNone → (presence client').2 = []).
Proof.
  unfold change_presence. intros Hc.
  destruct (resolve_activity client activity) as [act warnings] eqn:Ha.
  destruct (resolve_status client status) as [[st warnings']|e];
    [|discriminate Hc].
  injection Hc as <- <-. exists st. unfold presence. simpl.
  assert (Hw : ∀ ws : list string,
            List.filter forwards (Warning (Status := Status) <$> ws) = []).
  { induction ws as [|w ws IH]; [done|]. simpl. exact IH. }
  split; [reflexivity|]. split; [|split; [|split]].
  - rewrite !List.filter_app, !Hw. simpl. by destruct act.
  - rewrite last_snoc. by destruct act.
  - intros ->. simpl in Ha. by injection Ha as <- _.
  - intros ->. simpl in Ha. by injection Ha as <- _.
Qed.

Lemma change_presence_then_presence_witness :
  ∃ client' log,
    change_presence (mkClient (Some SampleIdle) NoActivity)
      (StatusStr "online") (ActivityOther "chess")
    = (client', log, None)
    ∧ presence client' = (Some SampleOnline, [mkActivity "chess" GAME None])
    ∧ last log
      = Some (GatewayChangePresence (Some (mkActivity "chess" GAME None))
                SampleOnline).
Proof.
  destruct (change_presence (mkClient (Some SampleIdle) NoActivity)
              (StatusStr "online") (ActivityOther "chess"))
    as [[client' log] e] eqn:Hc.
  assert (e = None ∧ presence client'
                     = (Some SampleOnline, [mkActivity "chess" GAME None]))
    as [-> Hp].
  { vm_compute in Hc. by injection Hc as <- <- <-. }
  exists client', log. split; [reflexivity|]. split; [exact Hp|].
  destruct (change_presence_then_presence _ _ _ _ _ Hc)
    as (st & Hst & _ & Hlast & _).
  rewrite Hp in Hst, Hlast. simpl in Hst, Hlast. injection Hst as <-.
  exact Hlast.
Defined.

Lemma upper_ascii_idempotent (c : ascii) :
  upper_ascii (upper_ascii c) = upper_ascii c.
Proof. by destruct c as [[] [] [] [] [] [] [] []]. Qed.

Lemma upper_lower_ascii (c : ascii) :
  upper_ascii (lower_ascii c) = upper_ascii c.
Proof. by destruct c as [[] [] [] [] [] [] [] []]. Qed.

Lemma upper_idempotent (s : string) : upper (upper s) = upper s.
Proof.
  induction s as [|c s IH]; [done|]. simpl.
  by rewrite upper_ascii_idempotent, IH.
Qed.

Lemma upper_lower (s : string) : upper (lower s) = upper s.
Proof.
  induction s as [|c s IH]; [done|]. simpl.
  by rewrite upper_lower_ascii, IH.
Qed.

Lemma lower_is_ascii (s : string) :
  is_ascii s = true → is_ascii (lower s) = true.
Proof.
  unfold is_ascii. induction s as [|c s IH]; [done|]. simpl.
  intros [Hc Hs]%andb_true_iff. rewrite (IH Hs), andb_true_r.
  by destruct c as [[] [] [] [] [] [] [] []].
Qed.

Lemma upper_is_ascii (s : string) :
  is_ascii s = true → is_ascii (upper s) = true.
Proof.
  unfold is_ascii. induction s as [|c s IH]; [done|]. simpl.
  intros [Hc Hs]%andb_true_iff. rewrite (IH Hs), andb_true_r.
  by destruct c as [[] [] [] [] [] [] [] []].
Qed.

(** X20: the name of a status written in ASCII characters is read without
    regard to case ([status.upper()]): the string in lower case and the
    string in upper case give what the string itself gives, the same
    stored presence and the same update, or the same error.  (Beyond
    ASCII this fails: [str.upper] and [str.lower] do not undo each
    other there.) *)
Theorem change_presence_ignores_case {Status : Type} `{Models Status}
    (client : Client Status) (s : string) (activity : ActivityArg) :
  is_ascii s = true →
  change_presence client (StatusStr (lower s)) activity
  = change_presence client (StatusStr s) activity
  ∧ change_presence client (StatusStr (upper s)) activity
    = change_presence client (StatusStr s) activity.
Proof.
  intros Hs. unfold change_presence, resolve_status.
  rewrite (str_upper_ascii (lower s) (lower_is_ascii s Hs)).
  rewrite (str_upper_ascii (upper s) (upper_is_ascii s Hs)).
  rewrite (str_upper_ascii s Hs).
  rewrite upper_lower, upper_idempotent.
  assert (str_truthy (lower s) = str_truthy s) as -> by by destruct s.
  assert (str_truthy (upper s) = str_truthy s) as -> by by destruct s.
  by split.
Qed.

Lemma change_presence_ignores_case_witness :
  change_presence (mkClient (Some SampleOnline) NoActivity)
    (StatusStr "idle") ActivityMissing
  = change_presence (mkClient (Some SampleOnline) NoActivity)
      (StatusStr "Idle") ActivityMissing
  ∧ change_presence (mkClient (Some SampleOnline) NoActivity)
      (StatusStr "IDLE") ActivityMissing
    = change_presence (mkClient (Some SampleOnline) NoActivity)
        (StatusStr "Idle") ActivityMissing.
Proof.
  apply (change_presence_ignores_case
           (mkClient (Some SampleOnline) NoActivity) "Idle" ActivityMissing).
  reflexivity.
Defined.

(** ** request: headers and body *)

(** X21: the tests at the head of [request] and in [_process_payload]
    agree: the header [Content-Type: application/json] is set exactly
    when the body goes out as JSON of the filtered payload, that is when
    there is a payload and no files; with files the body is multipart
    form data and the header is left to aiohttp, and without a payload
    the body is [json=None]. *)
Theorem content_type_iff_json_payload (user_agent : string)
    (token reason : option string) (payload : option Payload) (files : Files)
    (params : option PyObj) (extra : Kwargs) :
  let kw := set_body (_process_payload payload files)
              (assemble user_agent token reason payload files params extra) in
  has_header "Content-Type" kw
  = match _process_payload payload files with
    | DataPayload _ => true
    | _ => false
    end
  ∧ match _process_payload payload files with
    | DataPayload p => kw_json kw = Some (JsonPayload (Some p))
    | DataForm form_data =>
        kw_data kw = Some (FormArg form_data) ∧ kw_json kw = kw_json extra
    | DataNone =>
        kw_json kw = Some (JsonPayload None) ∧ kw_data kw = kw_data extra
    end.
Proof.
  unfold _process_payload, assemble, has_header.
  destruct payload as [payload|];
    [destruct (files_truthy files)|];
    destruct token as [tk|]; try destruct (str_truthy tk);
    destruct reason as [r|]; try destruct (str_truthy r);
    simpl; by repeat split.
Qed.

(** ** ingest_ratelimit_header: the last response counts *)

(** X22: a header whose values are read without error overwrites what
    an earlier response had set: the bucket hash, the limit, what remains
    and the reset delay depend on the last response only; a response
    without these headers resets them to the values of [__init__] and
    leaves the lock and [unlock_on_exit] as they are. *)
Theorem ingest_ratelimit_header_last_wins (header1 header2 : Header)
    (L : BucketLock) :
  ((ingest_ratelimit_header header2 L).2 = None →
   ingest_ratelimit_header header2 (ingest_ratelimit_header header1 L).1
   = ingest_ratelimit_header header2 L)
  ∧ ingest_ratelimit_header [] (ingest_ratelimit_header header1 L).1
    = (mkBucketLock (_lock L) (unlock_on_exit L) None (-1) (-1) (FFin 0),
       None).
Proof.
  pose proof (ingest_ratelimit_header_lock header1 L) as [Hl Hf].
  destruct (ingest_ratelimit_header header1 L) as [L1 e1]. simpl in *.
  split.
  - unfold ingest_ratelimit_header.
    destruct (int_or_minus_one (header_get header2 "x-ratelimit-limit"));
      [|done].
    destruct (int_or_minus_one (header_get header2 "x-ratelimit-remaining"));
      [|done].
    destruct (float_or_zero (header_get header2 "x-ratelimit-reset-after"));
      [|done].
    intros _. unfold set_delta, set_remaining, set_limit, set_bucket_hash.
    simpl. by rewrite Hl, Hf.
  - unfold ingest_ratelimit_header, set_delta, set_remaining, set_limit,
      set_bucket_hash. simpl. by rewrite Hl, Hf.
Qed.

Lemma ingest_ratelimit_header_last_wins_witness :
  ingest_ratelimit_header shared_hash_header
    (ingest_ratelimit_header exhausted_header new_BucketLock).1
  = (mkBucketLock false true (Some "abcd1234") (-1) (-1) (FFin 0), None).
Proof.
  etrans;
    [apply (proj1 (ingest_ratelimit_header_last_wins exhausted_header
                     shared_hash_header new_BucketLock));
     reflexivity|].
  reflexivity.
Defined.

(** ** A call and its lock *)

Lemma step_task_fixed (s s' : State) (e : Event) (t : task_id) (T : Task) :
  step s e = Some s' → tasks s !! t = Some T →
  ∃ T',
    tasks s' !! t = Some T'
    ∧ lock T' = lock T ∧ route T' = route T
    ∧ payload T' = payload T ∧ files T' = files T
    ∧ (attempt T <= attempt T')%nat
    ∧ (∀ r, pc T = Finished r → T' = T).
Proof.
  intros Hstep Ht.
  assert (Hsame : tasks s' !! t = Some T →
            ∃ T', tasks s' !! t = Some T'
                  ∧ lock T' = lock T ∧ route T' = route T
                  ∧ payload T' = payload T ∧ files T' = files T
                  ∧ (attempt T <= attempt T')%nat
                  ∧ (∀ r, pc T = Finished r → T' = T)).
  { intros H'. exists T. by repeat split. }
  destruct e; simpl in Hstep.
  1: { destruct (tasks s !! t0) eqn:Ht0; [discriminate Hstep|].
       apply Hsame. unfold get_ratelimit in Hstep.
       repeat case_match; simplify_eq; simpl;
         (rewrite lookup_insert_ne; [done|intros ->; congruence]). }
  1-9: unfold with_task in Hstep;
    destruct (tasks s !! t0) as [T0|] eqn:Ht0; [|discriminate Hstep];
    (destruct (heap s !! lock T0) as [L|]; [|discriminate Hstep]);
    (destruct (decide (t0 = t)) as [->|Hne];
     [|apply Hsame; other_task Hstep Hne]);
    rewrite Ht in Ht0; injection Ht0 as <-;
    unfold on_response, ingest_ratelimit, blind_defer_unlock, defer_unlock,
      raise_in_try, continue, finish_with, after_throttle, send, unlock
      in Hstep;
    repeat case_match; simplify_eq; simpl; rewrite lookup_insert_eq;
    eexists; (split; [reflexivity|]); simpl; repeat split; try done; lia.
  - apply Hsame. repeat case_match; by simplify_eq.
  - apply Hsame. repeat case_match; by simplify_eq.
  - apply Hsame. repeat case_match; by simplify_eq.
  - apply Hsame. by simplify_eq.
  - unfold with_task in Hstep.
    destruct (tasks s !! t0) as [T0|] eqn:Ht0; [|discriminate Hstep].
    destruct (heap s !! lock T0) as [L|]; [|discriminate Hstep].
    destruct (decide (t0 = t)) as [->|Hne];
      [|apply Hsame; other_task Hstep Hne].
    rewrite Ht in Ht0. injection Ht0 as <-.
    unfold cancel_in, raise_in_try, finish_with in Hstep.
    repeat case_match; simplify_eq; simpl; rewrite lookup_insert_eq;
      eexists; (split; [reflexivity|]); simpl; repeat split; try done; lia.
Qed.

(** X23: [lock = self.get_ratelimit(route)] is evaluated once, before
    the loop: through all its attempts a call keeps the BucketLock it got
    at the start (whatever the registry learns meanwhile), with its route,
    payload and files; its attempt counter never goes back; and a call
    that has ended stays as it ended. *)
Theorem request_keeps_its_lock (es : list Event) (s s' : State)
    (t : task_id) (T : Task) :
  run s es = Some s' → tasks s !! t = Some T →
  ∃ T',
    tasks s' !! t = Some T'
    ∧ lock T' = lock T ∧ route T' = route T
    ∧ payload T' = payload T ∧ files T' = files T
    ∧ (attempt T <= attempt T')%nat
    ∧ (∀ r, pc T = Finished r → T' = T).
Proof.
  revert s T. induction es as [|e es IH]; intros s T Hrun Ht; simpl in Hrun.
  - injection Hrun as <-. exists T. by repeat split.
  - destruct (step s e) as [s1|] eqn:Hstep; [|discriminate Hrun].
    destruct (step_task_fixed s s1 e t T Hstep Ht)
      as (T1 & Ht1 & Hl1 & Hr1 & Hp1 & Hf1 & Ha1 & Hfin1).
    destruct (IH s1 T1 Hrun Ht1)
      as (T' & Ht' & Hl' & Hr' & Hp' & Hf' & Ha' & Hfin').
    exists T'. split; [done|]. repeat split; try congruence; [lia|].
    intros r Hr. rewrite (Hfin1 r Hr) in *. by apply (Hfin' r).
Qed.

Lemma request_keeps_its_lock_witness :
  ∃ s s' T',
    run client0 sending_trace = Some s
    ∧ run s [Response 0 500 shared_hash_header error_page; Advance 1; Woke 0]
      = Some s'
    ∧ tasks s' !! 0 = Some T'
    ∧ lock T' = 0 ∧ route T' = messages_route.
Proof.
  destruct (run client0 sending_trace) as [s|] eqn:Hrun;
    vm_compute in Hrun; [|discriminate Hrun].
  injection Hrun as Hs0.
  destruct (run s [Response 0 500 shared_hash_header error_page; Advance 1;
                   Woke 0]) as [s'|] eqn:Hrun';
    [|subst s; vm_compute in Hrun'; discriminate Hrun'].
  assert (Ht : tasks s !! 0
               = Some (mkTask messages_route None FilesNone
                         (set_body DataNone
                            (assemble "DiscordBot" (Some "token") None None
                               FilesNone None no_kwargs))
                         0 0 Sending)).
  { subst s. vm_compute. reflexivity. }
  destruct (request_keeps_its_lock _ s s' 0 _ Hrun' Ht)
    as (T' & Ht' & Hl & Hr & _ & _ & Ha & _).
  by exists s, s', T'.
Defined.

(** X24: the deferred unlock of [blind_defer_unlock] does happen: once
    the delay of a timer has passed, its callback can run, and after it
    every request that waits for that BucketLock can get it. *)
Theorem deferred_unlock_frees_the_lock (s : State) (i : nat) (tm : Timer) :
  reachable s →
  timers s !! i = Some tm →
  elapsed (tm_since tm) (tm_delay tm) (now s) = true →
  ∃ s' L',
    step s (TimerFired i) = Some s'
    ∧ heap s' !! tm_lock tm = Some L' ∧ locked L' = false
    ∧ ∀ t T, tasks s !! t = Some T → lock T = tm_lock tm →
             pc T = AcquireBucket →
             ∃ s'' T'', step s' (AcquiredBucket t) = Some s''
                        ∧ tasks s'' !! t = Some T''
                        ∧ pc T'' = AcquireGlobal.
Proof.
  intros Hr Hi Hel. pose proof (reachable_Inv s Hr) as HI. unfold Inv in HI.
  destruct (inv_heap _ _ _ _ _ _ HI (tm_lock tm)) as [L HL0].
  { by eapply inv_timer_lock. }
  assert (HL : heap s !! tm_lock tm = Some L) by exact HL0.
  pose proof (inv_timer_locked _ _ _ _ _ _ HI i tm L Hi HL) as Hlk.
  exists (set_lock (tm_lock tm) (set_locked false L)
            (set_timers (delete i (timers s)) s)), (set_locked false L).
  split; [|split; [|split]].
  - unfold step. rewrite Hi, Hel. cbn [negb]. cbv zeta.
    change (heap (set_timers (delete i (timers s)) s)) with (heap s).
    rewrite HL. unfold unlock. by rewrite Hlk.
  - apply lookup_insert_eq.
  - reflexivity.
  - intros t T Ht Hl Hpc.
    exists (set_lock (lock T) (set_locked true (set_locked false L))
              (set_task t (set_pc AcquireGlobal T)
                 (set_lock (tm_lock tm) (set_locked false L)
                    (set_timers (delete i (timers s)) s)))),
           (set_pc AcquireGlobal T).
    split; [|split; [apply lookup_insert_eq|reflexivity]].
    unfold step.
    rewrite (step_with_task _ t T (set_locked false L)).
    + by rewrite Hpc.
    + exact Ht.
    + rewrite Hl. apply lookup_insert_eq.
Qed.

Lemma deferred_unlock_frees_the_lock_witness :
  ∃ s s' s'' T'',
    run client0 (exhausted_trace ++ [Advance 1]) = Some s
    ∧ step s (TimerFired 0) = Some s'
    ∧ step s' (AcquiredBucket 1) = Some s''
    ∧ tasks s'' !! 1 = Some T'' ∧ pc T'' = AcquireGlobal.
Proof.
  destruct (run client0 (exhausted_trace ++ [Advance 1])) as [s|] eqn:Hrun;
    vm_compute in Hrun; [|discriminate Hrun].
  assert (Hreach : reachable s)
    by reached (exhausted_trace ++ [Advance 1])%list Hrun.
  injection Hrun as Hs0.
  destruct (deferred_unlock_frees_the_lock s 0 (mkTimer 0 0 (FFin 1)) Hreach)
    as (s' & L' & Hs' & _ & _ & Hnext);
    [by subst s|by subst s|].
  destruct (Hnext 1 (mkTask messages_route None FilesNone
                       (assemble "DiscordBot" (Some "token") None None
                          FilesNone None no_kwargs)
                       0 0 AcquireBucket))
    as (s'' & T'' & Hs'' & Ht'' & Hpc'');
    [subst s; vm_compute; reflexivity|reflexivity|reflexivity|].
  by exists s, s', s'', T''.
Defined.

(** ** request: the plain case *)

Lemma run_snoc (es : list Event) (e : Event) (s : State) :
  run s (es ++ [e])
  = match run s es with
    | Some s1 => step s1 e
    | None => None
    end.
Proof.
  revert s. induction es as [|e0 es IH]; intros s; simpl.
  - by destruct (step s e).
  - destruct (step s e0); [apply IH|done].
Qed.

(** X25: on a client that has logged in, a call that gets its locks at
    once, finds the session open and is answered with a status from 200 to
    299 and headers that can be read, returns the decoded body in its first
    attempt, whatever the route, the payload, the files and the other
    arguments are; what was sent are the headers assembled at the head of
    [request] with the body of [_process_payload].  On a client that has
    not logged in there is no session: the call ends, once past its global
    throttle, with the [AttributeError] of [None.closed]. *)
Theorem request_returns_the_body (tk user_agent : string) (route : Route)
    (payload : option Payload) (files : Files) (reason : option string)
    (params : option PyObj) (extra : Kwargs) (cooldown : PyFloat)
    (closed : bool) (status : Z) (header : Header) (result : Decoded) :
  (200 <= status < 300)%Z →
  (ingest_ratelimit_header header (set_locked true new_BucketLock)).2 = None →
  (∃ s T,
     run (init user_agent)
       [Login tk; Call 0 route payload files reason params extra;
        AcquiredBucket 0; AcquiredGlobal 0 true cooldown false;
        Response 0 status header result]
     = Some s
     ∧ tasks s !! 0 = Some T
     ∧ pc T = Finished (Returned (Some result))
     ∧ attempt T = 0
     ∧ kwargs T
       = set_body (_process_payload payload files)
           (assemble user_agent (Some tk) reason payload files params extra))
  ∧ (∃ s T,
       run (init user_agent)
         [Call 0 route payload files reason params extra;
          AcquiredBucket 0; AcquiredGlobal 0 true cooldown closed]
       = Some s
       ∧ tasks s !! 0 = Some T
       ∧ pc T = Finished (Raised (Python AttributeError))).
Proof.
  intros Hst Hi. split;
    [|eexists _, _; split; [reflexivity|]; split; [reflexivity|done]].
  assert (Hcheck : status_check status route result = Returned (Some result)).
  { unfold status_check.
    assert ((status <? 300)%Z = true) as -> by lia.
    by assert ((200 <=? status)%Z = true) as -> by lia. }
  assert (H429 : (status =? 429)%Z = false) by lia.
  assert (Hsrv : is_server_issue status = false).
  { unfold is_server_issue. lia. }
  set (kw := set_body (_process_payload payload files)
               (assemble user_agent (Some tk) reason payload files params
                  extra)).
  set (T3 := mkTask route payload files kw 0 0 Sending).
  set (L3 := set_locked true new_BucketLock) in *.
  destruct (ingest_ratelimit_header header L3) as [L' e'] eqn:HL'.
  simpl in Hi. subst e'.
  change [Login tk; Call 0 route payload files reason params extra;
          AcquiredBucket 0; AcquiredGlobal 0 true cooldown false;
          Response 0 status header result]
    with ([Login tk; Call 0 route payload files reason params extra;
           AcquiredBucket 0; AcquiredGlobal 0 true cooldown false]
          ++ [Response 0 status header result])%list.
  rewrite run_snoc.
  destruct (run (init user_agent)
              [Login tk; Call 0 route payload files reason params extra;
               AcquiredBucket 0; AcquiredGlobal 0 true cooldown false])
    as [s3|] eqn:H3; [|discriminate H3].
  assert (Ht3 : tasks s3 !! 0 = Some T3) by by injection H3 as <-.
  assert (HL3 : heap s3 !! lock T3 = Some L3) by by injection H3 as <-.
  clear H3. rewrite (step_Response s3 0 T3 L3 _ _ _ Ht3 HL3 eq_refl).
  unfold on_response.
  destruct (ingest_ratelimit_ok (Http.route T3) header (lock T3) L3 L' s3 HL')
    as (s4 & -> & _).
  assert (Hrow : interpret status result L' = NoRow
                 ∨ interpret status result L' = BlindDeferUnlock).
  { unfold interpret. rewrite H429, Hsrv. destruct (remaining L' =? 0)%Z; auto. }
  destruct Hrow as [-> | ->]; eexists _, _; (split; [reflexivity|]);
    simpl; rewrite lookup_insert_eq; (split; [reflexivity|]); simpl;
    by rewrite Hcheck.
Qed.

Lemma request_returns_the_body_witness :
  (∃ s T,
     run (init "DiscordBot")
       [Login "token"; call 0 messages_route None FilesNone; AcquiredBucket 0;
        AcquiredGlobal 0 true (FFin 0) false;
        Response 0 200 exhausted_header error_page]
     = Some s
     ∧ tasks s !! 0 = Some T
     ∧ pc T = Finished (Returned (Some error_page)))
  ∧ (∃ s T,
       run (init "DiscordBot")
         [call 0 messages_route None FilesNone; AcquiredBucket 0;
          AcquiredGlobal 0 true (FFin 0) false]
       = Some s
       ∧ tasks s !! 0 = Some T
       ∧ pc T = Finished (Raised (Python AttributeError))).
Proof.
  destruct (request_returns_the_body "token" "DiscordBot"
              messages_route None FilesNone None None no_kwargs (FFin 0)
              false 200 exhausted_header error_page)
    as [(s & T & Hrun & Ht & Hpc & _) (s2 & T2 & Hrun2 & Ht2 & Hpc2)];
    [lia|reflexivity|].
  split; [by exists s, T|by exists s2, T2].
Defined.
